(** * The Legend of Bomberman: a shallow embedding of [bomberman.cpp]

    The game world of [class Game] is embedded as a record of pure data;
    every member function becomes a function on that record.  Effects of
    the source that the embedding makes explicit:

    - [rand()] reads the next element of a stream [rnd : nat -> nat]; the
      cursor into the stream is passed along and returned.
    - [chrono::steady_clock::now()] is an argument [now], a number of
      nanoseconds; one reading is used for a whole tick.
    - undefined behaviour (a read outside the grid arrays, a call through
      a null pointer, the use of a variable that a failed extraction left
      without a value) is the result [None].
    - [gameOver] and [gameWin] end the process with [exit(0)]; they are
      results of their own, after which there is no world any more.
    - the save file is its text, a list of characters.

    The [int] fields of the source are integers of [Z]: the embedding does
    not bound them.  The fields [x] and [y] that every entity inherits
    from [Entity] are [p_x], [e_x], [b_x], [d_x] and so on; the field
    [symbol] is the constant that the constructor of each class passes.
    Memory is not part of the embedding: neither who owns and deletes an
    entity, nor the allocated length of the arrays [enemies] and [bombs],
    which are lists here.  The key q, which ends the process, has no
    pass of the loop. *)

From Stdlib Require Import ZArith Ascii String Lia ZifyBool.
From Stdlib Require Import DecimalString DecimalZ DecimalPos.
From stdpp Require Import base option list numbers sets.
Import ListNotations.
Open Scope Z_scope.

(** ** Constants *)

Definition WIDTH : Z := 60.
Definition HEIGHT : Z := 30.

Definition PLAYER : ascii := "P"%char.
Definition ENEMY : ascii := "E"%char.
Definition BOMB : ascii := "B"%char.
Definition DESTRUCTIBLE_BLOCK : ascii := "#"%char.
Definition INDESTRUCTIBLE_BLOCK : ascii := "X"%char.
Definition EXIT_DOOR : ascii := "D"%char.
Definition TRAP : ascii := "T"%char.

Definition NUM_BOMBS : Z := 3.

(** ** Entities *)

(** What a grid cell can point to.  The coordinates an entity of the grid
    is constructed with are those of its cell and are never read again, so
    they are left out.  [ExitDoorRef] is the cell that holds the pointer
    [exitDoor] itself (only [loadGame] stores it, for the symbol D). *)
Inductive Entity : Type :=
| IndestructibleBlock
| DestructibleBlock (isGreen : bool)
| Trap
| ExitDoorRef.

Definition getSymbol (e : Entity) : ascii :=
  match e with
  | IndestructibleBlock => INDESTRUCTIBLE_BLOCK
  | DestructibleBlock _ => DESTRUCTIBLE_BLOCK
  | Trap => TRAP
  | ExitDoorRef => EXIT_DOOR
  end.

Global Instance Entity_eq_dec : EqDecision Entity.
Proof. solve_decision. Defined.

(** A cell is an [Entity*]: [None] is [nullptr]. *)
Abbreviation Cell := (option Entity).

(** [Entity*** grid]: HEIGHT rows of WIDTH cells. *)
Abbreviation Grid := (list (list Cell)).

Record Player : Type := mkPlayer { p_x : Z; p_y : Z; hasBombs : Z }.
Record Enemy : Type := mkEnemy { e_x : Z; e_y : Z; moveType : Z; moveStep : Z }.
Record Bomb : Type := mkBomb { b_x : Z; b_y : Z; plantTime : Z }.
Record ExitDoor : Type := mkExitDoor { d_x : Z; d_y : Z; visible : bool }.

Global Instance Enemy_eq_dec : EqDecision Enemy.
Proof. solve_decision. Defined.
Global Instance Bomb_eq_dec : EqDecision Bomb.
Proof. solve_decision. Defined.

(** The members of [class Game].  [enemyCount] and [bombCount] are the
    lengths of the two lists. *)
Record Game : Type := mkGame {
  grid : Grid;
  player : Player;
  enemies : list Enemy;
  bombs : list Bomb;
  exitDoor : ExitDoor;
  bombsPlanted : Z
}.

Definition enemyCount (w : Game) : Z := Z.of_nat (length (enemies w)).
Definition bombCount (w : Game) : Z := Z.of_nat (length (bombs w)).

(** ** The grid *)

(** [grid[y][x]] with nothing known about [x] and [y]: outside the two
    arrays the read is undefined. *)
Definition grid_read (g : Grid) (y x : Z) : option Cell :=
  if (0 <=? y) && (0 <=? x)
  then row ← g !! Z.to_nat y; row !! Z.to_nat x
  else None.

(** [grid[y][x]] where the source has checked the indices before. *)
Definition cellAt (g : Grid) (y x : Z) : Cell :=
  default None (grid_read g y x).

(** [grid[y][x] = c].  The source writes only at indices that it has
    checked or computed inside the grid; for any other index the function
    leaves the grid as it is. *)
Definition grid_write (g : Grid) (y x : Z) (c : Cell) : Grid :=
  if (0 <=? y) && (0 <=? x)
  then alter (λ row, <[Z.to_nat x := c]> row) (Z.to_nat y) g
  else g.

Definition inGrid (x y : Z) : Prop := 0 ≤ x < WIDTH ∧ 0 ≤ y < HEIGHT.

Definition inGridb (x y : Z) : bool :=
  (0 <=? x) && (x <? WIDTH) && (0 <=? y) && (y <? HEIGHT).

(** The grid as the constructor allocates it. *)
Definition grid_dims (g : Grid) : Prop :=
  length g = Z.to_nat HEIGHT ∧ Forall (λ row, length row = Z.to_nat WIDTH) g.

(** [grid[y][x] && grid[y][x]->getSymbol() == s] *)
Definition symbolIs (c : Cell) (s : ascii) : bool :=
  match c with
  | Some e => Ascii.eqb (getSymbol e) s
  | None => false
  end.

Definition isNull (c : Cell) : bool :=
  match c with None => true | Some _ => false end.

(** ** Entity::move, Player *)

Definition Enemy_move (dx dy : Z) (e : Enemy) : Enemy :=
  mkEnemy (e_x e + dx) (e_y e + dy) (moveType e) (moveStep e).

Definition Player_move (dx dy : Z) (p : Player) : Player :=
  mkPlayer (p_x p + dx) (p_y p + dy) (hasBombs p).

Definition canPlantBomb (p : Player) : bool := 0 <? hasBombs p.
Definition useBomb (p : Player) : Player := mkPlayer (p_x p) (p_y p) (hasBombs p - 1).
Definition reloadBomb (p : Player) : Player := mkPlayer (p_x p) (p_y p) (hasBombs p + 1).

(** ** rand() *)

Definition rand (rnd : nat → nat) (k : nat) : Z := Z.of_nat (rnd k).

(** ** Enemy::update *)

(** The two conditional expressions of the switch. *)
Definition stepX (randomMove : Z) : Z :=
  if (randomMove =? 0) || (randomMove =? 1) then 1
  else if (randomMove =? 2) || (randomMove =? 3) then -1 else 0.

Definition stepY (randomMove : Z) : Z :=
  if (randomMove =? 0) || (randomMove =? 1) then -1
  else if (randomMove =? 2) || (randomMove =? 3) then 1 else 0.

(** Returns the enemy and the cursor of the random stream: [rand()] is
    called only when the counter was 10. *)
Definition Enemy_update (rnd : nat → nat) (k : nat) (e : Enemy) : Enemy * nat :=
  if negb (moveStep e =? 10)
  then (mkEnemy (e_x e) (e_y e) (moveType e) (moveStep e + 1), k)
  else
    let randomMove := Z.rem (rand rnd k) 4 in
    let '(dx, dy) :=
      match moveType e with
      | 0 => (stepX randomMove, 0)
      | 1 => (0, stepY randomMove)
      | 2 => (stepX randomMove, stepY randomMove)
      | _ => (0, 0)
      end in
    (Enemy_move dx dy (mkEnemy (e_x e) (e_y e) (moveType e) 0), S k).

(** ** Bomb::shouldExplode *)

(** [duration_cast<seconds>] truncates the nanoseconds towards zero. *)
Definition NANOS_PER_SECOND : Z := 1000000000.
Definition NANOS_PER_MS : Z := 1000000.

Definition shouldExplode (now : Z) (b : Bomb) : bool :=
  3 <=? Z.quot (now - plantTime b) NANOS_PER_SECOND.

(** ** Game::isValidMove *)

(** [x > 0 && x < WIDTH - 1 && y > 0 && y < HEIGHT - 1 && grid[y][x] == nullptr
     || grid[y][x]->getSymbol() == TRAP]: the conjunction binds tighter
    than the disjunction, so the right operand is evaluated whenever the
    left one is false, whatever made it false. *)
Definition isValidMove (g : Grid) (x y : Z) : option bool :=
  lhs ← (if (0 <? x) && (x <? WIDTH - 1) && (0 <? y) && (y <? HEIGHT - 1)
         then c ← grid_read g y x; Some (isNull c)
         else Some false);
  if (lhs : bool) then Some true
  else c ← grid_read g y x; e ← c; Some (Ascii.eqb (getSymbol e) TRAP).

Definition withPlayer (w : Game) (p : Player) : Game :=
  mkGame (grid w) p (enemies w) (bombs w) (exitDoor w) (bombsPlanted w).

Definition movePlayer (dx dy : Z) (w : Game) : option Game :=
  let newX := p_x (player w) + dx in
  let newY := p_y (player w) + dy in
  ok ← isValidMove (grid w) newX newY;
  Some (if (ok : bool) then withPlayer w (Player_move dx dy (player w)) else w).

(** ** Game::plantBomb *)

(** The constructor of [Bomb] reads the clock: [now].  [bombs[bombCount++]]
    appends to the list. *)
Definition plantBomb (now : Z) (w : Game) : Game :=
  if canPlantBomb (player w) then
    if bombCount w >=? NUM_BOMBS then w
    else mkGame (grid w) (useBomb (player w)) (enemies w)
           (bombs w ++ [mkBomb (p_x (player w)) (p_y (player w)) now])
           (exitDoor w) (bombsPlanted w + 1)
  else w.

(** ** Game::explodeBomb *)

(** [a[j] = a[--count]] *)
Definition swapRemove {A : Type} (j : nat) (l : list A) : list A :=
  match list.last l with
  | Some z => take (length l - 1) (<[j := z]> l)
  | None => l
  end.

Definition enemyAt (x y : Z) (e : Enemy) : Prop := e_x e = x ∧ e_y e = y.

Global Instance enemyAt_dec x y e : Decision (enemyAt x y e).
Proof. unfold enemyAt. apply _. Defined.

(** The loop over [j] that deletes the first enemy found on the cell. *)
Definition eliminateEnemy (x y : Z) (es : list Enemy) : list Enemy :=
  match list_find (enemyAt x y) es with
  | Some (j, _) => swapRemove j es
  | None => es
  end.

(** One pass of the body of the loop over [i]. *)
Inductive Blast : Type :=
| BlastBreak (w : Game)
| BlastNext (w : Game)
| BlastFatal.

Definition blastCell (x y : Z) (w : Game) : Blast :=
  if (x <? 0) || (x >=? WIDTH) || (y <? 0) || (y >=? HEIGHT) then BlastBreak w
  else if symbolIs (cellAt (grid w) y x) DESTRUCTIBLE_BLOCK then
    BlastBreak
      (mkGame (grid_write (grid w) y x None) (player w) (enemies w) (bombs w)
         (if (x =? d_x (exitDoor w)) && (y =? d_y (exitDoor w))
          then mkExitDoor (d_x (exitDoor w)) (d_y (exitDoor w)) true
          else exitDoor w)
         (bombsPlanted w))
  else if symbolIs (cellAt (grid w) y x) INDESTRUCTIBLE_BLOCK then BlastBreak w
  else
    let w' := mkGame (grid w) (player w) (eliminateEnemy x y (enemies w)) (bombs w)
                (exitDoor w) (bombsPlanted w) in
    if (p_x (player w) =? x) && (p_y (player w) =? y) then BlastFatal
    else BlastNext w'.

Inductive Exploded : Type :=
| Survived (w : Game)
| BlownUp.

(** The loop [for (int i = 1; i <= 3; i++)], over the values of [i] left. *)
Fixpoint scanRay (bx by_ dx dy : Z) (steps : list Z) (w : Game) : Exploded :=
  match steps with
  | [] => Survived w
  | i :: steps' =>
      match blastCell (bx + dx * i) (by_ + dy * i) w with
      | BlastBreak w' => Survived w'
      | BlastNext w' => scanRay bx by_ dx dy steps' w'
      | BlastFatal => BlownUp
      end
  end.

(** The pairs (dx, dy) of the two outer loops that pass the test
    [dx == 0 || dy == 0], in the order of the loops. *)
Definition directions : list (Z * Z) :=
  filter (λ d, fst d = 0 ∨ snd d = 0)
    (dx ← [-1; 0; 1]; dy ← [-1; 0; 1]; [(dx, dy)]).

Fixpoint scanDirs (bx by_ : Z) (ds : list (Z * Z)) (w : Game) : Exploded :=
  match ds with
  | [] => Survived w
  | (dx, dy) :: ds' =>
      match scanRay bx by_ dx dy [1; 2; 3] w with
      | Survived w' => scanDirs bx by_ ds' w'
      | BlownUp => BlownUp
      end
  end.

Definition explodeBomb (b : Bomb) (w : Game) : Exploded :=
  match scanDirs (b_x b) (b_y b) directions w with
  | Survived w' => Survived (withPlayer w' (reloadBomb (player w')))
  | BlownUp => BlownUp
  end.

(** ** Game::update *)

Inductive Outcome : Type :=
| Running (w : Game) (k : nat)
| GameOver (causeOfDeath : string)
| GameWin.

(** The loop over the enemies: each one updates, then moves back when its
    new cell is not valid. *)
Fixpoint moveEnemies (rnd : nat → nat) (k : nat) (g : Grid) (es : list Enemy)
  : option (list Enemy * nat) :=
  match es with
  | [] => Some ([], k)
  | e :: es' =>
      let oldX := e_x e in
      let oldY := e_y e in
      let '(e1, k1) := Enemy_update rnd k e in
      ok ← isValidMove g (e_x e1) (e_y e1);
      let e2 := if (ok : bool) then e1
                else Enemy_move (oldX - e_x e1) (oldY - e_y e1) e1 in
      r ← moveEnemies rnd k1 g es';
      Some (e2 :: r.1, r.2)
  end.

Definition withBombs (w : Game) (bs : list Bomb) : Game :=
  mkGame (grid w) (player w) (enemies w) bs (exitDoor w) (bombsPlanted w).

(** The [while (i < bombCount)] loop.  Every pass either increments [i] or
    decrements [bombCount], so [length (bombs w)] passes are enough. *)
Fixpoint bombLoop (fuel : nat) (now : Z) (i : nat) (w : Game) : Exploded :=
  match fuel with
  | O => Survived w
  | S fuel' =>
      match bombs w !! i with
      | None => Survived w
      | Some b =>
          if shouldExplode now b then
            match explodeBomb b w with
            | Survived w' => bombLoop fuel' now i (withBombs w' (swapRemove i (bombs w')))
            | BlownUp => BlownUp
            end
          else bombLoop fuel' now (S i) w
      end
  end.

Definition playerCaught (w : Game) : bool :=
  existsb (λ e, (p_x (player w) =? e_x e) && (p_y (player w) =? e_y e)) (enemies w).

Definition update (rnd : nat → nat) (k : nat) (now : Z) (w : Game) : option Outcome :=
  if playerCaught w then Some (GameOver "Player was caught by an enemy!")
  else
    c ← grid_read (grid w) (p_y (player w)) (p_x (player w));
    if symbolIs c TRAP then Some (GameOver "Player stepped on a trap!")
    else
      r ← moveEnemies rnd k (grid w) (enemies w);
      let w1 := mkGame (grid w) (player w) r.1 (bombs w) (exitDoor w) (bombsPlanted w) in
      match bombLoop (length (bombs w1)) now 0 w1 with
      | BlownUp => Some (GameOver "Player was blown up by a bomb!")
      | Survived w2 =>
          if (p_x (player w2) =? d_x (exitDoor w2))
             && (p_y (player w2) =? d_y (exitDoor w2))
             && visible (exitDoor w2)
          then Some GameWin
          else Some (Running w2 r.2)
      end.

(** ** Game::playGame: one pass of the loop *)

Inductive Key : Type :=
| KeyUp | KeyDown | KeyLeft | KeyRight | KeySpace | KeySave | KeyNone.

Definition tick (rnd : nat → nat) (k : nat) (now : Z) (key : Key) (w : Game)
  : option Outcome :=
  w1 ← match key with
       | KeyUp => movePlayer 0 (-1) w
       | KeyDown => movePlayer 0 1 w
       | KeyLeft => movePlayer (-1) 0 w
       | KeyRight => movePlayer 1 0 w
       | KeySpace => Some (plantBomb now w)
       | KeySave => Some w
       | KeyNone => Some w
       end;
  update rnd k now w1.

(** ** Game::initializeGame *)

(** The body of the two loops that add the blocks, for the cell of row [i]
    and column [j]: the cell and the cursor of the random stream after it.
    The second [rand()] is called only when the first test failed. *)
Definition genCell (rnd : nat → nat) (i j : Z) (k : nat) : Cell * nat :=
  if (i =? 0) || (i =? HEIGHT - 1) || (j =? 0) || (j =? WIDTH - 1)
  then (Some IndestructibleBlock, k)
  else if Z.rem (rand rnd k) WIDTH =? 0 then (Some IndestructibleBlock, S k)
  else if Z.rem (rand rnd (S k)) HEIGHT =? 0 then (Some (DestructibleBlock false), S (S k))
  else (None, S (S k)).

(** The constructor has set every cell to [nullptr] before, so the loops
    build the rows. *)
Fixpoint genRow (rnd : nat → nat) (i : Z) (js : list Z) (k : nat) : list Cell * nat :=
  match js with
  | [] => ([], k)
  | j :: js' =>
      let '(c, k1) := genCell rnd i j k in
      let '(row, k2) := genRow rnd i js' k1 in
      (c :: row, k2)
  end.

Fixpoint genRows (rnd : nat → nat) (rows : list Z) (k : nat) : Grid * nat :=
  match rows with
  | [] => ([], k)
  | i :: rows' =>
      let '(row, k1) := genRow rnd i (seqZ 0 WIDTH) k in
      let '(g, k2) := genRows rnd rows' k1 in
      (row :: g, k2)
  end.

(** The loop [do { x = ...; y = ...; } while (grid[y][x] != nullptr || (x == 1 && y == 1))],
    which the source has three times.  It need not end: [fuel] bounds the
    number of passes, and [None] says that they were not enough. *)
Fixpoint pickFree (fuel : nat) (rnd : nat → nat) (k : nat) (g : Grid)
  : option (Z * Z * nat) :=
  match fuel with
  | O => None
  | S fuel' =>
      let x := Z.rem (rand rnd k) (WIDTH - 2) + 1 in
      let y := Z.rem (rand rnd (S k)) (HEIGHT - 2) + 1 in
      if negb (isNull (cellAt g y x)) || ((x =? 1) && (y =? 1))
      then pickFree fuel' rnd (S (S k)) g
      else Some (x, y, S (S k))
  end.

Fixpoint placeTraps (fuel : nat) (rnd : nat → nat) (n : nat) (k : nat) (g : Grid)
  : option (Grid * nat) :=
  match n with
  | O => Some (g, k)
  | S n' =>
      '(x, y, k1) ← pickFree fuel rnd k g;
      placeTraps fuel rnd n' k1 (grid_write g y x (Some Trap))
  end.

(** The loop over [i] that adds the enemies, over the values of [i] left. *)
Fixpoint placeEnemies (fuel : nat) (rnd : nat → nat) (idx : list Z) (k : nat) (g : Grid)
  : option (list Enemy * nat) :=
  match idx with
  | [] => Some ([], k)
  | i :: idx' =>
      '(x, y, k1) ← pickFree fuel rnd k g;
      r ← placeEnemies fuel rnd idx' k1 g;
      Some (mkEnemy x y (Z.rem i 3) 0 :: r.1, r.2)
  end.

(** The cells of the player's starting area, in the order of the loops. *)
Definition startArea : list (Z * Z) :=
  i ← [1; 2; 3]; j ← [1; 2; 3]; [(i, j)].

Definition clearStart (g : Grid) : Grid :=
  foldl (λ g ij, grid_write g ij.1 ij.2 None) g startArea.

Definition initializeGame (rnd : nat → nat) (fuel : nat) : option (Game * nat) :=
  let '(g0, k0) := genRows rnd (seqZ 0 HEIGHT) O in
  '(g1, k1) ← placeTraps fuel rnd (Z.to_nat ((HEIGHT + WIDTH) / 10)) k0 g0;
  r ← placeEnemies fuel rnd (seqZ 0 ((HEIGHT + WIDTH) / 10)) k1 g1;
  let g2 := clearStart g1 in
  '(exitX, exitY, k3) ← pickFree fuel rnd r.2 g2;
  Some (mkGame (grid_write g2 exitY exitX (Some (DestructibleBlock true)))
          (mkPlayer 1 1 NUM_BOMBS) r.1 [] (mkExitDoor exitX exitY false) 0,
        k3).

(** ** Game::saveGame *)

Definition NL : ascii := "010"%char.
Definition SP : ascii := " "%char.

Fixpoint showDigits (d : Decimal.uint) : list ascii :=
  match d with
  | Decimal.Nil => []
  | Decimal.D0 d' => "0"%char :: showDigits d'
  | Decimal.D1 d' => "1"%char :: showDigits d'
  | Decimal.D2 d' => "2"%char :: showDigits d'
  | Decimal.D3 d' => "3"%char :: showDigits d'
  | Decimal.D4 d' => "4"%char :: showDigits d'
  | Decimal.D5 d' => "5"%char :: showDigits d'
  | Decimal.D6 d' => "6"%char :: showDigits d'
  | Decimal.D7 d' => "7"%char :: showDigits d'
  | Decimal.D8 d' => "8"%char :: showDigits d'
  | Decimal.D9 d' => "9"%char :: showDigits d'
  end.

(** [saveFile << n] for an [int]: decimal, a minus sign when negative. *)
Definition showInt (n : Z) : list ascii :=
  match Z.to_int n with
  | Decimal.Pos d => showDigits d
  | Decimal.Neg d => "-"%char :: showDigits d
  end.

(** [saveFile << b] for a [bool] (no [boolalpha]). *)
Definition showBool (b : bool) : list ascii :=
  if b then ["1"%char] else ["0"%char].

Definition cellSymbol (c : Cell) : ascii :=
  match c with
  | Some e => getSymbol e
  | None => SP
  end.

Definition showEnemy (e : Enemy) : list ascii :=
  showInt (e_x e) ++ SP :: showInt (e_y e) ++ SP :: showInt (moveType e) ++ [NL].

Definition showBomb (b : Bomb) : list ascii :=
  showInt (b_x b) ++ SP :: showInt (b_y b) ++ [NL].

Definition showRow (row : list Cell) : list ascii :=
  map cellSymbol row ++ [NL].

(** The text written to the file when it could be opened.  The grid has
    HEIGHT rows of WIDTH cells, which the two loops write one by one. *)
Definition saveGame (w : Game) : list ascii :=
  showInt (p_x (player w)) ++ SP :: showInt (p_y (player w)) ++ NL ::
  showInt (bombsPlanted w) ++ NL ::
  showInt (enemyCount w) ++ NL ::
  concat (map showEnemy (enemies w)) ++
  showInt (bombCount w) ++ NL ::
  concat (map showBomb (bombs w)) ++
  showInt (d_x (exitDoor w)) ++ SP :: showInt (d_y (exitDoor w)) ++ SP ::
  showBool (visible (exitDoor w)) ++ NL ::
  concat (map showRow (grid w)).

(** ** Game::loadGame *)

(** [isspace] in the C locale. *)
Definition isspace (c : ascii) : bool :=
  let n := nat_of_ascii c in
  (n =? 32)%nat || ((9 <=? n)%nat && (n <=? 13)%nat).

Fixpoint skipws (s : list ascii) : list ascii :=
  match s with
  | c :: s' => if isspace c then skipws s' else s
  | [] => []
  end.

Definition digitOf (c : ascii) : option (Decimal.uint → Decimal.uint) :=
  match c with
  | "0" => Some Decimal.D0
  | "1" => Some Decimal.D1
  | "2" => Some Decimal.D2
  | "3" => Some Decimal.D3
  | "4" => Some Decimal.D4
  | "5" => Some Decimal.D5
  | "6" => Some Decimal.D6
  | "7" => Some Decimal.D7
  | "8" => Some Decimal.D8
  | "9" => Some Decimal.D9
  | _ => None
  end%char.

(** The longest run of digits at the head of the input, and the rest. *)
Fixpoint readDigits (s : list ascii) : Decimal.uint * list ascii :=
  match s with
  | c :: s' =>
      match digitOf c with
      | Some dig => let '(d, r) := readDigits s' in (dig d, r)
      | None => (Decimal.Nil, s)
      end
  | [] => (Decimal.Nil, [])
  end.

(** [loadFile >> n] for an [int]: white space is skipped, then a sign and
    digits are read.  [None] when there is no digit: the extraction fails,
    every later one fails as well, and the variables they were to fill are
    used without a value.  A number of any size is read as it is written
    (the fields are not bounded). *)
Definition readInt (s : list ascii) : option (Z * list ascii) :=
  let s1 := skipws s in
  let '(negative, s2) :=
    match s1 with
    | c :: t => if Ascii.eqb c "-" then (true, t)
                else if Ascii.eqb c "+" then (false, t)
                else (false, s1)
    | [] => (false, s1)
    end in
  match readDigits s2 with
  | (Decimal.Nil, _) => None
  | (d, r) => Some (if (negative : bool) then - Z.of_uint d else Z.of_uint d, r)
  end.

(** [loadFile >> b] for a [bool]: an integer that has to be 0 or 1. *)
Definition readBool (s : list ascii) : option (bool * list ascii) :=
  '(v, r) ← readInt s;
  if v =? 0 then Some (false, r)
  else if v =? 1 then Some (true, r)
  else None.

(** [getline(loadFile, line)]: the characters up to the next newline, which
    is read and dropped; at the end of the file the line is empty. *)
Fixpoint getline (s : list ascii) : list ascii * list ascii :=
  match s with
  | [] => ([], [])
  | c :: s' =>
      if Ascii.eqb c NL then ([], s')
      else let '(line, r) := getline s' in (c :: line, r)
  end.

(** [line[j]]: the character, the null character at [j = line.size()], and
    undefined beyond. *)
Definition charAt (line : list ascii) (j : nat) : option ascii :=
  match line !! j with
  | Some c => Some c
  | None => if decide (j = length line) then Some "000"%char else None
  end.

(** The switch over the symbol; the cell was set to [nullptr] before. *)
Definition cellOfSymbol (symbol : ascii) : Cell :=
  if Ascii.eqb symbol INDESTRUCTIBLE_BLOCK then Some IndestructibleBlock
  else if Ascii.eqb symbol DESTRUCTIBLE_BLOCK then Some (DestructibleBlock false)
  else if Ascii.eqb symbol TRAP then Some Trap
  else if Ascii.eqb symbol EXIT_DOOR then Some ExitDoorRef
  else None.

Definition loadRow (line : list ascii) : option (list Cell) :=
  mapM (λ j, cellOfSymbol <$> charAt line j) (seq 0 (Z.to_nat WIDTH)).

Fixpoint loadRows (n : nat) (s : list ascii) : option Grid :=
  match n with
  | O => Some []
  | S n' =>
      let '(line, s') := getline s in
      row ← loadRow line;
      g ← loadRows n' s';
      Some (row :: g)
  end.

Fixpoint readEnemies (n : nat) (s : list ascii) : option (list Enemy * list ascii) :=
  match n with
  | O => Some ([], s)
  | S n' =>
      '(x, s1) ← readInt s;
      '(y, s2) ← readInt s1;
      '(t, s3) ← readInt s2;
      r ← readEnemies n' s3;
      Some (mkEnemy x y t 0 :: r.1, r.2)
  end.

Fixpoint readBombs (now : Z) (n : nat) (s : list ascii) : option (list Bomb * list ascii) :=
  match n with
  | O => Some ([], s)
  | S n' =>
      '(x, s1) ← readInt s;
      '(y, s2) ← readInt s1;
      r ← readBombs now n' s2;
      Some (mkBomb x y now :: r.1, r.2)
  end.

(** [file] is the text of the save file, [None] when it cannot be opened.
    The result is the value returned and the world afterwards; [None] is
    undefined behaviour ([new] of an array of negative length included). *)
Definition loadGame (now : Z) (file : option (list ascii)) (w : Game)
  : option (bool * Game) :=
  match file with
  | None => Some (false, w)
  | Some s =>
      '(playerX, s) ← readInt s;
      '(playerY, s) ← readInt s;
      '(planted, s) ← readInt s;
      '(nEnemies, s) ← readInt s;
      if nEnemies <? 0 then None else
      '(es, s) ← readEnemies (Z.to_nat nEnemies) s;
      '(nBombs, s) ← readInt s;
      if nBombs <? 0 then None else
      '(bs, s) ← readBombs now (Z.to_nat nBombs) s;
      '(exitX, s) ← readInt s;
      '(exitY, s) ← readInt s;
      '(vis, s) ← readBool s;
      g ← loadRows (Z.to_nat HEIGHT) (tail s);
      g' ← (if negb vis
            then if inGridb exitX exitY
                 then Some (grid_write g exitY exitX (Some (DestructibleBlock true)))
                 else None
            else Some g);
      Some (true, mkGame g' (mkPlayer playerX playerY NUM_BOMBS) es bs
                    (mkExitDoor exitX exitY vis) planted)
  end.

(** ** Worlds reachable in play *)

(** A world is reachable when a new game has produced it, when a pass of
    the game loop leads to it from a reachable world without ending the
    game, or when it is loaded from the file that [saveGame] wrote for a
    reachable world (the process that loads has a world of its own, [w0],
    which the load replaces). *)
Inductive reachable : Game → Prop :=
| reach_new rnd fuel w k :
    initializeGame rnd fuel = Some (w, k) → reachable w
| reach_tick rnd k now key w w' k' :
    reachable w → tick rnd k now key w = Some (Running w' k') → reachable w'
| reach_load now w0 w w' :
    reachable w0 → reachable w →
    loadGame now (Some (saveGame w)) w0 = Some (true, w') → reachable w'.

(** Several passes of the game loop, with the clock reading and the key of
    each. *)
Fixpoint runTicks (rnd : nat → nat) (k : nat) (inputs : list (Z * Key)) (w : Game)
  : option Outcome :=
  match inputs with
  | [] => Some (Running w k)
  | (now, key) :: inputs' =>
      match tick rnd k now key w with
      | Some (Running w' k') => runTicks rnd k' inputs' w'
      | r => r
      end
  end.

(** ** Vocabulary of the properties *)

(** *** Cells and positions *)

Definition countCells (p : Cell → bool) (g : Grid) : nat :=
  length (List.filter p (concat g)).

(** The cell that is the exit door or hides it. *)
Definition isExitCell (c : Cell) : bool :=
  match c with
  | Some ExitDoorRef => true
  | Some (DestructibleBlock true) => true
  | _ => false
  end.

Definition isTrapCell (c : Cell) : bool :=
  match c with
  | Some Trap => true
  | _ => false
  end.

Definition isBorder (x y : Z) : Prop :=
  inGrid x y ∧ (x = 0 ∨ x = WIDTH - 1 ∨ y = 0 ∨ y = HEIGHT - 1).

Definition isInterior (x y : Z) : Prop :=
  0 < x < WIDTH - 1 ∧ 0 < y < HEIGHT - 1.

Definition inStartArea (x y : Z) : Prop := 1 ≤ x ≤ 3 ∧ 1 ≤ y ≤ 3.

(** The number of enemies that stand on a cell. *)
Definition enemiesOn (x y : Z) (es : list Enemy) : nat :=
  length (filter (enemyAt x y) es).

Global Instance grid_dims_dec (g : Grid) : Decision (grid_dims g).
Proof. unfold grid_dims. apply _. Defined.

(** *** The invariant *)

(** What holds of every reachable world. *)
Record WF (w : Game) : Prop := mkWF {
  wf_dims : grid_dims (grid w);
  wf_exit_interior : isInterior (d_x (exitDoor w)) (d_y (exitDoor w));
  wf_no_ref : ∀ x y, grid_read (grid w) y x ≠ Some (Some ExitDoorRef);
  wf_green : ∀ x y,
    grid_read (grid w) y x = Some (Some (DestructibleBlock true)) ↔
    (x = d_x (exitDoor w) ∧ y = d_y (exitDoor w) ∧ visible (exitDoor w) = false)
}.

(** *** Detonations *)

(** The cell at [i] steps from (bx, by_) in the direction (dx, dy). *)
Definition rayCell (bx by_ dx dy i : Z) : Z * Z := (bx + dx * i, by_ + dy * i).

(** The cells that the loop over [i] can visit in one direction. *)
Definition onRay (bx by_ dx dy : Z) (x y : Z) : Prop :=
  ∃ i, 1 ≤ i ≤ 3 ∧ (x, y) = rayCell bx by_ dx dy i.

Definition cardinal (dx dy : Z) : Prop :=
  (dx, dy) = (-1, 0) ∨ (dx, dy) = (0, -1) ∨ (dx, dy) = (0, 1) ∨ (dx, dy) = (1, 0).

(** The cell where the loop over [i] breaks: outside the grid or a block. *)
Definition stopsAt (g : Grid) (x y : Z) : bool :=
  negb (inGridb x y)
  || symbolIs (cellAt g y x) DESTRUCTIBLE_BLOCK
  || symbolIs (cellAt g y x) INDESTRUCTIBLE_BLOCK.

(** A cell that the detonation has not touched: the same occupant of the
    grid and the same number of enemies on it. *)
Definition unaffected (w w' : Game) (x y : Z) : Prop :=
  grid_read (grid w') y x = grid_read (grid w) y x ∧
  enemiesOn x y (enemies w') = enemiesOn x y (enemies w).

(** Between [w] and [w'] only the cells of [S] were touched, and nothing
    else of the world but the door becoming visible. *)
Definition touchedOnly (S : Z → Z → Prop) (w w' : Game) : Prop :=
  player w' = player w ∧ bombs w' = bombs w ∧ bombsPlanted w' = bombsPlanted w ∧
  d_x (exitDoor w') = d_x (exitDoor w) ∧ d_y (exitDoor w') = d_y (exitDoor w) ∧
  (visible (exitDoor w) = true → visible (exitDoor w') = true) ∧
  ∀ x y, ¬ S x y → unaffected w w' x y.

(** The cells that the loop over the steps visits, going by the grid at
    its start: those that no earlier step stops before. *)
Definition visited (g : Grid) (bx by_ dx dy : Z) (steps : list Z) (x y : Z) : Prop :=
  ∃ pre i post,
    steps = pre ++ i :: post ∧ (x, y) = rayCell bx by_ dx dy i ∧
    Forall (λ j, stopsAt g (bx + dx * j) (by_ + dy * j) = false) pre.

(** A detonation never changes a cell that holds no destructible block. *)
Definition keepsSolid (w w' : Game) : Prop :=
  ∀ x y c, grid_read (grid w) y x = Some c →
           symbolIs c DESTRUCTIBLE_BLOCK = false →
           grid_read (grid w') y x = Some c.

(** The player and every bomb are on cells of the grid that hold no
    block. *)
Definition footing (w : Game) : Prop :=
  stopsAt (grid w) (p_x (player w)) (p_y (player w)) = false ∧
  Forall (λ b, stopsAt (grid w) (b_x b) (b_y b) = false) (bombs w).

(** A bomb that is not due yet at the clock reading [now]. *)
Definition notDue (now : Z) (b : Bomb) : Prop := shouldExplode now b = false.

Global Instance notDue_dec now b : Decision (notDue now b).
Proof. unfold notDue. apply _. Defined.

(** *** Enemies *)


(** *** The save file *)

(** The input does not go on with a digit. *)
Definition noDigitHead (s : list ascii) : Prop :=
  match s with
  | [] => True
  | c :: _ => digitOf c = None
  end.

(** What [loadGame] makes of a cell that [saveGame] wrote, before it puts
    the green block back: the flag [isGreen] is not in the file. *)
Definition degreen (c : Cell) : Cell :=
  match c with
  | Some (DestructibleBlock _) => Some (DestructibleBlock false)
  | _ => c
  end.

(** An enemy and a bomb as [loadGame] constructs them. *)
Definition reloadedEnemy (e : Enemy) : Enemy := mkEnemy (e_x e) (e_y e) (moveType e) 0.
Definition reloadedBomb (now : Z) (b : Bomb) : Bomb := mkBomb (b_x b) (b_y b) now.

(** The reading of the round trip under which the fuse age is all that a
    save and a load lose: every other part of the world comes back as it
    was. *)
Definition onlyFuseAgeLost (w w' : Game) : Prop :=
  grid w' = grid w ∧ player w' = player w ∧ enemies w' = enemies w ∧
  exitDoor w' = exitDoor w ∧ bombsPlanted w' = bombsPlanted w ∧
  Forall2 (λ b b', b_x b' = b_x b ∧ b_y b' = b_y b) (bombs w) (bombs w').

(** *** The new game *)

(** A cell as the loops that add the blocks leave it. *)
Definition blockOrNull (c : Cell) : Prop :=
  c = None ∨ c = Some IndestructibleBlock ∨ c = Some (DestructibleBlock false).

(** What the steps of [initializeGame] keep true of the grid: its size,
    the wall around it, and no cell for the door yet. *)
Definition walled (g : Grid) : Prop :=
  grid_dims g ∧
  (∀ x y, isBorder x y → grid_read g y x = Some (Some IndestructibleBlock)) ∧
  (∀ x y c, grid_read g y x = Some c → isExitCell c = false).

(** ** A game played out *)

(** A random stream that leaves the interior free of blocks (3248 draws of
    1), puts the first trap on (2,1) and the others on row 10, the nine
    enemies on row 20 and the exit on (1,2); all later draws are 0. *)
Definition demoDraws : list nat :=
  [1; 0; 9; 9; 10; 9; 11; 9; 12; 9; 13; 9; 14; 9; 15; 9; 16; 9;
   39; 19; 40; 19; 41; 19; 42; 19; 43; 19; 44; 19; 45; 19; 46; 19; 47; 19;
   0; 1]%nat.

Definition demoRnd (k : nat) : nat :=
  if (k <? 3248)%nat then 1%nat else nth (k - 3248) demoDraws 0%nat.

Definition MS : Z := NANOS_PER_MS.

(** Plant a bomb on (1,1), step right and down to (2,2), then wait: one
    pass every 50 ms, the last one 3000 ms after the bomb was planted. *)
Definition demoInputs : list (Z * Key) :=
  zip (map (λ n, 50 * MS * n) (seqZ 0 61))
      ([KeySpace; KeyRight; KeyDown] ++ replicate 58 KeyNone).

Definition noGame : Game :=
  mkGame [] (mkPlayer 0 0 0) [] [] (mkExitDoor 0 0 false) 0.

Definition afterTicks (inputs : list (Z * Key)) (s : Game * nat) : Game * nat :=
  match runTicks demoRnd s.2 inputs s.1 with
  | Some (Running w k) => (w, k)
  | _ => (noGame, O)
  end.

Definition afterLoad (now : Z) (file : list ascii) (s : Game * nat) : Game * nat :=
  match loadGame now (Some file) s.1 with
  | Some (_, w) => (w, s.2)
  | None => (noGame, O)
  end.

(** The new game. *)
Definition demoStart : Game * nat := default (noGame, O) (initializeGame demoRnd 1).

(** One pass without a key: every enemy has counted one update. *)
Definition demoWaited : Game * nat := afterTicks [(0, KeyNone)] demoStart.

(** One pass with the space key: a bomb lies on (1,1). *)
Definition demoPlanted : Game * nat := afterTicks [(0, KeySpace)] demoStart.

(** The game saved with that bomb, loaded by a new process 50 ms later,
    and one pass of the loop after it. *)
Definition demoReloaded : Game * nat :=
  afterTicks [(100 * MS, KeyNone)]
    (afterLoad (50 * MS) (saveGame demoPlanted.1) demoStart).

(** The game played to the detonation that uncovers the door. *)
Definition demoEnd : Game * nat := afterTicks demoInputs demoStart.

(** The save file of the new game without its last two characters. *)
Definition demoTruncated : list ascii :=
  take (length (saveGame demoStart.1) - 2) (saveGame demoStart.1).

(** The pass before the last one, the bomb that is about to detonate, and
    the world that its detonation leaves. *)
Definition demoBefore : Game * nat := afterTicks (take 60 demoInputs) demoStart.

Definition demoBomb : Bomb := mkBomb 1 1 0.

Definition demoBlast : Game :=
  match explodeBomb demoBomb demoBefore.1 with
  | Survived w => w
  | BlownUp => noGame
  end.


(** ** Vocabulary of the properties of play *)

(** *** What a pass of the loop can change *)

(** The wall around the grid. *)
Definition walls (g : Grid) : Prop :=
  ∀ x y, isBorder x y → grid_read g y x = Some (Some IndestructibleBlock).

(** Between [g] and [g'] a cell is as it was, or it held a destructible
    block and is empty now. *)
Definition erodes (g g' : Grid) : Prop :=
  ∀ x y,
    grid_read g' y x = grid_read g y x ∨
    (symbolIs (cellAt g y x) DESTRUCTIBLE_BLOCK = true ∧ grid_read g' y x = Some None).

(** *** Where everything stands *)

(** An interior cell that holds nothing. *)
Definition emptyAt (g : Grid) (x y : Z) : Prop :=
  isInterior x y ∧ grid_read g y x = Some None.

(** An enemy as play leaves it: inside the wall, its counter and pattern
    in range, and on a cell that is empty, a trap or the block that hides
    the door (which [initializeGame] can put on an enemy). *)
Definition enemyFits (g : Grid) (e : Enemy) : Prop :=
  isInterior (e_x e) (e_y e) ∧ 0 ≤ moveStep e ≤ 10 ∧ 0 ≤ moveType e ≤ 2 ∧
  (grid_read g (e_y e) (e_x e) = Some None ∨
   grid_read g (e_y e) (e_x e) = Some (Some Trap) ∨
   grid_read g (e_y e) (e_x e) = Some (Some (DestructibleBlock true))).

Record placed (w : Game) : Prop := mkPlaced {
  pl_walls : walls (grid w);
  pl_player : emptyAt (grid w) (p_x (player w)) (p_y (player w));
  pl_bombs : Forall (λ b, emptyAt (grid w) (b_x b) (b_y b)) (bombs w);
  pl_enemies : Forall (enemyFits (grid w)) (enemies w)
}.

(** The bounds of the bomb counters. *)
Definition stocked (w : Game) : Prop :=
  0 ≤ hasBombs (player w) ∧
  bombCount w ≤ NUM_BOMBS ∧
  NUM_BOMBS ≤ hasBombs (player w) + bombCount w ≤ 2 * NUM_BOMBS ∧
  bombCount w ≤ bombsPlanted w.

(** The step that a key of [playGame] asks of the player. *)
Definition keyStep (key : Key) (dx dy : Z) : Prop :=
  (key, dx, dy) = (KeyUp, 0, -1) ∨ (key, dx, dy) = (KeyDown, 0, 1) ∨
  (key, dx, dy) = (KeyLeft, -1, 0) ∨ (key, dx, dy) = (KeyRight, 1, 0).

(** What a detonation leaves of the world: the grid erodes, enemies are
    only taken away, and the door stays where it is. *)
Definition blastFrame (w w' : Game) : Prop :=
  erodes (grid w) (grid w') ∧ enemies w' ⊆+ enemies w ∧
  d_x (exitDoor w') = d_x (exitDoor w) ∧ d_y (exitDoor w') = d_y (exitDoor w) ∧
  (visible (exitDoor w) = true → visible (exitDoor w') = true) ∧
  p_x (player w') = p_x (player w) ∧ p_y (player w') = p_y (player w) ∧
  bombsPlanted w' = bombsPlanted w.

(** How one pass of the loop over the enemies moves an enemy: the pattern
    stays; no more than one cell each way; a horizontal enemy keeps its
    row, a vertical one its column, and one that moves both ways the sum
    of its coordinates. *)
Definition enemyStep (e e' : Enemy) : Prop :=
  moveType e' = moveType e ∧
  -1 ≤ e_x e' - e_x e ≤ 1 ∧ -1 ≤ e_y e' - e_y e ≤ 1 ∧
  (moveType e = 0 → e_y e' = e_y e) ∧
  (moveType e = 1 → e_x e' = e_x e) ∧
  (moveType e = 2 → e_x e' + e_y e' = e_x e + e_y e).

(** The counter of an enemy after one pass. *)
Definition nextStep (e : Enemy) : Z :=
  if moveStep e =? 10 then 0 else moveStep e + 1.

(** The switch over the key in [playGame]. *)
Definition keyAction (now : Z) (key : Key) (w : Game) : option Game :=
  match key with
  | KeyUp => movePlayer 0 (-1) w
  | KeyDown => movePlayer 0 1 w
  | KeyLeft => movePlayer (-1) 0 w
  | KeyRight => movePlayer 1 0 w
  | KeySpace => Some (plantBomb now w)
  | KeySave => Some w
  | KeyNone => Some w
  end.

(** The world when [update] is called: the player may have stepped on a
    trap. *)
Definition afterKey (w w1 : Game) : Prop :=
  grid w1 = grid w ∧ enemies w1 = enemies w ∧ exitDoor w1 = exitDoor w ∧
  isInterior (p_x (player w1)) (p_y (player w1)) ∧
  (grid_read (grid w) (p_y (player w1)) (p_x (player w1)) = Some None ∨
   grid_read (grid w) (p_y (player w1)) (p_x (player w1)) = Some (Some Trap)) ∧
  Forall (λ b, emptyAt (grid w) (b_x b) (b_y b)) (bombs w1).

(** *** The array [bombs] *)

(** [plantBomb] with the number of slots of the array that [bombs] points
    to, which the embedding of the world leaves out: the assignment
    [bombs[bombCount++] = new Bomb(...)] at an index that is not below it
    writes beyond the array and is undefined. *)
Definition plantBombIn (slots : Z) (now : Z) (w : Game) : option Game :=
  if canPlantBomb (player w) then
    if bombCount w >=? NUM_BOMBS then Some w
    else if bombCount w <? slots then Some (plantBomb now w)
    else None
  else Some w.

(** [bombs = new Bomb*[NUM_BOMBS]] in [initializeGame], and
    [bombs = new Bomb*[bombCount]] in [loadGame], for the world loaded;
    nothing else allocates the array. *)
Definition slotsOfNewGame : Z := NUM_BOMBS.
Definition slotsOfLoad (w : Game) : Z := bombCount w.

(** *** The reach of a detonation *)

(** The cell (x, y) is one that the loop over [i] reaches in the direction
    (dx, dy): at most three steps from the bomb, with no stop at any step
    up to it, the cell itself included. *)
Definition inFire (g : Grid) (bx by_ dx dy : Z) (x y : Z) : Prop :=
  ∃ i, 1 ≤ i ≤ 3 ∧ (x, y) = rayCell bx by_ dx dy i ∧
       ∀ j, 1 ≤ j ≤ i → stopsAt g (bx + dx * j) (by_ + dy * j) = false.

(** The cells of the cross of a bomb: its row and its column, up to three
    cells away. *)
Definition onCross (bx by_ x y : Z) : Prop :=
  (x = bx ∧ -3 ≤ y - by_ ≤ 3) ∨ (y = by_ ∧ -3 ≤ x - bx ≤ 3).

(** ** Game::display *)

(** A character of the screen and whether it is drawn with the colour
    pair 1 (green on black). *)
Record Glyph : Type := mkGlyph { glyphChar : ascii; glyphGreen : bool }.

(** The window [stdscr], by row and column. *)
Definition Screen : Type := Z → Z → Glyph.

(** [clear()] *)
Definition clear : Screen := λ _ _, mkGlyph SP false.

Definition inWindow (lines cols : Z) (y x : Z) : bool :=
  (0 <=? y) && (y <? lines) && (0 <=? x) && (x <? cols).

(** [mvaddch(y, x, ch)] on a window of [lines] rows and [cols] columns:
    outside the window the move fails and nothing is drawn. *)
Definition mvaddch (lines cols : Z) (y x : Z) (gl : Glyph) (scr : Screen) : Screen :=
  if inWindow lines cols y x
  then λ y' x', if (y' =? y) && (x' =? x) then gl else scr y' x'
  else scr.

(** The characters of a string from the cursor on: at the right margin
    the cursor goes to the start of the next row, and at the end of the
    last row the output stops. *)
Fixpoint addstr (lines cols : Z) (y x : Z) (s : list ascii) (scr : Screen) : Screen :=
  match s with
  | [] => scr
  | c :: s' =>
      let scr' := mvaddch lines cols y x (mkGlyph c false) scr in
      if x + 1 <? cols then addstr lines cols y (x + 1) s' scr'
      else if y + 1 <? lines then addstr lines cols (y + 1) 0 s' scr'
      else scr'
  end.

(** [mvprintw(y, x, ...)] with the text that the format gives: nothing is
    printed when the move fails. *)
Definition mvprintw (lines cols : Z) (y x : Z) (s : list ascii) (scr : Screen) : Screen :=
  if inWindow lines cols y x then addstr lines cols y x s scr else scr.

(** What the two loops over the grid draw for a cell: the symbol of the
    entity, in green for a green block, and a space for [nullptr]. *)
Definition glyphOf (c : Cell) : Glyph :=
  match c with
  | Some (DestructibleBlock true) => mkGlyph DESTRUCTIBLE_BLOCK true
  | Some e => mkGlyph (getSymbol e) false
  | None => mkGlyph SP false
  end.

Definition drawGrid (lines cols : Z) (g : Grid) (scr : Screen) : Screen :=
  foldl (λ scr i,
           foldl (λ scr j, mvaddch lines cols i j (glyphOf (cellAt g i j)) scr)
             scr (seqZ 0 WIDTH))
    scr (seqZ 0 HEIGHT).

Definition statusLine (w : Game) : list ascii :=
  list_ascii_of_string "Bombs planted: " ++ showInt (bombsPlanted w).

(** The screen after [display()], on a window of [lines] rows and [cols]
    columns. *)
Definition display (lines cols : Z) (w : Game) : Screen :=
  let s1 := drawGrid lines cols (grid w) clear in
  let s2 := mvaddch lines cols (p_y (player w)) (p_x (player w)) (mkGlyph PLAYER false) s1 in
  let s3 := foldl (λ scr e, mvaddch lines cols (e_y e) (e_x e) (mkGlyph ENEMY false) scr)
              s2 (enemies w) in
  let s4 := foldl (λ scr b, mvaddch lines cols (b_y b) (b_x b) (mkGlyph BOMB false) scr)
              s3 (bombs w) in
  let s5 := if visible (exitDoor w)
            then mvaddch lines cols (d_y (exitDoor w)) (d_x (exitDoor w))
                   (mkGlyph EXIT_DOOR false) s4
            else s4 in
  mvprintw lines cols HEIGHT 0 (statusLine w) s5.

(** What lies on a cell, for the screen. *)
Definition playerOn (x y : Z) (w : Game) : bool :=
  (p_x (player w) =? x) && (p_y (player w) =? y).
Definition enemyOn (x y : Z) (w : Game) : bool :=
  existsb (λ e, (e_x e =? x) && (e_y e =? y)) (enemies w).
Definition bombOn (x y : Z) (w : Game) : bool :=
  existsb (λ b, (b_x b =? x) && (b_y b =? y)) (bombs w).
Definition doorShownOn (x y : Z) (w : Game) : bool :=
  visible (exitDoor w) && (d_x (exitDoor w) =? x) && (d_y (exitDoor w) =? y).

(** ** Game::run *)

(** How the loop of the menu ends: [playGame()] is entered, which never
    returns; the process exits; or [getch()] waits for a key that does
    not come. *)
Inductive Menu : Type :=
| MenuPlay (w : Game)
| MenuExit
| MenuWaits (w : Game).

(** [keys] are the values that the calls of [getch()] return, [file] the
    save file as for [loadGame], and [w] the world that the constructor
    has made.  After a load that fails a message is shown and one more
    key is read. *)
Fixpoint run (now : Z) (file : option (list ascii)) (keys : list Z) (w : Game)
  : option Menu :=
  match keys with
  | [] => Some (MenuWaits w)
  | ch :: keys' =>
      let choice := ch - 48 in
      if choice =? 1 then Some (MenuPlay w)
      else if choice =? 2 then
        r ← loadGame now file w;
        if (r.1 : bool) then Some (MenuPlay r.2)
        else match keys' with
             | [] => Some (MenuWaits r.2)
             | _ :: keys'' => run now file keys'' r.2
             end
      else if choice =? 3 then Some MenuExit
      else run now file keys' w
  end.

(** ** Tactics for the game played out *)

(** A closed equation between values that compute, and a closed decidable
    proposition. *)
Ltac by_computation := vm_compute; reflexivity.
Ltac by_decision := apply (bool_decide_unpack _); vm_compute; exact I.
(** * Properties *)

(** ** The grid *)

Lemma grid_read_Some g y x c :
  grid_read g y x = Some c ↔
  0 ≤ y ∧ 0 ≤ x ∧ ∃ row, g !! Z.to_nat y = Some row ∧ row !! Z.to_nat x = Some c.
Proof.
  unfold grid_read. split.
  - destruct (0 <=? y) eqn:Hy; destruct (0 <=? x) eqn:Hx; simpl; try discriminate.
    intros H. apply bind_Some in H as (row & Hr & Hc).
    repeat split; [lia | lia | eauto].
  - intros (Hy & Hx & row & Hr & Hc).
    rewrite (proj2 (Z.leb_le 0 y) Hy), (proj2 (Z.leb_le 0 x) Hx). simpl.
    rewrite Hr. simpl. exact Hc.
Qed.

Lemma grid_dims_read g x y :
  grid_dims g → inGrid x y → ∃ c, grid_read g y x = Some c.
Proof.
  intros [Hlen Hrows] [Hx Hy]. unfold WIDTH, HEIGHT in *.
  destruct (lookup_lt_is_Some_2 g (Z.to_nat y)) as [row Hrow]; [lia|].
  assert (Hl : length row = Z.to_nat 60).
  { eapply Forall_lookup_1 in Hrows; eauto. }
  destruct (lookup_lt_is_Some_2 row (Z.to_nat x)) as [c Hc]; [lia|].
  exists c. apply grid_read_Some. repeat split; [lia | lia | eauto].
Qed.

Lemma grid_dims_read_inv g x y c :
  grid_dims g → grid_read g y x = Some c → inGrid x y.
Proof.
  intros [Hlen Hrows] H. apply grid_read_Some in H as (Hy & Hx & row & Hr & Hc).
  assert (Hl : length row = Z.to_nat WIDTH).
  { eapply Forall_lookup_1 in Hrows; eauto. }
  apply lookup_lt_Some in Hr, Hc. unfold inGrid, WIDTH, HEIGHT in *. lia.
Qed.

Lemma grid_read_outside g x y :
  grid_dims g → ¬ inGrid x y → grid_read g y x = None.
Proof.
  intros Hd Hout. destruct (grid_read g y x) eqn:E; [|done].
  exfalso. eauto using grid_dims_read_inv.
Qed.

Lemma grid_dims_write g y x c : grid_dims g → grid_dims (grid_write g y x c).
Proof.
  intros [Hlen Hrows]. unfold grid_write.
  destruct ((0 <=? y) && (0 <=? x)); [|done]. split.
  - by rewrite length_alter.
  - apply Forall_alter; [done|]. intros row _ Hrow. by rewrite length_insert.
Qed.

Lemma grid_read_write_ne g y x c y' x' :
  (x', y') ≠ (x, y) →
  grid_read (grid_write g y x c) y' x' = grid_read g y' x'.
Proof.
  intros Hne. unfold grid_read, grid_write.
  destruct (0 <=? y) eqn:Hy; destruct (0 <=? x) eqn:Hx; simpl; try done.
  destruct (0 <=? y') eqn:Hy'; destruct (0 <=? x') eqn:Hx'; simpl; try done.
  apply Z.leb_le in Hy, Hx, Hy', Hx'.
  destruct (decide (Z.to_nat y = Z.to_nat y')) as [Heq|Hney].
  - rewrite <- Heq, list_lookup_alter_eq.
    destruct (g !! Z.to_nat y) as [row|]; simpl; [|done].
    rewrite list_lookup_insert_ne; [done|].
    intros Heqx. apply Hne. f_equal; lia.
  - by rewrite list_lookup_alter_ne.
Qed.

Lemma grid_read_write_eq g y x c c0 :
  grid_read g y x = Some c0 → grid_read (grid_write g y x c) y x = Some c.
Proof.
  intros H. apply grid_read_Some in H as (Hy & Hx & row & Hr & Hc).
  unfold grid_write.
  rewrite (proj2 (Z.leb_le 0 y) Hy), (proj2 (Z.leb_le 0 x) Hx). simpl.
  apply grid_read_Some. repeat split; [done..|].
  exists (<[Z.to_nat x := c]> row). split.
  - by rewrite list_lookup_alter_eq, Hr.
  - apply list_lookup_insert_eq. by eapply lookup_lt_Some.
Qed.

Lemma cellAt_write_ne g y x c y' x' :
  (x', y') ≠ (x, y) → cellAt (grid_write g y x c) y' x' = cellAt g y' x'.
Proof. intros. unfold cellAt. by rewrite grid_read_write_ne. Qed.

Lemma cellAt_read g y x c : grid_read g y x = Some c → cellAt g y x = c.
Proof. unfold cellAt. by intros ->. Qed.

Lemma cellAt_Some g y x e : cellAt g y x = Some e → grid_read g y x = Some (Some e).
Proof. unfold cellAt. destruct (grid_read g y x); simpl; [by intros ->|done]. Qed.

(** Whatever the cell was, after [nullptr] is written it reads as null. *)
Lemma cellAt_write_None g y x : cellAt (grid_write g y x None) y x = None.
Proof.
  unfold cellAt. destruct (grid_read g y x) as [c0|] eqn:E.
  - by erewrite grid_read_write_eq.
  - destruct (grid_read (grid_write g y x None) y x) as [c|] eqn:E'; [|done].
    exfalso. unfold grid_write in E'.
    destruct ((0 <=? y) && (0 <=? x)) eqn:Hb; [|congruence].
    apply grid_read_Some in E' as (Hy & Hx & row & Hr & Hc).
    rewrite list_lookup_alter_eq in Hr.
    destruct (g !! Z.to_nat y) as [row0|] eqn:Hr0; simpl in Hr; [|done].
    injection Hr as <-.
    assert (is_Some (row0 !! Z.to_nat x)) as [c1 Hc1].
    { apply lookup_lt_is_Some. apply lookup_lt_Some in Hc.
      by rewrite length_insert in Hc. }
    assert (grid_read g y x = Some c1); [|congruence].
    apply grid_read_Some. eauto 6.
Qed.

(** ** isValidMove *)

(** Inside the grid the expression is defined, except on a border cell
    that holds [nullptr]. *)
Lemma isValidMove_interior g x y c :
  isInterior x y → grid_read g y x = Some c →
  isValidMove g x y = Some (isNull c || symbolIs c TRAP).
Proof.
  intros [Hx Hy] Hc. unfold isValidMove.
  replace ((0 <? x) && (x <? WIDTH - 1) && (0 <? y) && (y <? HEIGHT - 1)) with true by lia.
  rewrite Hc. simpl. destruct c as [e|]; simpl; [|done].
  by destruct e.
Qed.

Lemma isValidMove_border g x y e :
  ¬ isInterior x y → grid_read g y x = Some (Some e) →
  isValidMove g x y = Some (symbolIs (Some e) TRAP).
Proof.
  intros Hni Hc. unfold isValidMove.
  destruct ((0 <? x) && (x <? WIDTH - 1) && (0 <? y) && (y <? HEIGHT - 1)) eqn:Hb.
  - exfalso. apply Hni. unfold isInterior. lia.
  - simpl. rewrite Hc. simpl. done.
Qed.

(** C1: outside the grid the right operand of [||] reads [grid[y][x]]
    beyond the arrays: the call has no defined result, where the
    specification of [isValidMove] asks for [false] without such a read. *)
Theorem isValidMove_outside_grid_undefined g x y :
  grid_dims g → ¬ inGrid x y → isValidMove g x y = None.
Proof.
  intros Hd Hout. unfold isValidMove.
  destruct ((0 <? x) && (x <? WIDTH - 1) && (0 <? y) && (y <? HEIGHT - 1)) eqn:Hb.
  - exfalso. apply Hout. unfold inGrid, WIDTH, HEIGHT in *. lia.
  - simpl. by rewrite grid_read_outside.
Qed.

(** ** Bomb::shouldExplode *)

Lemma shouldExplode_true_iff now b :
  shouldExplode now b = true ↔ 3000 * NANOS_PER_MS ≤ now - plantTime b.
Proof.
  unfold shouldExplode, NANOS_PER_SECOND, NANOS_PER_MS.
  set (a := now - plantTime b). rewrite Z.leb_le.
  destruct (Z.le_gt_cases 0 a) as [Hnn|Hneg].
  - rewrite Z.quot_div_nonneg by lia. split; intros H.
    + pose proof (Z.mul_div_le a 1000000000 ltac:(lia)). lia.
    + apply Z.div_le_lower_bound; lia.
  - split; intros H; [|lia].
    pose proof (Z.quot_opp_l a 1000000000 ltac:(lia)).
    assert (0 ≤ Z.quot (- a) 1000000000) by (apply Z.quot_pos; lia). lia.
Qed.

(** ** Enemy::update *)

Lemma rand_rem_4 rnd k : 0 ≤ Z.rem (rand rnd k) 4 ≤ 3.
Proof.
  unfold rand. pose proof (Z.rem_bound_pos (Z.of_nat (rnd k)) 4). lia.
Qed.

Lemma Enemy_update_wait rnd k e :
  moveStep e ≠ 10 →
  Enemy_update rnd k e = (mkEnemy (e_x e) (e_y e) (moveType e) (moveStep e + 1), k).
Proof.
  intros H. unfold Enemy_update.
  destruct (moveStep e =? 10) eqn:E; [apply Z.eqb_eq in E; done | done].
Qed.


Lemma stepX_cases r : 0 ≤ r ≤ 3 → stepX r = if r <=? 1 then 1 else -1.
Proof.
  intros H. unfold stepX.
  assert (r = 0 ∨ r = 1 ∨ r = 2 ∨ r = 3) as [-> | [-> | [-> | ->]]] by lia; done.
Qed.

Lemma stepY_cases r : 0 ≤ r ≤ 3 → stepY r = if r <=? 1 then -1 else 1.
Proof.
  intros H. unfold stepY.
  assert (r = 0 ∨ r = 1 ∨ r = 2 ∨ r = 3) as [-> | [-> | [-> | ->]]] by lia; done.
Qed.



Lemma moveEnemies_positions rnd k g es es' k' :
  moveEnemies rnd k g es = Some (es', k') →
  Forall2 (λ a a', moveStep a ≠ 10 → e_x a' = e_x a ∧ e_y a' = e_y a) es es'.
Proof.
  revert k es' k'. induction es as [|e es IH]; intros k es' k' H; simpl in H.
  - injection H as <- <-. constructor.
  - destruct (Enemy_update rnd k e) as [e1 k1] eqn:E1.
    apply bind_Some in H as (ok & Hok & H).
    apply bind_Some in H as ([r kr] & Hr & H). injection H as <- <-.
    constructor; [|eauto].
    intros Hstep. rewrite Enemy_update_wait in E1 by done. injection E1 as <- <-.
    destruct ok; simpl; lia.
Qed.


(** ** Removal by swapping with the last element *)

Lemma swapRemove_split {A} (l1 l2 : list A) (x : A) :
  ∃ l2', swapRemove (length l1) (l1 ++ x :: l2) = l1 ++ l2' ∧ l2' ≡ₚ l2.
Proof.
  unfold swapRemove. destruct (list.last (l1 ++ x :: l2)) as [z|] eqn:Hlast.
  - rewrite last_app_cons in Hlast.
    destruct (decide (l2 = [])) as [->|Hne].
    + exists []. split; [|done]. simpl in Hlast. injection Hlast as <-.
      rewrite insert_app_r_alt by lia. rewrite Nat.sub_diag. simpl.
      rewrite length_app. simpl.
      replace (length l1 + 1 - 1)%nat with (length l1) by lia.
      by rewrite take_app_length, app_nil_r.
    + assert (list.last l2 = Some z) as Hl2.
      { destruct l2; [done|]. exact Hlast. }
      apply last_Some in Hl2 as [l2' ->].
      exists (z :: l2'). split.
      * rewrite insert_app_r_alt by lia. rewrite Nat.sub_diag. simpl.
        rewrite length_app. simpl. rewrite length_app. simpl.
        replace (length l1 + S (length l2' + 1) - 1)%nat
          with (length l1 + S (length l2'))%nat by lia.
        rewrite take_app_add. simpl. by rewrite take_app_length.
      * apply Permutation_cons_append.
  - exfalso. rewrite last_app_cons in Hlast. by apply last_None in Hlast.
Qed.

Lemma swapRemove_lookup {A} (l : list A) (j : nat) (x : A) :
  l !! j = Some x →
  ∃ l1 l2 l2', l = l1 ++ x :: l2 ∧ length l1 = j ∧
               swapRemove j l = l1 ++ l2' ∧ l2' ≡ₚ l2.
Proof.
  intros H. exists (take j l), (drop (S j) l).
  assert (Hlen : length (take j l) = j).
  { rewrite length_take. apply lookup_lt_Some in H. lia. }
  destruct (swapRemove_split (take j l) (drop (S j) l) x) as (l2' & Heq & Hp).
  rewrite take_drop_middle, Hlen in Heq by done.
  exists l2'. by rewrite take_drop_middle.
Qed.

Lemma swapRemove_length {A} (l : list A) (j : nat) (x : A) :
  l !! j = Some x → S (length (swapRemove j l)) = length l.
Proof.
  intros H. destruct (swapRemove_lookup l j x H) as (l1 & l2 & l2' & -> & _ & -> & Hp).
  rewrite !length_app. simpl. rewrite Hp. lia.
Qed.

(** ** The enemy deleted on a scanned cell *)

Lemma enemiesOn_app x y es1 es2 :
  enemiesOn x y (es1 ++ es2) = (enemiesOn x y es1 + enemiesOn x y es2)%nat.
Proof. unfold enemiesOn. by rewrite list.filter_app, length_app. Qed.

Lemma enemiesOn_perm x y es1 es2 : es1 ≡ₚ es2 → enemiesOn x y es1 = enemiesOn x y es2.
Proof. intros H. unfold enemiesOn. by rewrite H. Qed.

Lemma enemiesOn_cons x y e es :
  enemiesOn x y (e :: es) =
  ((if decide (enemyAt x y e) then 1 else 0) + enemiesOn x y es)%nat.
Proof. unfold enemiesOn. rewrite filter_cons. by destruct (decide (enemyAt x y e)). Qed.

Lemma enemiesOn_zero x y es :
  list_find (enemyAt x y) es = None → enemiesOn x y es = O.
Proof.
  intros H. apply list_find_None in H. unfold enemiesOn.
  induction H as [|e es He _ IH]; [done|].
  rewrite filter_cons. by destruct (decide (enemyAt x y e)).
Qed.

Lemma enemiesOn_eliminate_here x y es :
  enemiesOn x y (eliminateEnemy x y es) = pred (enemiesOn x y es).
Proof.
  unfold eliminateEnemy.
  destruct (list_find (enemyAt x y) es) as [[j e]|] eqn:Hfind.
  - apply list_find_Some in Hfind as (Hj & He & _).
    destruct (swapRemove_lookup es j e Hj) as (l1 & l2 & l2' & -> & _ & -> & Hp).
    rewrite !enemiesOn_app, enemiesOn_cons, (enemiesOn_perm _ _ _ _ Hp).
    destruct (decide (enemyAt x y e)); [lia | done].
  - by rewrite enemiesOn_zero.
Qed.

Lemma enemiesOn_eliminate_other x y x' y' es :
  (x', y') ≠ (x, y) →
  enemiesOn x' y' (eliminateEnemy x y es) = enemiesOn x' y' es.
Proof.
  intros Hne. unfold eliminateEnemy.
  destruct (list_find (enemyAt x y) es) as [[j e]|] eqn:Hfind; [|done].
  apply list_find_Some in Hfind as (Hj & [Hx Hy] & _).
  destruct (swapRemove_lookup es j e Hj) as (l1 & l2 & l2' & -> & _ & -> & Hp).
  rewrite !enemiesOn_app, enemiesOn_cons, (enemiesOn_perm _ _ _ _ Hp).
  destruct (decide (enemyAt x' y' e)) as [[Hx' Hy']|]; [|done].
  exfalso. apply Hne. congruence.
Qed.

(** ** What one detonation touches *)

Lemma touchedOnly_refl S w : touchedOnly S w w.
Proof. unfold touchedOnly, unaffected. naive_solver. Qed.

Lemma touchedOnly_trans (S1 S2 S : Z → Z → Prop) w1 w2 w3 :
  (∀ x y, S1 x y → S x y) → (∀ x y, S2 x y → S x y) →
  touchedOnly S1 w1 w2 → touchedOnly S2 w2 w3 → touchedOnly S w1 w3.
Proof.
  intros H1 H2 (Hp & Hb & Hn & Hx & Hy & Hv & Hc) (Hp' & Hb' & Hn' & Hx' & Hy' & Hv' & Hc').
  unfold touchedOnly. repeat split; try congruence; [naive_solver|..].
  - destruct (Hc x y), (Hc' x y); naive_solver congruence.
  - destruct (Hc x y), (Hc' x y); naive_solver congruence.
Qed.

Lemma touchedOnly_weaken (S1 S : Z → Z → Prop) w1 w2 :
  (∀ x y, S1 x y → S x y) → touchedOnly S1 w1 w2 → touchedOnly S w1 w2.
Proof.
  intros H ?. eapply (touchedOnly_trans S1 (λ _ _, False)); eauto using touchedOnly_refl.
  done.
Qed.

(** The test of the bounds at the head of the loop body. *)
Lemma blast_bounds x y :
  (x <? 0) || (x >=? WIDTH) || (y <? 0) || (y >=? HEIGHT) = negb (inGridb x y).
Proof. unfold inGridb. lia. Qed.

Lemma inGridb_spec x y : inGridb x y = true ↔ inGrid x y.
Proof. unfold inGridb, inGrid. lia. Qed.

(** The three results of [blastCell]. *)
Lemma blastCell_break x y w w' :
  blastCell x y w = BlastBreak w' →
  stopsAt (grid w) x y = true ∧
  touchedOnly (λ x' y', (x', y') = (x, y)) w w' ∧
  enemies w' = enemies w ∧
  (symbolIs (cellAt (grid w) y x) DESTRUCTIBLE_BLOCK = true → inGrid x y →
     cellAt (grid w') y x = None ∧
     ((x, y) = (d_x (exitDoor w), d_y (exitDoor w)) → visible (exitDoor w') = true)) ∧
  (symbolIs (cellAt (grid w) y x) DESTRUCTIBLE_BLOCK = false → w' = w).
Proof.
  unfold blastCell, stopsAt. rewrite blast_bounds.
  destruct (inGridb x y) eqn:Hin; simpl.
  - destruct (symbolIs (cellAt (grid w) y x) DESTRUCTIBLE_BLOCK) eqn:Hd; simpl.
    + intros [= <-]. simpl. split; [done|]. split; [|split; [done|split; [|done]]].
      * unfold touchedOnly, unaffected. simpl. split_and!; try done.
        -- by destruct ((x =? d_x (exitDoor w)) && (y =? d_y (exitDoor w))).
        -- by destruct ((x =? d_x (exitDoor w)) && (y =? d_y (exitDoor w))).
        -- by destruct ((x =? d_x (exitDoor w)) && (y =? d_y (exitDoor w))).
        -- intros x' y' Hne. split; [|done]. by apply grid_read_write_ne.
      * intros _ _. split; [apply cellAt_write_None|].
        intros [= -> ->]. by rewrite !Z.eqb_refl.
    + destruct (symbolIs (cellAt (grid w) y x) INDESTRUCTIBLE_BLOCK) eqn:Hi.
      * intros [= <-]. split; [done|]. split; [apply touchedOnly_refl|]. done.
      * destruct ((p_x (player w) =? x) && (p_y (player w) =? y)); discriminate.
  - intros [= <-]. split; [done|]. split; [apply touchedOnly_refl|].
    split; [done|]. split; [|done].
    intros _ Hg. apply inGridb_spec in Hg. congruence.
Qed.

Lemma blastCell_next x y w w' :
  blastCell x y w = BlastNext w' →
  stopsAt (grid w) x y = false ∧
  w' = mkGame (grid w) (player w) (eliminateEnemy x y (enemies w)) (bombs w)
         (exitDoor w) (bombsPlanted w) ∧
  (p_x (player w), p_y (player w)) ≠ (x, y).
Proof.
  unfold blastCell, stopsAt. rewrite blast_bounds.
  destruct (inGridb x y); simpl; [|done].
  destruct (symbolIs (cellAt (grid w) y x) DESTRUCTIBLE_BLOCK); [done|].
  destruct (symbolIs (cellAt (grid w) y x) INDESTRUCTIBLE_BLOCK); [done|].
  destruct ((p_x (player w) =? x) && (p_y (player w) =? y)) eqn:Hp; [done|].
  intros [= <-]. split; [done|]. split; [done|].
  intros [= Hx Hy]. lia.
Qed.

Lemma blastCell_fatal x y w :
  blastCell x y w = BlastFatal ↔
  stopsAt (grid w) x y = false ∧ (p_x (player w), p_y (player w)) = (x, y).
Proof.
  unfold blastCell, stopsAt. rewrite blast_bounds.
  destruct (inGridb x y); simpl; [|naive_solver].
  destruct (symbolIs (cellAt (grid w) y x) DESTRUCTIBLE_BLOCK); [naive_solver|].
  destruct (symbolIs (cellAt (grid w) y x) INDESTRUCTIBLE_BLOCK); [naive_solver|].
  simpl.
  destruct ((p_x (player w) =? x) && (p_y (player w) =? y)) eqn:Hp.
  - split; [|done]. intros _. split; [done|]. f_equal; lia.
  - split; [done|]. intros [_ [= Hx Hy]]. lia.
Qed.

Lemma blastCell_next_touched x y w w' :
  blastCell x y w = BlastNext w' →
  grid w' = grid w ∧ touchedOnly (λ x' y', (x', y') = (x, y)) w w'.
Proof.
  intros H. apply blastCell_next in H as (_ & -> & _). split; [done|].
  unfold touchedOnly, unaffected. simpl. split_and!; try done.
  intros x' y' Hne. split; [done|]. by apply enemiesOn_eliminate_other.
Qed.

Lemma unaffected_refl w x y : unaffected w w x y.
Proof. by unfold unaffected. Qed.

Lemma unaffected_trans w1 w2 w3 x y :
  unaffected w1 w2 x y → unaffected w2 w3 x y → unaffected w1 w3 x y.
Proof. unfold unaffected. intros [-> ->] [-> ->]. done. Qed.

Lemma unaffected_cellAt w w' x y :
  unaffected w w' x y → cellAt (grid w') y x = cellAt (grid w) y x.
Proof. intros [H _]. unfold cellAt. by rewrite H. Qed.

Lemma unaffected_stopsAt w w' x y :
  unaffected w w' x y → stopsAt (grid w') x y = stopsAt (grid w) x y.
Proof. intros H. unfold stopsAt. by rewrite (unaffected_cellAt _ _ _ _ H). Qed.

Lemma keepsSolid_refl w : keepsSolid w w.
Proof. by unfold keepsSolid. Qed.

Lemma keepsSolid_trans w1 w2 w3 : keepsSolid w1 w2 → keepsSolid w2 w3 → keepsSolid w1 w3.
Proof. unfold keepsSolid. eauto. Qed.

Lemma blastCell_break_keepsSolid x y w w' :
  blastCell x y w = BlastBreak w' → keepsSolid w w'.
Proof.
  intros H. apply blastCell_break in H as (_ & Ht & _ & _ & Hsame).
  destruct (symbolIs (cellAt (grid w) y x) DESTRUCTIBLE_BLOCK) eqn:Hd.
  - intros x' y' c Hc Hnd.
    destruct (decide ((x', y') = (x, y))) as [[= -> ->]|Hne].
    + rewrite (cellAt_read _ _ _ _ Hc) in Hd. congruence.
    + destruct Ht as (_ & _ & _ & _ & _ & _ & Ht).
      destruct (Ht x' y' Hne) as [-> _]. done.
  - rewrite (Hsame eq_refl). apply keepsSolid_refl.
Qed.

(** *** One direction *)

Lemma scanRay_touched bx by_ dx dy steps w w' :
  scanRay bx by_ dx dy steps w = Survived w' →
  touchedOnly (visited (grid w) bx by_ dx dy steps) w w' ∧ keepsSolid w w'.
Proof.
  revert w. induction steps as [|i steps IH]; intros w H; simpl in H.
  - injection H as <-. split; [apply touchedOnly_refl | apply keepsSolid_refl].
  - destruct (blastCell (bx + dx * i) (by_ + dy * i) w) as [w1|w1|] eqn:Hb; [| |done].
    + injection H as <-. split; [|by eapply blastCell_break_keepsSolid].
      apply blastCell_break in Hb as (_ & Ht & _).
      eapply touchedOnly_weaken; [|exact Ht].
      intros x y [= -> ->]. exists [], i, steps. by repeat split.
    + pose proof (blastCell_next _ _ _ _ Hb) as (Hns & _ & _).
      apply blastCell_next_touched in Hb as [Hg Ht].
      destruct (IH _ H) as [IHt IHk]. split.
      * eapply touchedOnly_trans; [| |exact Ht|exact IHt].
        -- intros x y [= -> ->]. exists [], i, steps. by repeat split.
        -- intros x y (pre & j & post & -> & Hxy & Hpre).
           exists (i :: pre), j, post. rewrite Hg in Hpre.
           split; [done|]. split; [done|]. by constructor.
      * intros x y c Hc Hnd. apply IHk; [|done]. by rewrite Hg.
Qed.

Lemma visited_onRay g bx by_ dx dy x y :
  visited g bx by_ dx dy [1; 2; 3] x y → onRay bx by_ dx dy x y.
Proof.
  intros (pre & i & post & Heq & Hxy & _). exists i. split; [|done].
  assert (i ∈ [1; 2; 3]) as Hin by (rewrite Heq; set_solver).
  set_unfold in Hin. lia.
Qed.

(** The scan stops at the first destructible block it reaches, which it
    destroys. *)
Lemma scanRay_destroys bx by_ dx dy pre k post w w' :
  scanRay bx by_ dx dy (pre ++ k :: post) w = Survived w' →
  Forall (λ j, stopsAt (grid w) (bx + dx * j) (by_ + dy * j) = false) pre →
  symbolIs (cellAt (grid w) (by_ + dy * k) (bx + dx * k)) DESTRUCTIBLE_BLOCK = true →
  inGrid (bx + dx * k) (by_ + dy * k) →
  cellAt (grid w') (by_ + dy * k) (bx + dx * k) = None ∧
  ((bx + dx * k, by_ + dy * k) = (d_x (exitDoor w), d_y (exitDoor w)) →
     visible (exitDoor w') = true).
Proof.
  revert w. induction pre as [|j pre IH]; intros w H Hpre Hd Hin; simpl in H.
  - destruct (blastCell (bx + dx * k) (by_ + dy * k) w) as [w1|w1|] eqn:Hb; [| |done].
    + injection H as <-. apply blastCell_break in Hb as (_ & _ & _ & Hdes & _). auto.
    + apply blastCell_next in Hb as (Hns & _). unfold stopsAt in Hns.
      rewrite Hd in Hns. by rewrite orb_true_r in Hns.
  - apply Forall_cons in Hpre as [Hj Hpre].
    destruct (blastCell (bx + dx * j) (by_ + dy * j) w) as [w1|w1|] eqn:Hb; [| |done].
    + apply blastCell_break in Hb as (Hs & _). congruence.
    + apply blastCell_next in Hb as (_ & -> & _). by apply (IH _ H).
Qed.

(** *** All directions *)

Lemma scanDirs_app bx by_ ds1 ds2 w w' :
  scanDirs bx by_ (ds1 ++ ds2) w = Survived w' →
  ∃ w1, scanDirs bx by_ ds1 w = Survived w1 ∧ scanDirs bx by_ ds2 w1 = Survived w'.
Proof.
  revert w. induction ds1 as [|[dx dy] ds1 IH]; intros w H; cbn [scanDirs app] in *; [eauto|].
  destruct (scanRay bx by_ dx dy [1; 2; 3] w) as [w1|]; [|done]. eauto.
Qed.

Lemma scanDirs_touched bx by_ ds w w' :
  scanDirs bx by_ ds w = Survived w' →
  touchedOnly (λ x y, ∃ d, d ∈ ds ∧ onRay bx by_ d.1 d.2 x y) w w' ∧ keepsSolid w w'.
Proof.
  revert w. induction ds as [|[dx dy] ds IH]; intros w H; cbn [scanDirs] in H.
  - injection H as <-. split; [apply touchedOnly_refl | apply keepsSolid_refl].
  - destruct (scanRay bx by_ dx dy [1; 2; 3] w) as [w1|] eqn:Hr; [|done].
    apply scanRay_touched in Hr as [Ht Hk]. destruct (IH _ H) as [IHt IHk].
    split; [|by eapply keepsSolid_trans].
    eapply touchedOnly_trans; [| |exact Ht|exact IHt].
    + intros x y Hv. exists (dx, dy). split; [set_solver|].
      by eapply visited_onRay.
    + intros x y (d & Hd & Hon). exists d. split; [set_solver|done].
Qed.

Lemma directions_eq : directions = [(-1, 0); (0, -1); (0, 0); (0, 1); (1, 0)].
Proof. reflexivity. Qed.

(** Two rays of one bomb share no cell. *)
Lemma rays_disjoint bx by_ dx dy d i :
  cardinal dx dy → d ∈ directions → d ≠ (dx, dy) → 1 ≤ i →
  ¬ onRay bx by_ d.1 d.2 (bx + dx * i) (by_ + dy * i).
Proof.
  intros Hc Hd Hne Hi (j & Hj & Heq). unfold rayCell in Heq.
  rewrite directions_eq in Hd. set_unfold in Hd.
  unfold cardinal in Hc.
  destruct Hd as [-> | [-> | [-> | [-> | [-> | []]]]]];
    destruct Hc as [Hc|[Hc|[Hc|Hc]]]; injection Hc as -> ->;
    simpl in *; try done; apply pair_equal_spec in Heq as [? ?]; lia.
Qed.

Lemma ray_injective bx by_ dx dy i j :
  cardinal dx dy → rayCell bx by_ dx dy i = rayCell bx by_ dx dy j → i = j.
Proof.
  unfold cardinal, rayCell.
  intros [Hc|[Hc|[Hc|Hc]]] Heq; apply pair_equal_spec in Heq as [? ?];
    injection Hc as -> ->; lia.
Qed.

Lemma directions_split dx dy :
  cardinal dx dy →
  ∃ ds1 ds2, directions = ds1 ++ (dx, dy) :: ds2 ∧
             ∀ d, d ∈ ds1 ++ ds2 → d ∈ directions ∧ d ≠ (dx, dy).
Proof.
  rewrite directions_eq.
  intros [Hc|[Hc|[Hc|Hc]]]; injection Hc as -> ->.
  - exists [], [(0, -1); (0, 0); (0, 1); (1, 0)]. split; [done|].
    intros d Hd. set_unfold. naive_solver.
  - exists [(-1, 0)], [(0, 0); (0, 1); (1, 0)]. split; [done|].
    intros d Hd. set_unfold. naive_solver.
  - exists [(-1, 0); (0, -1); (0, 0)], [(1, 0)]. split; [done|].
    intros d Hd. set_unfold. naive_solver.
  - exists [(-1, 0); (0, -1); (0, 0); (0, 1)], []. split; [done|].
    intros d Hd. set_unfold. naive_solver.
Qed.

(** The detonation as seen from one of the four directions: the rays
    before it, its own ray, the rays after it. *)
Lemma scanDirs_around bx by_ dx dy w w' :
  scanDirs bx by_ directions w = Survived w' → cardinal dx dy →
  ∃ w1 w2,
    scanRay bx by_ dx dy [1; 2; 3] w1 = Survived w2 ∧
    (∀ i, 1 ≤ i → unaffected w w1 (bx + dx * i) (by_ + dy * i)) ∧
    (∀ i, 1 ≤ i → unaffected w2 w' (bx + dx * i) (by_ + dy * i)) ∧
    d_x (exitDoor w1) = d_x (exitDoor w) ∧ d_y (exitDoor w1) = d_y (exitDoor w) ∧
    (visible (exitDoor w2) = true → visible (exitDoor w') = true).
Proof.
  intros H Hc. destruct (directions_split dx dy Hc) as (ds1 & ds2 & Heq & Hds).
  rewrite Heq in H. apply scanDirs_app in H as (w1 & H1 & H).
  cbn [scanDirs] in H.
  destruct (scanRay bx by_ dx dy [1; 2; 3] w1) as [w2|] eqn:Hr; [|done].
  apply scanDirs_touched in H1 as [(_ & _ & _ & Hx1 & Hy1 & _ & Ht1) _].
  apply scanDirs_touched in H as [(_ & _ & _ & _ & _ & Hv2 & Ht2) _].
  exists w1, w2. split_and!; try done.
  - intros i Hi. apply Ht1. intros (d & Hd & Hon).
    destruct (Hds d) as [Hdir Hne]; [set_solver|].
    by eapply rays_disjoint.
  - intros i Hi. apply Ht2. intros (d & Hd & Hon).
    destruct (Hds d) as [Hdir Hne]; [set_solver|].
    by eapply rays_disjoint.
Qed.

Lemma explodeBomb_Survived b w w' :
  explodeBomb b w = Survived w' →
  ∃ w2, scanDirs (b_x b) (b_y b) directions w = Survived w2 ∧
        w' = withPlayer w2 (reloadBomb (player w2)).
Proof.
  unfold explodeBomb.
  destruct (scanDirs (b_x b) (b_y b) directions w) as [w2|]; [|done].
  intros [= <-]. eauto.
Qed.

Lemma unaffected_withPlayer w w' p x y :
  unaffected w w' x y → unaffected w (withPlayer w' p) x y.
Proof. done. Qed.

(** Beyond the cell where the scan of a direction stops, and beyond three
    cells, nothing is touched. *)
Lemma explodeBomb_beyond b w w' dx dy i :
  explodeBomb b w = Survived w' → cardinal dx dy →
  (3 < i ∨ ∃ k, 1 ≤ k < i ∧ stopsAt (grid w) (b_x b + dx * k) (b_y b + dy * k) = true) →
  unaffected w w' (b_x b + dx * i) (b_y b + dy * i).
Proof.
  intros H Hc Hi. apply explodeBomb_Survived in H as (w3 & H & ->).
  apply unaffected_withPlayer.
  destruct (scanDirs_around _ _ _ _ _ _ H Hc) as (w1 & w2 & Hr & H1 & H2 & _).
  assert (1 ≤ i) as Hi1 by (destruct Hi as [|(k & ? & _)]; lia).
  eapply unaffected_trans; [by apply H1|].
  eapply unaffected_trans; [|by apply H2].
  apply scanRay_touched in Hr as [(_ & _ & _ & _ & _ & _ & Hr) _].
  apply Hr. intros (pre & j & post & Heq & Hxy & Hpre).
  apply (ray_injective _ _ _ _ _ _ Hc) in Hxy. subst j.
  destruct Hi as [Hi|(k & Hk & Hstop)].
  - assert (i ∈ [1; 2; 3]) as Hin by (rewrite Heq; set_solver).
    set_unfold in Hin. lia.
  - assert (k ∈ pre) as Hkpre.
    { destruct pre as [|p1 [|p2 [|p3 pre]]]; simplify_eq/=; try lia.
      - assert (k = 1) as -> by lia. set_solver.
      - assert (k = 1 ∨ k = 2) as [-> | ->] by lia; set_solver.
      - destruct pre; done. }
    rewrite Forall_forall in Hpre. specialize (Hpre k Hkpre). simpl in Hpre.
    rewrite (unaffected_stopsAt w w1) in Hpre by (apply H1; lia).
    congruence.
Qed.

Lemma explodeBomb_keepsSolid b w w' : explodeBomb b w = Survived w' → keepsSolid w w'.
Proof.
  intros H. apply explodeBomb_Survived in H as (w2 & H & ->).
  apply scanDirs_touched in H as [_ H]. exact H.
Qed.

(** The first destructible block that the scan of a direction reaches is
    destroyed, and the door becomes visible when it stood on the door. *)
Lemma explodeBomb_destroys b w w' dx dy k :
  explodeBomb b w = Survived w' → cardinal dx dy → 1 ≤ k ≤ 3 →
  (∀ j, 1 ≤ j < k → stopsAt (grid w) (b_x b + dx * j) (b_y b + dy * j) = false) →
  symbolIs (cellAt (grid w) (b_y b + dy * k) (b_x b + dx * k)) DESTRUCTIBLE_BLOCK = true →
  inGrid (b_x b + dx * k) (b_y b + dy * k) →
  cellAt (grid w') (b_y b + dy * k) (b_x b + dx * k) = None ∧
  ((b_x b + dx * k, b_y b + dy * k) = (d_x (exitDoor w), d_y (exitDoor w)) →
     visible (exitDoor w') = true).
Proof.
  intros H Hc Hk Hpre Hd Hin. apply explodeBomb_Survived in H as (w3 & H & ->).
  destruct (scanDirs_around _ _ _ _ _ _ H Hc) as (w1 & w2 & Hr & H1 & H2 & Hx & Hy & Hv).
  assert (∃ pre post, [1; 2; 3] = pre ++ k :: post ∧ ∀ j, j ∈ pre → 1 ≤ j < k)
    as (pre & post & Heq & Hlt).
  { assert (k = 1 ∨ k = 2 ∨ k = 3) as [-> | [-> | ->]] by lia.
    - exists [], [2; 3]. split; [done|]. set_solver.
    - exists [1], [3]. split; [done|]. intros j Hj. set_unfold in Hj. lia.
    - exists [1; 2], []. split; [done|]. intros j Hj. set_unfold in Hj. lia. }
  rewrite Heq in Hr.
  destruct (scanRay_destroys _ _ _ _ _ _ _ _ _ Hr) as [Hnone Hvis].
  - apply Forall_forall. intros j Hj. specialize (Hlt j Hj).
    rewrite (unaffected_stopsAt w w1) by (apply H1; lia). apply Hpre. lia.
  - rewrite (unaffected_cellAt w w1) by (apply H1; lia). done.
  - done.
  - simpl. split.
    + rewrite (unaffected_cellAt w2 w3) by (apply H2; lia). done.
    + intros Hexit. apply Hv, Hvis. congruence.
Qed.

(** ** The bomb's own cell *)





Lemma scanDirs_cons bx by_ dx dy ds w :
  scanDirs bx by_ ((dx, dy) :: ds) w =
  match scanRay bx by_ dx dy [1; 2; 3] w with
  | Survived w' => scanDirs bx by_ ds w'
  | BlownUp => BlownUp
  end.
Proof. done. Qed.

(** ** Writing and reading numbers *)

Lemma map_fmap {A B} (f : A → B) (l : list A) : map f l = f <$> l.
Proof. induction l as [|a l IH]; [done|]. cbn [map]. rewrite IH. done. Qed.

Lemma readDigits_showDigits d rest :
  noDigitHead rest → readDigits (showDigits d ++ rest) = (d, rest).
Proof.
  intros Hrest. induction d; simpl; try (rewrite IHd; done).
  destruct rest as [|c rest]; [done|]. simpl in *. by rewrite Hrest.
Qed.

Lemma showDigits_head d :
  d ≠ Decimal.Nil →
  ∃ c s, showDigits d = c :: s ∧ isspace c = false ∧
         Ascii.eqb c "-" = false ∧ Ascii.eqb c "+" = false.
Proof. intros Hd. destruct d; [done|..]; simpl; eauto 10. Qed.

Lemma readInt_showInt n rest :
  noDigitHead rest → readInt (showInt n ++ rest) = Some (n, rest).
Proof.
  intros Hrest. unfold showInt, Z.to_int.
  assert (Huint : ∀ d, d ≠ Decimal.Nil →
            readInt (showDigits d ++ rest) = Some (Z.of_uint d, rest)).
  { intros d Hd. destruct (showDigits_head d Hd) as (c & s & Hs & Hsp & Hm & Hp).
    unfold readInt. rewrite Hs. simpl. rewrite Hsp, Hm, Hp.
    change (c :: s ++ rest) with ((c :: s) ++ rest).
    rewrite <- Hs, readDigits_showDigits by done. by destruct d. }
  destruct n as [|p|p].
  - apply (Huint (Decimal.D0 Decimal.Nil)). done.
  - rewrite Huint by apply Unsigned.to_uint_nonnil.
    unfold Z.of_uint. by rewrite Unsigned.of_to.
  - unfold readInt. simpl.
    rewrite readDigits_showDigits by done.
    pose proof (Unsigned.to_uint_nonnil p) as Hnn.
    unfold Z.of_uint. rewrite Unsigned.of_to.
    by destruct (Pos.to_uint p).
Qed.

Lemma readInt_skip c s : isspace c = true → readInt (c :: s) = readInt s.
Proof. intros H. unfold readInt. simpl. by rewrite H. Qed.

(** A number after a space or a newline. *)
Lemma readInt_sep c n rest :
  isspace c = true → noDigitHead rest →
  readInt (c :: showInt n ++ rest) = Some (n, rest).
Proof. intros Hc Hrest. by rewrite readInt_skip, readInt_showInt. Qed.

Lemma readBool_sep c b rest :
  isspace c = true → noDigitHead rest →
  readBool (c :: showBool b ++ rest) = Some (b, rest).
Proof.
  intros Hc Hrest. unfold readBool.
  replace (showBool b) with (showInt (if b then 1 else 0)) by by destruct b.
  rewrite readInt_sep by done. simpl. by destruct b.
Qed.

Lemma readEnemies_show es rest :
  readEnemies (length es) (NL :: concat (map showEnemy es) ++ rest)
  = Some (map reloadedEnemy es, NL :: rest).
Proof.
  induction es as [|e es IH]; [done|].
  cbn [length map concat readEnemies]. unfold showEnemy at 1.
  rewrite <- !app_assoc. cbn [app].
  rewrite readInt_sep by done. cbn [mbind option_bind].
  rewrite <- !app_assoc. cbn [app].
  rewrite readInt_sep by done. cbn [mbind option_bind].
  rewrite <- !app_assoc. cbn [app].
  rewrite readInt_sep by done. cbn [mbind option_bind].
  rewrite IH. done.
Qed.

Lemma readBombs_show now bs rest :
  readBombs now (length bs) (NL :: concat (map showBomb bs) ++ rest)
  = Some (map (reloadedBomb now) bs, NL :: rest).
Proof.
  induction bs as [|b bs IH]; [done|].
  cbn [length map concat readBombs]. unfold showBomb at 1.
  rewrite <- !app_assoc. cbn [app].
  rewrite readInt_sep by done. cbn [mbind option_bind].
  rewrite <- !app_assoc. cbn [app].
  rewrite readInt_sep by done. cbn [mbind option_bind].
  rewrite IH. done.
Qed.

(** ** Writing and reading the grid *)

Lemma cellSymbol_not_NL c : Ascii.eqb (cellSymbol c) NL = false.
Proof. by destruct c as [[]|]. Qed.

Lemma getline_showRow row rest :
  getline (showRow row ++ rest) = (map cellSymbol row, rest).
Proof.
  unfold showRow. induction row as [|c row IH]; [done|].
  simpl. rewrite cellSymbol_not_NL. simpl in IH. by rewrite IH.
Qed.

Lemma cellOfSymbol_cellSymbol c : cellOfSymbol (cellSymbol c) = degreen c.
Proof. by destruct c as [[]|]. Qed.

Lemma loadRow_full_aux (pre line : list ascii) :
  mapM (λ j, cellOfSymbol <$> charAt (pre ++ line) j) (seq (length pre) (length line))
  = Some (map cellOfSymbol line).
Proof.
  revert pre. induction line as [|c line IH]; intros pre; [done|].
  cbn [length seq map]. rewrite mapM_Some. constructor.
  - unfold charAt. rewrite list_lookup_middle by done. done.
  - apply mapM_Some. specialize (IH (pre ++ [c])).
    rewrite <- app_assoc, length_app in IH. simpl in IH.
    by rewrite Nat.add_1_r in IH.
Qed.

Lemma loadRow_showRow row :
  length row = Z.to_nat WIDTH → loadRow (map cellSymbol row) = Some (map degreen row).
Proof.
  intros Hlen. unfold loadRow.
  pose proof (loadRow_full_aux [] (map cellSymbol row)) as H.
  rewrite length_map, Hlen in H. simpl in H. simpl. rewrite H.
  f_equal. rewrite map_map. apply map_ext. apply cellOfSymbol_cellSymbol.
Qed.

Lemma loadRows_show g rest :
  Forall (λ row, length row = Z.to_nat WIDTH) g →
  loadRows (length g) (concat (map showRow g) ++ rest) = Some (map (map degreen) g).
Proof.
  induction 1 as [|row g Hrow _ IH]; [done|].
  cbn [length map concat loadRows]. rewrite <- app_assoc, getline_showRow.
  rewrite loadRow_showRow by done. cbn [mbind option_bind]. by rewrite IH.
Qed.

Lemma grid_read_nat (g : Grid) (i j : nat) :
  grid_read g (Z.of_nat i) (Z.of_nat j) = (row ← g !! i; row !! j).
Proof.
  unfold grid_read.
  replace ((0 <=? Z.of_nat i) && (0 <=? Z.of_nat j)) with true by lia.
  by rewrite !Nat2Z.id.
Qed.

(** Two grids with the same cells are the same grid. *)
Lemma grid_ext g1 g2 :
  grid_dims g1 → grid_dims g2 →
  (∀ x y, inGrid x y → grid_read g1 y x = grid_read g2 y x) → g1 = g2.
Proof.
  intros [Hl1 Hr1] [Hl2 Hr2] Heq. apply list_eq_same_length with (Z.to_nat HEIGHT); [done..|].
  intros i row1 row2 Hi H1 H2. 
  assert (length row1 = Z.to_nat WIDTH) as Hw1 by (by eapply Forall_lookup_1 in Hr1).
  assert (length row2 = Z.to_nat WIDTH) as Hw2 by (by eapply Forall_lookup_1 in Hr2).
  apply list_eq_same_length with (Z.to_nat WIDTH); [done..|].
  intros j c1 c2 Hj Hc1 Hc2.
  specialize (Heq (Z.of_nat j) (Z.of_nat i)).
  rewrite !grid_read_nat, H1, H2 in Heq. simpl in Heq. rewrite Hc1, Hc2 in Heq.
  assert (Some c1 = Some c2) as [= ->]; [|done].
  apply Heq. unfold inGrid, WIDTH, HEIGHT in *. lia.
Qed.

Lemma grid_read_map (f : Cell → Cell) g y x :
  grid_read (map (map f) g) y x = f <$> grid_read g y x.
Proof.
  unfold grid_read. destruct ((0 <=? y) && (0 <=? x)); [|done].
  rewrite !map_fmap, list_lookup_fmap.
  destruct (g !! Z.to_nat y) as [row|]; simpl; [|done].
  by rewrite map_fmap, list_lookup_fmap.
Qed.

Lemma grid_dims_map (f : Cell → Cell) g : grid_dims g → grid_dims (map (map f) g).
Proof.
  intros [Hl Hr]. split; [by rewrite length_map|].
  rewrite map_fmap. apply Forall_fmap. eapply Forall_impl; [exact Hr|].
  intros row Hrow. simpl. by rewrite length_map.
Qed.

Lemma isInterior_inGrid x y : isInterior x y → inGrid x y.
Proof. unfold isInterior, inGrid, WIDTH, HEIGHT. lia. Qed.

Lemma inGridb_true x y : inGrid x y → inGridb x y = true.
Proof. unfold inGrid, inGridb. lia. Qed.

(** The green block that [loadGame] puts back is the one that the file
    could not say. *)
Lemma restore_green w :
  WF w →
  (if negb (visible (exitDoor w))
   then if inGridb (d_x (exitDoor w)) (d_y (exitDoor w))
        then Some (grid_write (map (map degreen) (grid w)) (d_y (exitDoor w))
                     (d_x (exitDoor w)) (Some (DestructibleBlock true)))
        else None
   else Some (map (map degreen) (grid w)))
  = Some (grid w).
Proof.
  intros [Hd Hint Hnr Hg].
  assert (Hplain : ∀ x y, (x, y) ≠ (d_x (exitDoor w), d_y (exitDoor w)) ∨
                          visible (exitDoor w) = true →
            degreen <$> grid_read (grid w) y x = grid_read (grid w) y x).
  { intros x y Hxy. destruct (grid_read (grid w) y x) as [[[| [] | |]|]|] eqn:E; try done.
    apply Hg in E as (-> & -> & Hv). destruct Hxy; congruence. }
  destruct (visible (exitDoor w)) eqn:Hv; simpl.
  - f_equal. apply grid_ext; [by apply grid_dims_map | done |].
    intros x y _. rewrite grid_read_map. apply Hplain. by right.
  - rewrite inGridb_true by by apply isInterior_inGrid. f_equal.
    apply grid_ext; [by apply grid_dims_write, grid_dims_map | done |].
    intros x y _.
    destruct (decide ((x, y) = (d_x (exitDoor w), d_y (exitDoor w)))) as [[= -> ->]|Hne].
    + destruct (grid_dims_read (map (map degreen) (grid w)) (d_x (exitDoor w))
                  (d_y (exitDoor w))) as [c0 Hc0];
        [by apply grid_dims_map | by apply isInterior_inGrid |].
      rewrite (grid_read_write_eq _ _ _ _ _ Hc0). symmetry. by apply Hg.
    + rewrite grid_read_write_ne, grid_read_map by done. apply Hplain. by left.
Qed.

(** ** Loading what was saved *)

Lemma loadGame_saveGame now w w0 :
  WF w →
  loadGame now (Some (saveGame w)) w0 =
  Some (true,
        mkGame (grid w)
          (mkPlayer (p_x (player w)) (p_y (player w)) NUM_BOMBS)
          (map reloadedEnemy (enemies w))
          (map (reloadedBomb now) (bombs w))
          (exitDoor w) (bombsPlanted w)).
Proof.
  intros Hwf. unfold loadGame, saveGame, enemyCount, bombCount.
  rewrite readInt_showInt by done. cbn [mbind option_bind].
  rewrite readInt_sep by done. cbn [mbind option_bind].
  rewrite readInt_sep by done. cbn [mbind option_bind].
  rewrite readInt_sep by done. cbn [mbind option_bind].
  replace (Z.of_nat (length (enemies w)) <? 0) with false by lia.
  rewrite Nat2Z.id, readEnemies_show. cbn [mbind option_bind].
  rewrite readInt_sep by done. cbn [mbind option_bind].
  replace (Z.of_nat (length (bombs w)) <? 0) with false by lia.
  rewrite Nat2Z.id, readBombs_show. cbn [mbind option_bind].
  rewrite readInt_sep by done. cbn [mbind option_bind].
  rewrite readInt_sep by done. cbn [mbind option_bind].
  rewrite readBool_sep by done. cbn [mbind option_bind tail].
  rewrite <- (app_nil_r (concat _)).
  replace (Z.to_nat HEIGHT) with (length (grid w)) by apply Hwf.
  rewrite loadRows_show by apply Hwf. cbn [mbind option_bind].
  rewrite restore_green by done. cbn [mbind option_bind].
  by destruct (exitDoor w).
Qed.

(** ** The invariant of the worlds of play *)

Lemma WF_same w w' :
  grid w' = grid w → exitDoor w' = exitDoor w → WF w → WF w'.
Proof. intros Hg He [? ? ? ?]. split; rewrite ?Hg, ?He; done. Qed.

Lemma blastCell_break_WF x y w w' : blastCell x y w = BlastBreak w' → WF w → WF w'.
Proof.
  intros Hb Hwf.
  destruct (symbolIs (cellAt (grid w) y x) DESTRUCTIBLE_BLOCK) eqn:Hd.
  2:{ apply blastCell_break in Hb as (_ & _ & _ & _ & Hsame). by rewrite Hsame. }
  unfold blastCell in Hb.
  destruct ((x <? 0) || (x >=? WIDTH) || (y <? 0) || (y >=? HEIGHT)) eqn:Hout.
  { by injection Hb as <-. }
  rewrite Hd in Hb. injection Hb as <-.
  destruct Hwf as [Hdims Hint Hnr Hg].
  assert (inGrid x y) as Hin by (unfold inGrid; lia).
  destruct (grid_dims_read _ _ _ Hdims Hin) as [c0 Hc0].
  split; simpl.
  - by apply grid_dims_write.
  - by destruct ((x =? d_x (exitDoor w)) && (y =? d_y (exitDoor w))).
  - intros x' y'. destruct (decide ((x', y') = (x, y))) as [[= -> ->]|Hne].
    + by rewrite (grid_read_write_eq _ _ _ _ _ Hc0).
    + rewrite grid_read_write_ne by done. apply Hnr.
  - intros x' y'. destruct (decide ((x', y') = (x, y))) as [[= -> ->]|Hne].
    + rewrite (grid_read_write_eq _ _ _ _ _ Hc0). split; [done|].
      destruct ((x =? d_x (exitDoor w)) && (y =? d_y (exitDoor w))) eqn:Hex; simpl.
      * by intros (_ & _ & ?).
      * intros (? & ? & _). lia.
    + rewrite grid_read_write_ne, Hg by done.
      destruct ((x =? d_x (exitDoor w)) && (y =? d_y (exitDoor w))) eqn:Hex; simpl; [|done].
      split; intros (-> & -> & ?); exfalso; apply Hne; f_equal; lia.
Qed.

Lemma scanRay_WF bx by_ dx dy steps w w' :
  scanRay bx by_ dx dy steps w = Survived w' → WF w → WF w'.
Proof.
  revert w. induction steps as [|i steps IH]; intros w H Hwf; simpl in H.
  - by injection H as <-.
  - destruct (blastCell (bx + dx * i) (by_ + dy * i) w) as [w1|w1|] eqn:Hb; [| |done].
    + injection H as <-. by eapply blastCell_break_WF.
    + apply blastCell_next in Hb as (_ & -> & _). apply (IH _ H).
      by apply (WF_same w).
Qed.

Lemma scanDirs_WF bx by_ ds w w' :
  scanDirs bx by_ ds w = Survived w' → WF w → WF w'.
Proof.
  revert w. induction ds as [|[dx dy] ds IH]; intros w H Hwf.
  - by injection H as <-.
  - rewrite scanDirs_cons in H.
    destruct (scanRay bx by_ dx dy [1; 2; 3] w) as [w1|] eqn:Hr; [|done].
    eauto using scanRay_WF.
Qed.

Lemma explodeBomb_WF b w w' : explodeBomb b w = Survived w' → WF w → WF w'.
Proof.
  intros H Hwf. apply explodeBomb_Survived in H as (w2 & H & ->).
  apply (WF_same w2); [done..|]. by eapply scanDirs_WF.
Qed.

Lemma explodeBomb_rest b w w' :
  explodeBomb b w = Survived w' →
  bombs w' = bombs w ∧ bombsPlanted w' = bombsPlanted w ∧
  p_x (player w') = p_x (player w) ∧ p_y (player w') = p_y (player w) ∧
  hasBombs (player w') = hasBombs (player w) + 1.
Proof.
  intros H. apply explodeBomb_Survived in H as (w2 & H & ->).
  apply scanDirs_touched in H as [(Hp & Hb & Hn & _) _]. simpl.
  rewrite Hp, Hb, Hn. done.
Qed.

Lemma bombLoop_WF fuel now i w w' :
  bombLoop fuel now i w = Survived w' → WF w → WF w'.
Proof.
  revert i w. induction fuel as [|fuel IH]; intros i w H Hwf; simpl in H.
  - by injection H as <-.
  - destruct (bombs w !! i) as [b|]; [|by injection H as <-].
    destruct (shouldExplode now b); [|eauto].
    destruct (explodeBomb b w) as [w1|] eqn:He; [|done].
    apply (IH _ _ H). apply (WF_same w1); [done..|]. by eapply explodeBomb_WF.
Qed.

Lemma moveEnemies_length rnd k g es es' k' :
  moveEnemies rnd k g es = Some (es', k') → length es' = length es.
Proof.
  intros H. apply moveEnemies_positions in H. by apply Forall2_length in H.
Qed.

Lemma update_Running rnd k now w w' k' :
  update rnd k now w = Some (Running w' k') →
  ∃ es,
    moveEnemies rnd k (grid w) (enemies w) = Some (es, k') ∧
    bombLoop (length (bombs w)) now 0
      (mkGame (grid w) (player w) es (bombs w) (exitDoor w) (bombsPlanted w))
    = Survived w'.
Proof.
  unfold update. destruct (playerCaught w); [done|].
  intros H. apply bind_Some in H as (c & _ & H).
  destruct (symbolIs c TRAP); [done|].
  apply bind_Some in H as ([es k1] & Hes & H). simpl in H.
  exists es.
  destruct (bombLoop _ _ _ _) as [w2|] eqn:Hl; [|done].
  destruct (_ && _); [done|]. by injection H as <- <-.
Qed.

Lemma update_WF rnd k now w w' k' :
  update rnd k now w = Some (Running w' k') → WF w → WF w'.
Proof.
  intros H Hwf. apply update_Running in H as (es & _ & H).
  apply bombLoop_WF in H; [done|]. by apply (WF_same w).
Qed.

Lemma movePlayer_same dx dy w w' :
  movePlayer dx dy w = Some w' →
  grid w' = grid w ∧ exitDoor w' = exitDoor w ∧ enemies w' = enemies w ∧
  bombs w' = bombs w ∧ bombsPlanted w' = bombsPlanted w ∧
  hasBombs (player w') = hasBombs (player w).
Proof.
  unfold movePlayer. intros H. apply bind_Some in H as (ok & _ & [= <-]).
  by destruct ok.
Qed.

Lemma plantBomb_same now w :
  grid (plantBomb now w) = grid w ∧ exitDoor (plantBomb now w) = exitDoor w ∧
  enemies (plantBomb now w) = enemies w.
Proof.
  unfold plantBomb. destruct (canPlantBomb (player w)); [|done].
  by destruct (bombCount w >=? NUM_BOMBS).
Qed.

(** The world to which the key of a pass leads, before [update]. *)
Lemma tick_Running rnd k now key w w' k' :
  tick rnd k now key w = Some (Running w' k') →
  ∃ w1, update rnd k now w1 = Some (Running w' k') ∧
        grid w1 = grid w ∧ exitDoor w1 = exitDoor w ∧ enemies w1 = enemies w ∧
        (w1 = plantBomb now w ∨
         (bombs w1 = bombs w ∧ bombsPlanted w1 = bombsPlanted w ∧
          hasBombs (player w1) = hasBombs (player w))).
Proof.
  unfold tick. intros H. apply bind_Some in H as (w1 & Hkey & H).
  exists w1. split; [done|].
  destruct key;
    try (apply movePlayer_same in Hkey; naive_solver);
    injection Hkey as <-;
    try (pose proof (plantBomb_same now w); naive_solver);
    naive_solver.
Qed.

Lemma tick_WF rnd k now key w w' k' :
  tick rnd k now key w = Some (Running w' k') → WF w → WF w'.
Proof.
  intros H Hwf. apply tick_Running in H as (w1 & H & Hg & He & _).
  eapply update_WF; [exact H|]. by apply (WF_same w).
Qed.

Lemma loadGame_saveGame_WF now w w0 w' :
  WF w → loadGame now (Some (saveGame w)) w0 = Some (true, w') → WF w'.
Proof.
  intros Hwf H. rewrite loadGame_saveGame in H by done.
  injection H as <-. by apply (WF_same w).
Qed.

(** ** Counting cells *)

Lemma grid_write_split g y x c c0 :
  grid_read g y x = Some c0 →
  ∃ g1 g2 r1 r2,
    g = g1 ++ (r1 ++ c0 :: r2) :: g2 ∧
    grid_write g y x c = g1 ++ (r1 ++ c :: r2) :: g2.
Proof.
  intros H. apply grid_read_Some in H as (Hy & Hx & row & Hr & Hc).
  exists (take (Z.to_nat y) g), (drop (S (Z.to_nat y)) g),
         (take (Z.to_nat x) row), (drop (S (Z.to_nat x)) row).
  rewrite (take_drop_middle row _ c0 Hc). split.
  - by rewrite take_drop_middle.
  - unfold grid_write. replace ((0 <=? y) && (0 <=? x)) with true by lia.
    rewrite <- (take_drop_middle g _ row Hr) at 1.
    assert (Hlen : length (take (Z.to_nat y) g) = Z.to_nat y).
    { rewrite length_take. apply lookup_lt_Some in Hr. lia. }
    rewrite alter_app_r_alt by lia. rewrite Hlen, Nat.sub_diag. simpl.
    do 2 f_equal.
    rewrite <- (take_drop_middle row _ c0 Hc) at 1.
    assert (Hlen' : length (take (Z.to_nat x) row) = Z.to_nat x).
    { rewrite length_take. apply lookup_lt_Some in Hc. lia. }
    rewrite insert_app_r_alt by lia. by rewrite Hlen', Nat.sub_diag.
Qed.

Lemma countCells_app p g1 g2 :
  countCells p (g1 ++ g2) = (countCells p g1 + countCells p g2)%nat.
Proof. unfold countCells. by rewrite concat_app, List.filter_app, length_app. Qed.

Lemma countCells_cons p row g :
  countCells p (row :: g) = (length (List.filter p row) + countCells p g)%nat.
Proof. unfold countCells. simpl. by rewrite List.filter_app, length_app. Qed.

(** A write changes the number of cells of a kind by what it replaces. *)
Lemma countCells_write p g y x c c0 :
  grid_read g y x = Some c0 →
  (countCells p (grid_write g y x c) + (if p c0 then 1 else 0)
   = countCells p g + (if p c then 1 else 0))%nat.
Proof.
  intros H. destruct (grid_write_split g y x c c0 H) as (g1 & g2 & r1 & r2 & Hg & ->).
  rewrite Hg at 1. rewrite !countCells_app, !countCells_cons, !List.filter_app, !length_app.
  simpl. destruct (p c), (p c0); simpl; lia.
Qed.

Lemma countCells_zero p g :
  (∀ x y c, grid_read g y x = Some c → p c = false) → countCells p g = O.
Proof.
  intros H. unfold countCells.
  assert (Hall : Forall (λ c, p c = false) (concat g)).
  { apply Forall_concat. apply Forall_lookup. intros i row Hrow.
    apply Forall_lookup. intros j c Hc. apply (H (Z.of_nat j) (Z.of_nat i)).
    rewrite grid_read_nat, Hrow. done. }
  induction Hall as [|c l Hc _ IH]; [done|]. simpl. by rewrite Hc.
Qed.


(** ** The new game *)

Lemma genCell_blockOrNull rnd i j k : blockOrNull (genCell rnd i j k).1.
Proof.
  unfold genCell, blockOrNull.
  repeat match goal with |- context [if ?b then _ else _] => destruct b end;
    simpl; auto.
Qed.

Lemma genCell_border rnd i j k :
  i = 0 ∨ i = HEIGHT - 1 ∨ j = 0 ∨ j = WIDTH - 1 →
  (genCell rnd i j k).1 = Some IndestructibleBlock.
Proof.
  intros H. unfold genCell.
  replace ((i =? 0) || (i =? HEIGHT - 1) || (j =? 0) || (j =? WIDTH - 1)) with true by lia.
  done.
Qed.

Lemma genRow_spec rnd i js k :
  Forall2 (λ j c, ∃ k1, c = (genCell rnd i j k1).1) js (genRow rnd i js k).1.
Proof.
  revert k. induction js as [|j js IH]; intros k; cbn [genRow]; [constructor|].
  destruct (genCell rnd i j k) as [c k1] eqn:Hc.
  specialize (IH k1). destruct (genRow rnd i js k1) as [row k2]. cbn [fst] in *.
  constructor; [|done]. exists k. by rewrite Hc.
Qed.

Lemma genRows_spec rnd rows k :
  Forall2 (λ i row, Forall2 (λ j c, ∃ k1, c = (genCell rnd i j k1).1) (seqZ 0 WIDTH) row)
    rows (genRows rnd rows k).1.
Proof.
  revert k. induction rows as [|i rows IH]; intros k; cbn [genRows]; [constructor|].
  pose proof (genRow_spec rnd i (seqZ 0 WIDTH) k) as Hrow.
  destruct (genRow rnd i (seqZ 0 WIDTH) k) as [row k1].
  specialize (IH k1). destruct (genRows rnd rows k1) as [g k2]. cbn [fst] in *.
  by constructor.
Qed.

Lemma genRows_dims rnd k : grid_dims (genRows rnd (seqZ 0 HEIGHT) k).1.
Proof.
  pose proof (genRows_spec rnd (seqZ 0 HEIGHT) k) as H. split.
  - apply Forall2_length in H. rewrite <- H. by rewrite length_seqZ.
  - apply Forall_lookup. intros i row Hrow.
    destruct (Forall2_lookup_r _ _ _ _ _ H Hrow) as (y & _ & Hy).
    apply Forall2_length in Hy. rewrite <- Hy. by rewrite length_seqZ.
Qed.

Lemma genRows_read rnd k x y :
  inGrid x y →
  ∃ k1, grid_read (genRows rnd (seqZ 0 HEIGHT) k).1 y x = Some (genCell rnd y x k1).1.
Proof.
  intros [Hx Hy]. pose proof (genRows_spec rnd (seqZ 0 HEIGHT) k) as H.
  assert (Hrow : seqZ 0 HEIGHT !! Z.to_nat y = Some y).
  { rewrite lookup_seqZ. split; lia. }
  destruct (Forall2_lookup_l _ _ _ _ _ H Hrow) as (row & Hr & Hcells).
  assert (Hcol : seqZ 0 WIDTH !! Z.to_nat x = Some x).
  { rewrite lookup_seqZ. split; lia. }
  destruct (Forall2_lookup_l _ _ _ _ _ Hcells Hcol) as (c & Hc & k1 & ->).
  exists k1. apply grid_read_Some. eauto 6 with lia.
Qed.

Lemma genRows_walled rnd k : walled (genRows rnd (seqZ 0 HEIGHT) k).1.
Proof.
  pose proof (genRows_dims rnd k) as Hd. split; [done|]. split.
  - intros x y [Hin Hb]. destruct (genRows_read rnd k x y Hin) as [k1 ->].
    rewrite genCell_border; [done|]. tauto.
  - intros x y c Hc.
    destruct (genRows_read rnd k x y) as [k1 Hk1]; [by eapply grid_dims_read_inv|].
    rewrite Hk1 in Hc. injection Hc as <-.
    by destruct (genCell_blockOrNull rnd y x k1) as [-> | [-> | ->]].
Qed.

Lemma genRows_no_trap rnd k x y c :
  grid_read (genRows rnd (seqZ 0 HEIGHT) k).1 y x = Some c → isTrapCell c = false.
Proof.
  intros Hc.
  destruct (genRows_read rnd k x y) as [k1 Hk1].
  { eapply grid_dims_read_inv; [apply genRows_dims | done]. }
  rewrite Hk1 in Hc. injection Hc as <-.
  by destruct (genCell_blockOrNull rnd y x k1) as [-> | [-> | ->]].
Qed.

(** *** The free cell that the rejection loop returns *)

Lemma rand_nonneg rnd k : 0 ≤ rand rnd k.
Proof. unfold rand. lia. Qed.

Lemma pickFree_spec fuel rnd k g x y k' :
  pickFree fuel rnd k g = Some (x, y, k') →
  isInterior x y ∧ cellAt g y x = None ∧ (x, y) ≠ (1, 1).
Proof.
  revert k. induction fuel as [|fuel IH]; intros k H; simpl in H; [done|].
  destruct (negb (isNull (cellAt g _ _)) || _) eqn:Hrej; [eauto|].
  injection H as <- <- <-.
  pose proof (Z.rem_bound_pos (rand rnd k) 58 (rand_nonneg _ _) ltac:(lia)) as Hx.
  pose proof (Z.rem_bound_pos (rand rnd (S k)) 28 (rand_nonneg _ _) ltac:(lia)) as Hy.
  unfold isInterior, WIDTH, HEIGHT in *.
  change (60 - 2) with 58 in *. change (30 - 2) with 28 in *.
  apply orb_false_elim in Hrej as [Hnull Hspawn].
  split; [lia|]. split.
  - destruct (cellAt g _ _); [done|done].
  - intros [= Hx1 Hy1]. rewrite Hx1, Hy1 in Hspawn. done.
Qed.

Lemma isInterior_not_border x y : isInterior x y → ¬ isBorder x y.
Proof. unfold isInterior, isBorder. lia. Qed.

Lemma cellAt_None_read g x y :
  grid_dims g → inGrid x y → cellAt g y x = None → grid_read g y x = Some None.
Proof.
  intros Hd Hin Hc. destruct (grid_dims_read g x y Hd Hin) as [c Hr].
  rewrite (cellAt_read _ _ _ _ Hr) in Hc. by subst.
Qed.

(** A write inside the wall of a cell that is not the door's. *)
Lemma walled_write g x y c :
  walled g → isInterior x y → isExitCell c = false → walled (grid_write g y x c).
Proof.
  intros (Hd & Hb & Hne) Hint Hc. split; [by apply grid_dims_write|]. split.
  - intros x' y' Hbd. rewrite grid_read_write_ne; [by apply Hb|].
    intros [= -> ->]. by eapply isInterior_not_border.
  - intros x' y' c' Hr.
    destruct (decide ((x', y') = (x, y))) as [[= -> ->]|Hneq].
    + destruct (grid_dims_read g x y Hd (isInterior_inGrid _ _ Hint)) as [c0 Hc0].
      rewrite (grid_read_write_eq _ _ _ _ _ Hc0) in Hr. by injection Hr as <-.
    + rewrite grid_read_write_ne in Hr by done. eauto.
Qed.

Lemma placeTraps_spec fuel rnd n k g g' k' :
  placeTraps fuel rnd n k g = Some (g', k') → walled g →
  walled g' ∧ countCells isTrapCell g' = (countCells isTrapCell g + n)%nat.
Proof.
  revert k g. induction n as [|n IH]; intros k g H Hw; simpl in H.
  - injection H as <- <-. split; [done|lia].
  - apply bind_Some in H as ([[x y] k1] & Hp & H).
    apply pickFree_spec in Hp as (Hint & Hnull & _).
    destruct (IH _ _ H) as [Hw' Hcount]; [by apply walled_write|].
    split; [done|]. rewrite Hcount.
    assert (Hr : grid_read g y x = Some None).
    { apply cellAt_None_read; [apply Hw | by apply isInterior_inGrid | done]. }
    pose proof (countCells_write isTrapCell g y x (Some Trap) None Hr) as Hcw.
    simpl in Hcw. lia.
Qed.

Lemma placeEnemies_spec fuel rnd idx k g es k' :
  placeEnemies fuel rnd idx k g = Some (es, k') →
  Forall2 (λ i e, moveType e = Z.rem i 3 ∧ moveStep e = 0 ∧
                  isInterior (e_x e) (e_y e) ∧ (e_x e, e_y e) ≠ (1, 1)) idx es.
Proof.
  revert k es. induction idx as [|i idx IH]; intros k es H; simpl in H.
  - injection H as <- <-. constructor.
  - apply bind_Some in H as ([[x y] k1] & Hp & H).
    apply bind_Some in H as ([r kr] & Hr & [= <- <-]).
    apply pickFree_spec in Hp as (Hint & _ & Hns).
    constructor; [done|eauto].
Qed.

(** *** The starting area *)

Lemma startArea_spec i j : (i, j) ∈ startArea ↔ inStartArea j i.
Proof.
  unfold inStartArea. change startArea with
    [(1, 1); (1, 2); (1, 3); (2, 1); (2, 2); (2, 3); (3, 1); (3, 2); (3, 3)].
  set_unfold. split.
  - intros H. repeat (destruct H as [[= -> ->]|H]; [lia|]). done.
  - intros [Hj Hi].
    assert (i = 1 ∨ i = 2 ∨ i = 3) as [-> | [-> | ->]] by lia;
    assert (j = 1 ∨ j = 2 ∨ j = 3) as [-> | [-> | ->]] by lia; tauto.
Qed.

Lemma clear_cells_read (cells : list (Z * Z)) g x y :
  grid_dims g → inGrid x y →
  grid_read (foldl (λ g ij, grid_write g ij.1 ij.2 None) g cells) y x =
  if decide ((y, x) ∈ cells) then Some None else grid_read g y x.
Proof.
  intros Hd Hin. revert g Hd. induction cells as [|[i j] cells IH]; intros g Hd.
  - cbn [foldl]. case_decide; [set_solver | done].
  - cbn [foldl fst snd]. rewrite IH by by apply grid_dims_write.
    destruct (decide ((y, x) ∈ cells)) as [Hc|Hc].
    + case_decide; [done | set_solver].
    + destruct (decide ((y, x) = (i, j))) as [[= -> ->]|Hne].
      * case_decide; [|set_solver].
        destruct (grid_dims_read g j i Hd Hin) as [c0 Hc0].
        by erewrite grid_read_write_eq.
      * case_decide; [set_solver|].
        apply grid_read_write_ne. congruence.
Qed.

Lemma clear_cells_walled (cells : list (Z * Z)) g :
  walled g → Forall (λ ij, isInterior ij.2 ij.1) cells →
  walled (foldl (λ g ij, grid_write g ij.1 ij.2 None) g cells).
Proof.
  intros Hw Hall. revert g Hw. induction Hall as [|[i j] cells Hij _ IH]; intros g Hw.
  - done.
  - simpl. apply IH. by apply walled_write.
Qed.


Lemma startArea_interior : Forall (λ ij : Z * Z, isInterior ij.2 ij.1) startArea.
Proof.
  apply Forall_forall. intros [i j] Hij. apply startArea_spec in Hij.
  unfold inStartArea, isInterior, WIDTH, HEIGHT in *. simpl. lia.
Qed.

Lemma clearStart_read g x y :
  grid_dims g → inGrid x y →
  grid_read (clearStart g) y x =
  if decide (inStartArea x y) then Some None else grid_read g y x.
Proof.
  intros Hd Hin. unfold clearStart. rewrite clear_cells_read by done.
  destruct (decide ((y, x) ∈ startArea)) as [H|H]; rewrite startArea_spec in H.
  - by rewrite decide_True.
  - by rewrite decide_False.
Qed.

(** *** The whole of [initializeGame] *)

Lemma initializeGame_inv rnd fuel w k :
  initializeGame rnd fuel = Some (w, k) →
  ∃ g1 es exitX exitY,
    walled g1 ∧
    countCells isTrapCell g1 = Z.to_nat ((HEIGHT + WIDTH) / 10) ∧
    Forall2 (λ i e, moveType e = Z.rem i 3 ∧ moveStep e = 0 ∧
                    isInterior (e_x e) (e_y e) ∧ (e_x e, e_y e) ≠ (1, 1))
      (seqZ 0 ((HEIGHT + WIDTH) / 10)) es ∧
    isInterior exitX exitY ∧ (exitX, exitY) ≠ (1, 1) ∧
    grid_read (clearStart g1) exitY exitX = Some None ∧
    w = mkGame (grid_write (clearStart g1) exitY exitX (Some (DestructibleBlock true)))
          (mkPlayer 1 1 NUM_BOMBS) es [] (mkExitDoor exitX exitY false) 0.
Proof.
  unfold initializeGame. intros H.
  pose proof (genRows_walled rnd O) as Hw0.
  pose proof (genRows_no_trap rnd O) as Hnt.
  destruct (genRows rnd (seqZ 0 HEIGHT) O) as [g0 k0]. cbn [fst] in *.
  apply bind_Some in H as ([g1 k1] & Ht & H).
  apply bind_Some in H as ([es k2] & He & H).
  apply bind_Some in H as ([[exitX exitY] k3] & Hx & [= <- <-]).
  apply placeTraps_spec in Ht as [Hw1 Hcount]; [|done].
  rewrite (countCells_zero _ g0) in Hcount by done.
  apply placeEnemies_spec in He.
  apply pickFree_spec in Hx as (Hint & Hnull & Hns).
  exists g1, es, exitX, exitY. split_and!; try done.
  apply cellAt_None_read; [|by apply isInterior_inGrid|done].
  apply clear_cells_walled; [done | apply startArea_interior].
Qed.

Lemma clearStart_walled g : walled g → walled (clearStart g).
Proof. intros. apply clear_cells_walled; [done | apply startArea_interior]. Qed.

Lemma initializeGame_WF rnd fuel w k : initializeGame rnd fuel = Some (w, k) → WF w.
Proof.
  intros H. apply initializeGame_inv in H
    as (g1 & es & ex & ey & Hw & _ & _ & Hint & _ & Hnull & ->).
  apply clearStart_walled in Hw as (Hd & _ & Hne).
  split; simpl.
  - by apply grid_dims_write.
  - done.
  - intros x y. destruct (decide ((x, y) = (ex, ey))) as [[= -> ->]|Hneq].
    + by rewrite (grid_read_write_eq _ _ _ _ _ Hnull).
    + rewrite grid_read_write_ne by done. intros Hr. by apply Hne in Hr.
  - intros x y. destruct (decide ((x, y) = (ex, ey))) as [[= -> ->]|Hneq].
    + by rewrite (grid_read_write_eq _ _ _ _ _ Hnull).
    + rewrite grid_read_write_ne by done. split.
      * intros Hr. by apply Hne in Hr.
      * intros (-> & -> & _). done.
Qed.

(** ** Every world of play satisfies the invariant *)

Lemma reachable_WF w : reachable w → WF w.
Proof.
  induction 1 as [rnd fuel w k Hinit | rnd k now key w w' k' _ IH Htick
                 | now w0 w w' _ _ _ IH Hload].
  - by eapply initializeGame_WF.
  - by eapply tick_WF.
  - by eapply loadGame_saveGame_WF.
Qed.

(** ** The detonation, direction by direction *)

(** C2: when a bomb detonates (and the player survives it; otherwise
    [gameOver] ends the process), in each of the four directions nothing
    is touched beyond three cells.  If the cell at [k] steps is the first
    one where the scan stops (the cells before it lie in the grid and hold
    no block), then: an indestructible block there is left as it is; a
    destructible block there is destroyed (the cell becomes empty), and
    the door becomes visible if the block stood on the door's cell, which
    is where the green block stands in a world that satisfies [WF], as
    every world of play does (lemma [reachable_WF]); in both cases every
    cell farther out keeps its occupant and its enemies. *)
Theorem explodeBomb_ray_halts b w w' dx dy k :
  explodeBomb b w = Survived w' →
  grid_dims (grid w) →
  cardinal dx dy →
  1 ≤ k ≤ 3 →
  (∀ j, 1 ≤ j < k → stopsAt (grid w) (b_x b + dx * j) (b_y b + dy * j) = false) →
  let cx i := b_x b + dx * i in
  let cy i := b_y b + dy * i in
  (∀ i, 3 < i → unaffected w w' (cx i) (cy i)) ∧
  (cellAt (grid w) (cy k) (cx k) = Some IndestructibleBlock →
     cellAt (grid w') (cy k) (cx k) = Some IndestructibleBlock ∧
     ∀ i, k < i → unaffected w w' (cx i) (cy i)) ∧
  (∀ green, cellAt (grid w) (cy k) (cx k) = Some (DestructibleBlock green) →
     cellAt (grid w') (cy k) (cx k) = None ∧
     ((cx k, cy k) = (d_x (exitDoor w), d_y (exitDoor w)) →
        visible (exitDoor w') = true) ∧
     (WF w → green = true → visible (exitDoor w') = true) ∧
     ∀ i, k < i → unaffected w w' (cx i) (cy i)).
Proof.
  intros H Hd Hc Hk Hpre cx cy. split; [|split].
  - intros i Hi. apply (explodeBomb_beyond b w w' dx dy i H Hc). by left.
  - intros Hcell. split.
    + apply cellAt_Some in Hcell.
      apply cellAt_read. by apply (explodeBomb_keepsSolid _ _ _ H).
    + intros i Hi. apply (explodeBomb_beyond b w w' dx dy i H Hc). right.
      exists k. split; [lia|]. unfold stopsAt. fold (cx k) (cy k).
      rewrite Hcell. simpl. by rewrite orb_true_r.
  - intros green Hcell.
    assert (Hin : inGrid (cx k) (cy k)).
    { apply cellAt_Some in Hcell. by eapply grid_dims_read_inv. }
    assert (Hsym : symbolIs (cellAt (grid w) (cy k) (cx k)) DESTRUCTIBLE_BLOCK = true)
      by by rewrite Hcell.
    destruct (explodeBomb_destroys b w w' dx dy k H Hc Hk Hpre Hsym Hin) as [Hnone Hvis].
    split; [done|]. split; [done|]. split.
    + intros [_ _ _ Hg] ->. apply Hvis.
      apply cellAt_Some, Hg in Hcell as (Hx & Hy & _).
      unfold cx, cy in *. congruence.
    + intros i Hi. apply (explodeBomb_beyond b w w' dx dy i H Hc). right.
      exists k. split; [lia|]. unfold stopsAt. fold (cx k) (cy k).
      rewrite Hcell. simpl. by rewrite orb_true_r.
Qed.

(** ** Bombs and capacity over a pass of the game loop *)

Lemma bombLoop_spec fuel now i w w' :
  bombLoop fuel now i w = Survived w' →
  (length (bombs w) - i ≤ fuel)%nat →
  bombs w' ≡ₚ take i (bombs w) ++ filter (notDue now) (drop i (bombs w)) ∧
  hasBombs (player w') + Z.of_nat (length (bombs w'))
  = hasBombs (player w) + Z.of_nat (length (bombs w)).
Proof.
  revert i w. induction fuel as [|fuel IH]; intros i w H Hfuel; simpl in H.
  - injection H as <-. rewrite drop_ge, take_ge, app_nil_r by lia. done.
  - destruct (bombs w !! i) as [b|] eqn:Hb.
    2:{ injection H as <-. apply lookup_ge_None in Hb.
        rewrite drop_ge, take_ge, app_nil_r by lia. done. }
    destruct (shouldExplode now b) eqn:Hdue.
    + destruct (explodeBomb b w) as [w1|] eqn:He; [|done].
      apply explodeBomb_rest in He as (Hbs & _ & _ & _ & Hcap).
      rewrite Hbs in H.
      destruct (swapRemove_lookup _ _ _ Hb) as (l1 & l2 & l2' & Heq & Hlen & Hsw & Hperm).
      pose proof (swapRemove_length _ _ _ Hb) as Hlen'.
      apply IH in H as [Hp Hsum]; simpl in *; [|lia].
      split; [|lia].
      rewrite Hp, Hsw, Heq, <- Hlen.
      rewrite !take_app_length, !drop_app_length.
      rewrite filter_cons_False by (unfold notDue; congruence).
      by rewrite Hperm.
    + apply IH in H as [Hp Hsum]; [|apply lookup_lt_Some in Hb; lia].
      split; [|done]. rewrite Hp.
      rewrite (take_S_r _ _ _ Hb), (drop_S _ _ _ Hb).
      rewrite filter_cons_True by done. by rewrite <- app_assoc.
Qed.

Lemma update_bombs rnd k now w w' k' :
  update rnd k now w = Some (Running w' k') →
  bombs w' ≡ₚ filter (notDue now) (bombs w) ∧
  hasBombs (player w') + bombCount w' = hasBombs (player w) + bombCount w.
Proof.
  intros H. apply update_Running in H as (es & _ & H).
  apply bombLoop_spec in H; [|simpl; lia]. simpl in H.
  rewrite drop_0 in H. done.
Qed.

(** [plantBomb] and a pass of the loop keep the sum of the capacity and the
    number of bombs; a new game starts with 3. *)
Lemma plantBomb_sum now w :
  hasBombs (player (plantBomb now w)) + bombCount (plantBomb now w)
  = hasBombs (player w) + bombCount w.
Proof.
  unfold plantBomb, bombCount. destruct (canPlantBomb (player w)); [|done].
  destruct (Z.of_nat (length (bombs w)) >=? NUM_BOMBS); [done|].
  simpl. rewrite length_app. simpl. lia.
Qed.

Lemma tick_sum rnd k now key w w' k' :
  tick rnd k now key w = Some (Running w' k') →
  hasBombs (player w') + bombCount w' = hasBombs (player w) + bombCount w.
Proof.
  intros H. apply tick_Running in H as (w1 & H & _ & _ & _ & Hkey).
  apply update_bombs in H as [_ ->].
  destruct Hkey as [-> | (Hb & _ & Hh)].
  - apply plantBomb_sum.
  - unfold bombCount. by rewrite Hb, Hh.
Qed.

Lemma initializeGame_sum rnd fuel w k :
  initializeGame rnd fuel = Some (w, k) →
  hasBombs (player w) + bombCount w = NUM_BOMBS.
Proof.
  intros H. apply initializeGame_inv in H as (? & ? & ? & ? & _ & _ & _ & _ & _ & _ & ->).
  done.
Qed.

(** C4: [shouldExplode] is false as long as less than 3000 ms have passed
    since the bomb was planted and true from 3000 ms on; and a pass of the
    game loop that the game survives keeps exactly the bombs that are not
    yet due at its clock reading: the others have detonated in it. *)
Theorem bomb_detonates_from_3000ms now b :
  (now - plantTime b < 3000 * NANOS_PER_MS → shouldExplode now b = false) ∧
  (3000 * NANOS_PER_MS ≤ now - plantTime b → shouldExplode now b = true) ∧
  (∀ rnd k w w' k',
     update rnd k now w = Some (Running w' k') →
     ∀ b', b' ∈ bombs w' ↔ b' ∈ bombs w ∧ now - plantTime b' < 3000 * NANOS_PER_MS).
Proof.
  split; [|split].
  - intros H. apply not_true_is_false. rewrite shouldExplode_true_iff. lia.
  - apply shouldExplode_true_iff.
  - intros rnd k w w' k' H b'. apply update_bombs in H as [Hp _].
    rewrite Hp, list_elem_of_filter. unfold notDue.
    rewrite <- not_true_iff_false, shouldExplode_true_iff. split; intros [? ?]; split; [done|lia|lia|done].
Qed.

(** ** Save and load *)

(** C5 (as amended): for every world of play, loading what [saveGame]
    wrote succeeds and gives back the player's position, the enemies in
    their order with their positions and patterns, the door with its
    position and visibility, the counter of planted bombs, the bombs'
    positions and the grid.  Not given back are the age of the fuses (every
    bomb is planted anew at the time of the load) and the enemies' update
    counters (which restart at 0). *)
Theorem load_save_round_trip w now w0 :
  reachable w →
  ∃ w',
    loadGame now (Some (saveGame w)) w0 = Some (true, w') ∧
    p_x (player w') = p_x (player w) ∧ p_y (player w') = p_y (player w) ∧
    enemies w' = map reloadedEnemy (enemies w) ∧
    exitDoor w' = exitDoor w ∧
    bombsPlanted w' = bombsPlanted w ∧
    bombs w' = map (reloadedBomb now) (bombs w) ∧
    grid w' = grid w.
Proof.
  intros Hr. apply reachable_WF in Hr.
  eexists. split; [by apply loadGame_saveGame|]. done.
Qed.

(** C6 (as amended): [loadGame] returns false exactly when the file cannot
    be opened, and then the world is left as it was.  When the file opens,
    the world before the load plays no part in the result, which is never
    false, whatever the file holds. *)
Theorem loadGame_false_only_without_file now w :
  loadGame now None w = Some (false, w) ∧
  (∀ file r, loadGame now (Some file) w = Some r →
     r.1 = true ∧ ∀ w2, loadGame now (Some file) w2 = Some r).
Proof.
  split; [done|]. intros file r H. split; [|done].
  unfold loadGame in H.
  repeat match type of H with
         | (_ ≫= _) = Some _ => apply bind_Some in H as (? & _ & H)
         | (let '(_, _) := ?p in _) = Some _ => destruct p
         | (if ?b then _ else _) = Some _ => destruct b; [done|]
         | None = Some _ => done
         end.
  by injection H as <-.
Qed.

(** ** The new game *)


(** ** The cell of the door *)

Lemma isExitCell_true c :
  isExitCell c = true ↔ c = Some ExitDoorRef ∨ c = Some (DestructibleBlock true).
Proof. destruct c as [[| [] | |]|]; simpl; naive_solver. Qed.

(** C9 (as amended): in every world of play at most one cell of the grid
    is marked for the door.  While the door is hidden it is exactly one,
    the green block on the door's cell; once the door is visible there is
    none: the door is kept beside the grid and the detonation leaves its
    cell empty. *)
Theorem one_exit_cell_while_hidden w :
  reachable w →
  (countCells isExitCell (grid w) ≤ 1)%nat ∧
  countCells isExitCell (grid w) = (if visible (exitDoor w) then 0 else 1)%nat ∧
  (visible (exitDoor w) = false →
     grid_read (grid w) (d_y (exitDoor w)) (d_x (exitDoor w))
     = Some (Some (DestructibleBlock true))) ∧
  (∀ x y, grid_read (grid w) y x = Some (Some (DestructibleBlock true)) →
     (x, y) = (d_x (exitDoor w), d_y (exitDoor w))) ∧
  (∀ x y, grid_read (grid w) y x ≠ Some (Some ExitDoorRef)).
Proof.
  intros Hr. apply reachable_WF in Hr as [Hd Hint Hnr Hg].
  assert (Hcount : countCells isExitCell (grid w)
                   = (if visible (exitDoor w) then 0 else 1)%nat);
    [|split_and!; [rewrite Hcount; destruct (visible (exitDoor w)); lia | done
                  | by intros; apply Hg | | done]].
  2:{ intros x y Hc. apply Hg in Hc as (-> & -> & _). done. }
  destruct (visible (exitDoor w)) eqn:Hv.
  - apply countCells_zero. intros x y c Hc. apply not_true_is_false.
    rewrite isExitCell_true. intros [-> | ->]; [by eapply Hnr|].
    apply Hg in Hc as (_ & _ & ?). done.
  - assert (Hex : grid_read (grid w) (d_y (exitDoor w)) (d_x (exitDoor w))
                  = Some (Some (DestructibleBlock true))) by by apply Hg.
    pose proof (countCells_write isExitCell _ _ _ None _ Hex) as Hc. simpl in Hc.
    rewrite countCells_zero in Hc; [lia|].
    intros x y c Hr. apply not_true_is_false. rewrite isExitCell_true.
    destruct (decide ((x, y) = (d_x (exitDoor w), d_y (exitDoor w)))) as [[= -> ->]|Hne].
    + rewrite (grid_read_write_eq _ _ _ _ _ Hex) in Hr. injection Hr as <-.
      naive_solver.
    + rewrite grid_read_write_ne in Hr by done.
      intros [-> | ->]; [by eapply Hnr|].
      apply Hg in Hr as (-> & -> & _). done.
Qed.

(** ** Where the player and the bombs stand *)

Lemma stopsAt_false g x y :
  grid_dims g →
  (stopsAt g x y = false ↔
   ∃ c, grid_read g y x = Some c ∧
        symbolIs c DESTRUCTIBLE_BLOCK = false ∧ symbolIs c INDESTRUCTIBLE_BLOCK = false).
Proof.
  intros Hd. unfold stopsAt. split.
  - intros H. apply orb_false_elim in H as [H Hi]. apply orb_false_elim in H as [Hin Hdb].
    assert (inGrid x y) as Hg by (unfold inGridb, inGrid in *; lia).
    destruct (grid_dims_read g x y Hd Hg) as [c Hc].
    rewrite (cellAt_read _ _ _ _ Hc) in *. eauto.
  - intros (c & Hc & Hdb & Hi).
    rewrite (cellAt_read _ _ _ _ Hc), Hdb, Hi.
    rewrite inGridb_true by by eapply grid_dims_read_inv. done.
Qed.

Lemma keepsSolid_stopsAt w w' x y :
  grid_dims (grid w) → grid_dims (grid w') → keepsSolid w w' →
  stopsAt (grid w) x y = false → stopsAt (grid w') x y = false.
Proof.
  intros Hd Hd' Hk H. apply stopsAt_false in H as (c & Hc & Hdb & Hi); [|done].
  apply stopsAt_false; [done|]. exists c. split_and!; [|done..]. by apply Hk.
Qed.

Lemma isValidMove_true_stopsAt g x y :
  grid_dims g → isValidMove g x y = Some true → stopsAt g x y = false.
Proof.
  intros Hd H. apply stopsAt_false; [done|]. unfold isValidMove in H.
  apply bind_Some in H as (lhs & Hl & H).
  destruct ((0 <? x) && (x <? WIDTH - 1) && (0 <? y) && (y <? HEIGHT - 1)) eqn:Hb.
  - apply bind_Some in Hl as (c & Hc & [= <-]). exists c. split; [done|].
    destruct c as [e|]; [|done]. simpl in H.
    rewrite Hc in H. simpl in H. injection H as H. by destruct e.
  - injection Hl as <-. apply bind_Some in H as (c & Hc & H).
    apply bind_Some in H as (e & -> & [= H]). exists (Some e). split; [done|].
    by destruct e.
Qed.

Lemma footing_same w w' :
  grid w' = grid w → p_x (player w') = p_x (player w) →
  p_y (player w') = p_y (player w) →
  Forall2 (λ b b', b_x b' = b_x b ∧ b_y b' = b_y b) (bombs w) (bombs w') →
  footing w → footing w'.
Proof.
  intros Hg Hx Hy Hb [Hp Hbs]. split; rewrite Hg, ?Hx, ?Hy; [done|].
  revert Hbs. induction Hb as [|b b' bs bs' [Hbx Hby] _ IH]; intros Hbs; [done|].
  apply Forall_cons in Hbs as [? ?]. constructor; [by rewrite Hbx, Hby | auto].
Qed.

Lemma blastCell_break_dims x y w w' :
  blastCell x y w = BlastBreak w' → grid_dims (grid w) → grid_dims (grid w').
Proof.
  intros Hb Hd.
  destruct (symbolIs (cellAt (grid w) y x) DESTRUCTIBLE_BLOCK) eqn:Hdb.
  - unfold blastCell in Hb. rewrite Hdb in Hb.
    destruct (_ || _) in Hb; injection Hb as <-; [done|].
    simpl. by apply grid_dims_write.
  - apply blastCell_break in Hb as (_ & _ & _ & _ & Hsame). by rewrite Hsame.
Qed.

Lemma scanRay_dims bx by_ dx dy steps w w' :
  scanRay bx by_ dx dy steps w = Survived w' → grid_dims (grid w) → grid_dims (grid w').
Proof.
  revert w. induction steps as [|i steps IH]; intros w H Hd; simpl in H.
  - by injection H as <-.
  - destruct (blastCell (bx + dx * i) (by_ + dy * i) w) as [w1|w1|] eqn:Hb; [| |done].
    + injection H as <-. by eapply blastCell_break_dims.
    + apply blastCell_next in Hb as (_ & -> & _). by apply (IH _ H).
Qed.

Lemma scanDirs_dims bx by_ ds w w' :
  scanDirs bx by_ ds w = Survived w' → grid_dims (grid w) → grid_dims (grid w').
Proof.
  revert w. induction ds as [|[dx dy] ds IH]; intros w H Hd.
  - by injection H as <-.
  - rewrite scanDirs_cons in H.
    destruct (scanRay bx by_ dx dy [1; 2; 3] w) as [w1|] eqn:Hr; [|done].
    eauto using scanRay_dims.
Qed.

Lemma explodeBomb_dims b w w' :
  explodeBomb b w = Survived w' → grid_dims (grid w) → grid_dims (grid w').
Proof.
  intros H Hd. apply explodeBomb_Survived in H as (w2 & H & ->). simpl.
  by eapply scanDirs_dims.
Qed.

Lemma bombLoop_footing fuel now i w w' :
  bombLoop fuel now i w = Survived w' →
  grid_dims (grid w) → footing w → footing w'.
Proof.
  revert i w. induction fuel as [|fuel IH]; intros i w H Hd Hf; simpl in H.
  - by injection H as <-.
  - destruct (bombs w !! i) as [b|] eqn:Hb; [|by injection H as <-].
    destruct (shouldExplode now b); [|eauto].
    destruct (explodeBomb b w) as [w1|] eqn:He; [|done].
    pose proof (explodeBomb_dims _ _ _ He Hd) as Hd1.
    pose proof (explodeBomb_keepsSolid _ _ _ He) as Hk.
    pose proof (explodeBomb_rest _ _ _ He) as (Hbs & _ & Hx & Hy & _).
    apply (IH _ _ H); [done|]. destruct Hf as [Hp Hall]. split; simpl.
    + rewrite Hx, Hy. by apply (keepsSolid_stopsAt w w1).
    + rewrite Hbs.
      destruct (swapRemove_lookup _ _ _ Hb) as (l1 & l2 & l2' & Heq & _ & -> & Hperm).
      rewrite Heq in Hall. apply Forall_app in Hall as [H1 H2].
      apply Forall_cons in H2 as [_ H2]. rewrite <- Hperm in H2.
      apply Forall_app. split; (eapply Forall_impl; [eassumption|]);
        intros b' Hb'; by apply (keepsSolid_stopsAt w w1).
Qed.

Lemma tick_footing rnd k now key w w' k' :
  tick rnd k now key w = Some (Running w' k') → WF w → footing w → footing w'.
Proof.
  unfold tick. intros H Hwf Hf. apply bind_Some in H as (w1 & Hkey & H).
  assert (Hd : grid_dims (grid w)) by apply Hwf.
  assert (Hf1 : footing w1 ∧ grid w1 = grid w).
  { assert (Hmove : ∀ dx dy, movePlayer dx dy w = Some w1 → footing w1 ∧ grid w1 = grid w).
    { intros dx dy Hm. unfold movePlayer in Hm.
      apply bind_Some in Hm as (ok & Hok & [= <-]). destruct ok; [|done].
      split; [|done]. destruct Hf as [_ Hall]. split; simpl; [|done].
      by apply isValidMove_true_stopsAt. }
    destruct key; eauto; injection Hkey as <-; [|done..].
    unfold plantBomb. destruct (canPlantBomb (player w)); [|done].
    destruct (bombCount w >=? NUM_BOMBS); [done|].
    split; [|done]. destruct Hf as [Hp Hall]. split; simpl; [done|].
    apply Forall_app. split; [done|]. by constructor. }
  destruct Hf1 as [Hf1 Hg1].
  apply update_Running in H as (es & _ & H).
  apply bombLoop_footing in H; [done | simpl; by rewrite Hg1 |].
  destruct Hf1. by split.
Qed.

Lemma initializeGame_footing rnd fuel w k :
  initializeGame rnd fuel = Some (w, k) → footing w.
Proof.
  intros H.
  pose proof (initializeGame_WF _ _ _ _ H) as [Hd _ _ _].
  apply initializeGame_inv in H
    as (g1 & es & ex & ey & Hw & _ & _ & _ & Hns & _ & ->).
  split; simpl in *; [|done].
  apply stopsAt_false; [done|]. exists None. split; [|done].
  rewrite grid_read_write_ne by congruence.
  rewrite clearStart_read; [by rewrite decide_True | apply Hw | done].
Qed.

(** In every world of play the player and the bombs are on cells of the
    grid without a block: a bomb is planted under the player, who enters
    only cells that [isValidMove] accepts, and no block is ever added. *)
Lemma reachable_footing w : reachable w → footing w.
Proof.
  induction 1 as [rnd fuel w k Hinit | rnd k now key w w' k' Hr IH Htick
                 | now w0 w w' _ _ Hr IH Hload].
  - by eapply initializeGame_footing.
  - eapply tick_footing; eauto using reachable_WF.
  - rewrite loadGame_saveGame in Hload by by apply reachable_WF.
    injection Hload as <-. apply (footing_same w); simpl; try done.
    clear. induction (bombs w); constructor; auto.
Qed.


(** ** The rejection loops and their bound *)

(** The bound on the passes of a rejection loop only cuts the loop short:
    a larger one gives the same result. *)
Lemma pickFree_fuel_mono fuel fuel' rnd k g r :
  pickFree fuel rnd k g = Some r → (fuel ≤ fuel')%nat → pickFree fuel' rnd k g = Some r.
Proof.
  revert fuel' k. induction fuel as [|fuel IH]; intros fuel' k H Hle; [done|].
  destruct fuel' as [|fuel']; [lia|]. simpl in *.
  destruct (negb (isNull (cellAt g _ _)) || _); [|done].
  apply IH; [done | lia].
Qed.

Lemma placeTraps_fuel_mono fuel fuel' rnd n k g r :
  placeTraps fuel rnd n k g = Some r → (fuel ≤ fuel')%nat →
  placeTraps fuel' rnd n k g = Some r.
Proof.
  revert k g. induction n as [|n IH]; intros k g H Hle; [done|]. simpl in *.
  apply bind_Some in H as ([[x y] k1] & Hp & H).
  rewrite (pickFree_fuel_mono _ _ _ _ _ _ Hp Hle). simpl. by apply IH.
Qed.

Lemma placeEnemies_fuel_mono fuel fuel' rnd idx k g r :
  placeEnemies fuel rnd idx k g = Some r → (fuel ≤ fuel')%nat →
  placeEnemies fuel' rnd idx k g = Some r.
Proof.
  revert k r. induction idx as [|i idx IH]; intros k r H Hle; [done|]. simpl in *.
  apply bind_Some in H as ([[x y] k1] & Hp & H).
  apply bind_Some in H as (r1 & Hr & H).
  rewrite (pickFree_fuel_mono _ _ _ _ _ _ Hp Hle). simpl.
  rewrite (IH _ _ Hr Hle). done.
Qed.

Lemma initializeGame_fuel_mono fuel fuel' rnd r :
  initializeGame rnd fuel = Some r → (fuel ≤ fuel')%nat →
  initializeGame rnd fuel' = Some r.
Proof.
  unfold initializeGame. intros H Hle.
  destruct (genRows rnd (seqZ 0 HEIGHT) O) as [g0 k0].
  apply bind_Some in H as ([g1 k1] & Ht & H).
  apply bind_Some in H as (r1 & He & H).
  apply bind_Some in H as ([[exitX exitY] k3] & Hx & H).
  rewrite (placeTraps_fuel_mono _ _ _ _ _ _ _ Ht Hle). cbn [mbind option_bind].
  rewrite (placeEnemies_fuel_mono _ _ _ _ _ _ _ He Hle). cbn [mbind option_bind].
  rewrite (pickFree_fuel_mono _ _ _ _ _ _ Hx Hle). done.
Qed.

(** ** The capacity in a game that was never loaded *)

Lemma new_game_capacity_sum rnd fuel w0 k0 rnd' inputs w k :
  initializeGame rnd fuel = Some (w0, k0) →
  runTicks rnd' k0 inputs w0 = Some (Running w k) →
  hasBombs (player w) + bombCount w = NUM_BOMBS.
Proof.
  intros Hinit. apply initializeGame_sum in Hinit. revert Hinit.
  generalize k0 w0. clear. induction inputs as [|[now key] inputs IH]; intros k0 w0 Hsum H.
  - simpl in H. by injection H as <- _.
  - simpl in H. destruct (tick rnd' k0 now key w0) as [[w1 k1| |]|] eqn:Ht; try done.
    apply (IH k1 w1); [|done]. by rewrite (tick_sum _ _ _ _ _ _ _ Ht).
Qed.

(** ** The game played out *)

Lemma runTicks_reachable rnd k inputs w w' k' :
  reachable w → runTicks rnd k inputs w = Some (Running w' k') → reachable w'.
Proof.
  revert k w. induction inputs as [|[now key] inputs IH]; intros k w Hr H; simpl in H.
  - by injection H as <- _.
  - destruct (tick rnd k now key w) as [[w1 k1| |]|] eqn:Ht; try done.
    eapply IH; [|exact H]. by eapply reach_tick.
Qed.

Lemma demoStart_new : initializeGame demoRnd 1 = Some demoStart.
Proof. vm_compute. reflexivity. Qed.

Lemma demoStart_reachable : reachable demoStart.1.
Proof.
  apply (reach_new demoRnd 1 demoStart.1 demoStart.2).
  rewrite demoStart_new. by destruct demoStart.
Qed.

Lemma demoWaited_reachable : reachable demoWaited.1.
Proof.
  apply (runTicks_reachable demoRnd demoStart.2 [(0, KeyNone)] demoStart.1 _ demoWaited.2);
    [apply demoStart_reachable|]. vm_compute. reflexivity.
Qed.

Lemma demoPlanted_reachable : reachable demoPlanted.1.
Proof.
  apply (runTicks_reachable demoRnd demoStart.2 [(0, KeySpace)] demoStart.1 _ demoPlanted.2);
    [apply demoStart_reachable|]. vm_compute. reflexivity.
Qed.

Lemma demoEnd_reachable : reachable demoEnd.1.
Proof.
  apply (runTicks_reachable demoRnd demoStart.2 demoInputs demoStart.1 _ demoEnd.2);
    [apply demoStart_reachable|]. vm_compute. reflexivity.
Qed.

Lemma demoReloaded_reachable : reachable demoReloaded.1.
Proof.
  set (s := afterLoad (50 * MS) (saveGame demoPlanted.1) demoStart).
  apply (runTicks_reachable demoRnd s.2 [(100 * MS, KeyNone)] s.1 _ demoReloaded.2).
  - apply (reach_load (50 * MS) demoStart.1 demoPlanted.1);
      [apply demoStart_reachable | apply demoPlanted_reachable |].
    vm_compute. reflexivity.
  - vm_compute. reflexivity.
Qed.

(** *** C1 *)

(** The call for the cell right of the grid in row 5. *)
Lemma isValidMove_outside_grid_witness : isValidMove (grid demoStart.1) 60 5 = None.
Proof.
  apply isValidMove_outside_grid_undefined.
  - apply (bool_decide_unpack _). vm_compute. exact I.
  - unfold inGrid, WIDTH, HEIGHT. lia.
Defined.

(** *** C2 *)

(** The bomb of (1,1) and the green block below it, on (1,2). *)
Lemma explodeBomb_ray_halts_witness :
  cellAt (grid demoBlast) 2 1 = None ∧ visible (exitDoor demoBlast) = true.
Proof.
  assert (H1 : explodeBomb demoBomb demoBefore.1 = Survived demoBlast)
    by (vm_compute; reflexivity).
  assert (H2 : grid_dims (grid demoBefore.1))
    by (apply (bool_decide_unpack _); vm_compute; exact I).
  assert (H3 : cardinal 0 1) by (right; right; left; reflexivity).
  assert (H4 : 1 ≤ 1 ≤ 3) by lia.
  assert (H5 : ∀ j, 1 ≤ j < 1 →
            stopsAt (grid demoBefore.1) (b_x demoBomb + 0 * j) (b_y demoBomb + 1 * j) = false)
    by (intros j Hj; lia).
  destruct (explodeBomb_ray_halts demoBomb demoBefore.1 demoBlast 0 1 1 H1 H2 H3 H4 H5)
    as (_ & _ & Hd).
  destruct (Hd true) as (Hnone & Hvis & _); [vm_compute; reflexivity|].
  split; [exact Hnone|]. apply Hvis. vm_compute. reflexivity.
Defined.

(** *** C3 *)

(** C3: the sum of the capacity and the number of bombs is not 3 in the
    game that was saved with a bomb planted and loaded again: [loadGame]
    gives the new player the full capacity and restores the bomb, and the
    passes of the loop keep the sum of 4. *)
Theorem capacity_sum_after_load :
  reachable demoPlanted.1 ∧
  hasBombs (player demoPlanted.1) + bombCount demoPlanted.1 = 3 ∧
  reachable demoReloaded.1 ∧
  hasBombs (player demoReloaded.1) + bombCount demoReloaded.1 = 4.
Proof.
  split_and!.
  - apply demoPlanted_reachable.
  - vm_compute. reflexivity.
  - apply demoReloaded_reachable.
  - vm_compute. reflexivity.
Qed.

(** *** C4 *)

Lemma bomb_detonates_from_3000ms_witness :
  shouldExplode (2999 * MS) demoBomb = false ∧ shouldExplode (3000 * MS) demoBomb = true.
Proof.
  destruct (bomb_detonates_from_3000ms (2999 * MS) demoBomb) as (Hearly & _ & _).
  destruct (bomb_detonates_from_3000ms (3000 * MS) demoBomb) as (_ & Hdue & _).
  split.
  - apply Hearly. vm_compute. reflexivity.
  - apply Hdue. vm_compute. discriminate.
Defined.

(** *** C5 *)

(** The enemies of the world saved have counted one update; loaded, they
    start at 0 again, while the player is the same. *)
Lemma load_save_loses_enemy_counters :
  reachable demoWaited.1 ∧
  ∃ w', loadGame (50 * MS) (Some (saveGame demoWaited.1)) demoStart.1 = Some (true, w') ∧
        player w' = player demoWaited.1 ∧
        enemies w' ≠ enemies demoWaited.1 ∧
        ¬ onlyFuseAgeLost demoWaited.1 w'.
Proof.
  split; [apply demoWaited_reachable|].
  exists (afterLoad (50 * MS) (saveGame demoWaited.1) demoStart).1.
  assert (Hne : enemies (afterLoad (50 * MS) (saveGame demoWaited.1) demoStart).1
                ≠ enemies demoWaited.1).
  { vm_compute. discriminate. }
  split_and!.
  - vm_compute. reflexivity.
  - vm_compute. reflexivity.
  - exact Hne.
  - intros (_ & _ & He & _). by apply Hne.
Qed.

Lemma load_save_round_trip_witness :
  ∃ w', loadGame (50 * MS) (Some (saveGame demoWaited.1)) demoStart.1 = Some (true, w') ∧
        grid w' = grid demoWaited.1 ∧ exitDoor w' = exitDoor demoWaited.1.
Proof.
  destruct (load_save_round_trip demoWaited.1 (50 * MS) demoStart.1 demoWaited_reachable)
    as (w' & Hload & _ & _ & _ & Hexit & _ & _ & Hgrid).
  exists w'. split; [exact Hload|]. split; [exact Hgrid | exact Hexit].
Defined.

(** *** C6 *)

(** The file lacks the last cell of the last row and the newline after
    it: [loadGame] returns true, and the world is the one of the file with
    that cell empty, not the world from before the load. *)
Lemma loadGame_truncated_file_returns_true :
  (length demoTruncated < length (saveGame demoStart.1))%nat ∧
  demoTruncated `prefix_of` saveGame demoStart.1 ∧
  ∃ w', loadGame 0 (Some demoTruncated) demoWaited.1 = Some (true, w') ∧
        w' ≠ demoWaited.1 ∧
        grid_read (grid w') 29 59 = Some None ∧
        grid_read (grid demoWaited.1) 29 59 = Some (Some IndestructibleBlock).
Proof.
  split; [vm_compute; lia|]. split; [apply prefix_take|].
  exists (afterLoad 0 demoTruncated demoWaited).1.
  assert (H1 : grid_read (grid (afterLoad 0 demoTruncated demoWaited).1) 29 59 = Some None)
    by (vm_compute; reflexivity).
  assert (H2 : grid_read (grid demoWaited.1) 29 59 = Some (Some IndestructibleBlock))
    by (vm_compute; reflexivity).
  split_and!; [vm_compute; reflexivity | | done | done].
  intros Heq. rewrite Heq in H1. congruence.
Qed.

Lemma loadGame_false_only_without_file_witness :
  loadGame 0 None demoWaited.1 = Some (false, demoWaited.1) ∧
  (true, (afterLoad 0 demoTruncated demoWaited).1).1 = true.
Proof.
  destruct (loadGame_false_only_without_file 0 demoWaited.1) as [Hmissing Hopen].
  split; [exact Hmissing|].
  apply (Hopen demoTruncated). vm_compute. reflexivity.
Defined.

(** *** C7 *)



(** *** C8 *)


(** *** C9 *)

(** After the detonation that uncovers the door no cell of the grid is
    marked for it. *)
Lemma no_exit_cell_once_visible :
  reachable demoEnd.1 ∧
  visible (exitDoor demoEnd.1) = true ∧
  countCells isExitCell (grid demoEnd.1) = 0%nat ∧
  countCells isExitCell (grid demoEnd.1) ≠ 1%nat.
Proof.
  assert (H0 : countCells isExitCell (grid demoEnd.1) = 0%nat) by (vm_compute; reflexivity).
  split; [apply demoEnd_reachable|]. split; [vm_compute; reflexivity|].
  split; [exact H0|]. rewrite H0. discriminate.
Qed.

Lemma one_exit_cell_while_hidden_witness :
  countCells isExitCell (grid demoStart.1) = 1%nat.
Proof.
  destruct (one_exit_cell_while_hidden demoStart.1 demoStart_reachable) as (_ & Hcount & _).
  exact Hcount.
Defined.

(** *** C10 *)


(** * What play keeps, and the rest of the program *)

(** ** Erosion of the grid *)

Lemma erodes_refl g : erodes g g.
Proof. intros x y. by left. Qed.

Lemma erodes_trans g1 g2 g3 : erodes g1 g2 → erodes g2 g3 → erodes g1 g3.
Proof.
  intros H12 H23 x y.
  destruct (H23 x y) as [E23|[D23 E23]], (H12 x y) as [E12|[D12 E12]].
  - left. congruence.
  - right. split; [done|congruence].
  - right. split; [|done]. unfold cellAt in *. by rewrite <- E12.
  - unfold cellAt in D23. by rewrite E12 in D23.
Qed.

Lemma erodes_keeps g g' x y c :
  erodes g g' → grid_read g y x = Some c → symbolIs c DESTRUCTIBLE_BLOCK = false →
  grid_read g' y x = Some c.
Proof.
  intros He Hc Hd. destruct (He x y) as [E|[D _]]; [congruence|].
  unfold cellAt in D. rewrite Hc in D. simpl in D. congruence.
Qed.

Lemma erodes_walls g g' : erodes g g' → walls g → walls g'.
Proof.
  intros He Hw x y Hb. apply (erodes_keeps g); [done|by apply Hw|done].
Qed.

Lemma erodes_emptyAt g g' x y : erodes g g' → emptyAt g x y → emptyAt g' x y.
Proof.
  intros He [Hi Hc]. split; [done|]. by apply (erodes_keeps g).
Qed.

Lemma erodes_enemyFits g g' e : erodes g g' → enemyFits g e → enemyFits g' e.
Proof.
  intros He (Hi & Hs & Ht & Hc). do 3 (split; [done|]).
  destruct Hc as [Hc|[Hc|Hc]].
  - left. by apply (erodes_keeps g).
  - right; left. by apply (erodes_keeps g).
  - destruct (He (e_x e) (e_y e)) as [E|[_ E]]; [|by left].
    right; right. congruence.
Qed.

Lemma eliminateEnemy_submseteq x y es : eliminateEnemy x y es ⊆+ es.
Proof.
  unfold eliminateEnemy. destruct (list_find (enemyAt x y) es) as [[j e]|] eqn:Hf; [|done].
  apply list_find_Some in Hf as (Hj & _ & _).
  destruct (swapRemove_lookup _ _ _ Hj) as (l1 & l2 & l2' & -> & _ & -> & Hperm).
  apply submseteq_skips_l. rewrite Hperm. by apply submseteq_cons.
Qed.

Lemma blastCell_break_erodes x y w w' :
  blastCell x y w = BlastBreak w' → erodes (grid w) (grid w').
Proof.
  intros Hb.
  destruct (symbolIs (cellAt (grid w) y x) DESTRUCTIBLE_BLOCK) eqn:Hd.
  2:{ apply blastCell_break in Hb as (_ & _ & _ & _ & Hsame).
      rewrite Hsame by done. apply erodes_refl. }
  unfold blastCell in Hb.
  destruct ((x <? 0) || (x >=? WIDTH) || (y <? 0) || (y >=? HEIGHT)) eqn:Hout.
  { injection Hb as <-. apply erodes_refl. }
  rewrite Hd in Hb. injection Hb as <-. simpl.
  intros x' y'. destruct (decide ((x', y') = (x, y))) as [[= -> ->]|Hne].
  - right. split; [done|].
    destruct (cellAt (grid w) y x) as [e|] eqn:Hc; [|done].
    apply cellAt_Some in Hc. by rewrite (grid_read_write_eq _ _ _ _ _ Hc).
  - left. by rewrite grid_read_write_ne.
Qed.

Lemma blastFrame_refl w : blastFrame w w.
Proof. unfold blastFrame. split_and!; try done. apply erodes_refl. Qed.

Lemma blastFrame_trans w1 w2 w3 : blastFrame w1 w2 → blastFrame w2 w3 → blastFrame w1 w3.
Proof.
  intros (A1 & A2 & A3 & A4 & A5 & A6 & A7 & A8) (B1 & B2 & B3 & B4 & B5 & B6 & B7 & B8).
  unfold blastFrame. split_and!; try congruence; eauto using erodes_trans.
  by etrans.
Qed.

Lemma scanRay_frame bx by_ dx dy steps w w' :
  scanRay bx by_ dx dy steps w = Survived w' → blastFrame w w'.
Proof.
  revert w. induction steps as [|i steps IH]; intros w H; simpl in H.
  - injection H as <-. apply blastFrame_refl.
  - destruct (blastCell (bx + dx * i) (by_ + dy * i) w) as [w1|w1|] eqn:Hb; [| |done].
    + injection H as <-.
      pose proof (blastCell_break_erodes _ _ _ _ Hb) as He.
      apply blastCell_break in Hb as (_ & (Hp & _ & Hn & Hx & Hy & Hv & _) & Hes & _).
      unfold blastFrame. rewrite Hp, Hes. by split_and!.
    + apply (blastFrame_trans _ w1); [|by apply IH].
      apply blastCell_next in Hb as (_ & -> & _). unfold blastFrame. simpl.
      split_and!; try done; [apply erodes_refl | apply eliminateEnemy_submseteq].
Qed.

Lemma scanDirs_frame bx by_ ds w w' :
  scanDirs bx by_ ds w = Survived w' → blastFrame w w'.
Proof.
  revert w. induction ds as [|[dx dy] ds IH]; intros w H.
  - injection H as <-. apply blastFrame_refl.
  - rewrite scanDirs_cons in H.
    destruct (scanRay bx by_ dx dy [1; 2; 3] w) as [w1|] eqn:Hr; [|done].
    eauto using blastFrame_trans, scanRay_frame.
Qed.

Lemma explodeBomb_frame b w w' : explodeBomb b w = Survived w' → blastFrame w w'.
Proof.
  intros H. apply explodeBomb_Survived in H as (w2 & H & ->).
  apply scanDirs_frame in H. exact H.
Qed.

Lemma bombLoop_frame fuel now i w w' :
  bombLoop fuel now i w = Survived w' → blastFrame w w'.
Proof.
  revert i w. induction fuel as [|fuel IH]; intros i w H; simpl in H.
  - injection H as <-. apply blastFrame_refl.
  - destruct (bombs w !! i) as [b|] eqn:Hb; [|injection H as <-; apply blastFrame_refl].
    destruct (shouldExplode now b); [|eauto].
    destruct (explodeBomb b w) as [w1|] eqn:He; [|done].
    apply (blastFrame_trans _ w1); [by eapply explodeBomb_frame|].
    apply IH in H. exact H.
Qed.

(** ** The enemies *)

Lemma Enemy_update_step rnd k e :
  enemyStep e (Enemy_update rnd k e).1 ∧
  moveStep (Enemy_update rnd k e).1 = nextStep e.
Proof.
  unfold Enemy_update, nextStep, enemyStep.
  destruct (moveStep e =? 10) eqn:Hs; simpl; [|split_and!; (done || lia)].
  pose proof (rand_rem_4 rnd k) as Hr.
  rewrite (stepX_cases _ Hr), (stepY_cases _ Hr).
  destruct (Z.rem (rand rnd k) 4 <=? 1);
    destruct (moveType e) as [|[[]|[]|]|]; simpl; split_and!; try done; lia.
Qed.

Lemma symbolIs_TRAP c : symbolIs c TRAP = true → c = Some Trap.
Proof. by destruct c as [[| | |]|]. Qed.

Lemma isNull_true c : isNull c = true → c = None.
Proof. by destruct c. Qed.

(** A cell next to an interior cell is read inside the grid; it is an
    interior cell or a cell of the wall. *)
Lemma neighbour_read g x y dx dy :
  grid_dims g → walls g → isInterior x y → -1 ≤ dx ≤ 1 → -1 ≤ dy ≤ 1 →
  ∃ c, grid_read g (y + dy) (x + dx) = Some c ∧
       isValidMove g (x + dx) (y + dy) = Some (isNull c || symbolIs c TRAP) ∧
       (isNull c || symbolIs c TRAP = true → isInterior (x + dx) (y + dy)).
Proof.
  intros Hd Hw Hi Hdx Hdy.
  assert (Hin : inGrid (x + dx) (y + dy))
    by (unfold isInterior, inGrid, WIDTH, HEIGHT in *; lia).
  destruct (grid_dims_read _ _ _ Hd Hin) as [c Hc]. exists c. split; [done|].
  assert (Hcase : isInterior (x + dx) (y + dy) ∨ ¬ isInterior (x + dx) (y + dy))
    by (unfold isInterior; lia).
  destruct Hcase as [Hint|Hout].
  - split; [|done]. by apply isValidMove_interior.
  - assert (Hb : isBorder (x + dx) (y + dy)).
    { split; [done|]. unfold isInterior, inGrid in *. lia. }
    rewrite (Hw _ _ Hb) in Hc. injection Hc as <-.
    split; [|done]. rewrite (isValidMove_border _ _ _ IndestructibleBlock); [done|done|by apply Hw].
Qed.

Lemma moveEnemies_fits rnd k g es :
  grid_dims g → walls g → Forall (enemyFits g) es →
  ∃ es' k', moveEnemies rnd k g es = Some (es', k') ∧
            Forall (enemyFits g) es' ∧
            Forall2 (λ e e', enemyStep e e' ∧ moveStep e' = nextStep e) es es'.
Proof.
  intros Hd Hw. revert k. induction es as [|e es IH]; intros k Hall.
  - exists [], k. by split_and!.
  - apply Forall_cons in Hall as [He Hall]. simpl.
    pose proof (Enemy_update_step rnd k e) as [Hstep Hcount].
    destruct (Enemy_update rnd k e) as [e1 k1]. simpl in Hstep, Hcount.
    destruct (IH k1 Hall) as (es' & k' & -> & Hfit & Hrel).
    destruct He as (Hi & Hs & Ht & Hc).
    destruct Hstep as (Hty & Hdx & Hdy & H0 & H1 & H2).
    destruct (neighbour_read g (e_x e) (e_y e) (e_x e1 - e_x e) (e_y e1 - e_y e))
      as (c & Hread & Hvalid & Hint); [done..|].
    replace (e_x e + (e_x e1 - e_x e)) with (e_x e1) in * by lia.
    replace (e_y e + (e_y e1 - e_y e)) with (e_y e1) in * by lia.
    rewrite Hvalid. simpl.
    assert (Hnext : 0 ≤ nextStep e ≤ 10)
      by (unfold nextStep; destruct (moveStep e =? 10) eqn:?; lia).
    destruct (isNull c || symbolIs c TRAP) eqn:Hok.
    + eexists _, _. split; [done|].
      split; (constructor; [|done]); [|done].
      split; [by apply Hint|]. split; [by rewrite Hcount|]. split; [by rewrite Hty|].
      apply orb_true_iff in Hok as [Hn|Htr].
      * left. apply isNull_true in Hn. by rewrite Hread, Hn.
      * right; left. apply symbolIs_TRAP in Htr. by rewrite Hread, Htr.
    + eexists _, _. split; [done|]. unfold Enemy_move.
      replace (e_x e1 + (e_x e - e_x e1)) with (e_x e) by lia.
      replace (e_y e1 + (e_y e - e_y e1)) with (e_y e) by lia.
      split; (constructor; [|done]).
      * split; [done|]. simpl. split; [by rewrite Hcount|]. split; [by rewrite Hty|].
        done.
      * split; [|done]. unfold enemyStep. simpl. split_and!; (done || lia).
Qed.

(** Without the invariant: whenever the loop over the enemies returns. *)
Lemma moveEnemies_steps rnd k g es es' k' :
  moveEnemies rnd k g es = Some (es', k') →
  Forall2 (λ e e', enemyStep e e' ∧ moveStep e' = nextStep e ∧
                   ((e_x e', e_y e') = (e_x e, e_y e) ∨
                    isValidMove g (e_x e') (e_y e') = Some true)) es es'.
Proof.
  revert k es' k'. induction es as [|e es IH]; intros k es' k' H; simpl in H.
  - injection H as <- <-. constructor.
  - pose proof (Enemy_update_step rnd k e) as [Hstep Hcount].
    destruct (Enemy_update rnd k e) as [e1 k1]. simpl in Hstep, Hcount.
    apply bind_Some in H as (ok & Hok & H).
    apply bind_Some in H as ([r kr] & Hr & [= <- <-]).
    constructor; [|eauto]. simpl. destruct ok.
    + split_and!; try done. by right.
    + destruct Hstep as (Hty & Hdx & Hdy & H0 & H1 & H2).
      unfold Enemy_move, enemyStep. simpl. split_and!; try (done || lia).
      left. f_equal; lia.
Qed.

(** ** Where the player, the bombs and the enemies stand *)

(** *** The new game *)

Lemma placeEnemies_free fuel rnd idx k g es k' :
  placeEnemies fuel rnd idx k g = Some (es, k') →
  Forall (λ i, 0 ≤ i) idx →
  Forall (λ e, isInterior (e_x e) (e_y e) ∧ cellAt g (e_y e) (e_x e) = None ∧
               moveStep e = 0 ∧ 0 ≤ moveType e ≤ 2) es.
Proof.
  revert k es. induction idx as [|i idx IH]; intros k es H Hidx; simpl in H.
  - injection H as <- <-. constructor.
  - apply Forall_cons in Hidx as [Hi Hidx].
    apply bind_Some in H as ([[x y] k1] & Hp & H).
    apply bind_Some in H as ([r kr] & Hr & [= <- <-]).
    apply pickFree_spec in Hp as (Hint & Hnull & _).
    constructor; [|eauto]. simpl. split_and!; try done.
    + by apply Z.rem_nonneg.
    + pose proof (Z.rem_bound_pos i 3 Hi). lia.
Qed.

Lemma initializeGame_placed rnd fuel w k :
  initializeGame rnd fuel = Some (w, k) → placed w.
Proof.
  unfold initializeGame. intros H.
  pose proof (genRows_walled rnd O) as Hw0.
  destruct (genRows rnd (seqZ 0 HEIGHT) O) as [g0 k0]. cbn [fst] in *.
  apply bind_Some in H as ([g1 k1] & Ht & H).
  apply bind_Some in H as ([es k2] & He & H).
  apply bind_Some in H as ([[exitX exitY] k3] & Hx & [= <- <-]).
  apply placeTraps_spec in Ht as [Hw1 _]; [|done].
  apply placeEnemies_free in He; [|apply Forall_forall; intros i Hi; apply elem_of_seqZ in Hi; lia].
  apply pickFree_spec in Hx as (Hint & Hnull & Hns).
  pose proof (clearStart_walled _ Hw1) as (Hd2 & Hb2 & _).
  destruct Hw1 as (Hd1 & _ & _).
  assert (Hexit : grid_read (clearStart g1) exitY exitX = Some None).
  { apply cellAt_None_read; [done|by apply isInterior_inGrid|done]. }
  split; simpl.
  - intros x y Hb. rewrite grid_read_write_ne; [by apply Hb2|].
    intros [= -> ->]. by apply (isInterior_not_border exitX exitY).
  - split; [unfold isInterior, WIDTH, HEIGHT; lia|].
    rewrite grid_read_write_ne by congruence.
    rewrite clearStart_read; [|done|unfold inGrid, WIDTH, HEIGHT; lia].
    rewrite decide_True; [done|unfold inStartArea; lia].
  - done.
  - eapply Forall_impl; [exact He|]. intros e (Hi & Hc & Hs & Hty).
    split; [done|]. split; [lia|]. split; [done|].
    destruct (decide ((e_x e, e_y e) = (exitX, exitY))) as [[= -> ->]|Hne].
    + right; right. by rewrite (grid_read_write_eq _ _ _ _ _ Hexit).
    + left. rewrite grid_read_write_ne by done.
      rewrite clearStart_read; [|done|by apply isInterior_inGrid].
      case_decide; [done|].
      apply cellAt_None_read; [done|by apply isInterior_inGrid|done].
Qed.

(** *** The keys *)

Lemma movePlayer_placed dx dy w :
  grid_dims (grid w) → walls (grid w) → isInterior (p_x (player w)) (p_y (player w)) →
  -1 ≤ dx ≤ 1 → -1 ≤ dy ≤ 1 →
  ∃ c, grid_read (grid w) (p_y (player w) + dy) (p_x (player w) + dx) = Some c ∧
       movePlayer dx dy w =
         Some (if isNull c || symbolIs c TRAP
               then withPlayer w (Player_move dx dy (player w)) else w) ∧
       (isNull c || symbolIs c TRAP = true →
        isInterior (p_x (player w) + dx) (p_y (player w) + dy) ∧
        (c = None ∨ c = Some Trap)).
Proof.
  intros Hd Hw Hi Hdx Hdy.
  destruct (neighbour_read _ _ _ _ _ Hd Hw Hi Hdx Hdy) as (c & Hc & Hv & Hint).
  exists c. split; [done|]. split.
  - unfold movePlayer. rewrite Hv. done.
  - intros Hok. split; [by apply Hint|].
    apply orb_true_iff in Hok as [Hn|Ht];
      [left; by apply isNull_true | right; by apply symbolIs_TRAP].
Qed.

Lemma tick_keyAction rnd k now key w :
  tick rnd k now key w = (w1 ← keyAction now key w; update rnd k now w1).
Proof. by destruct key. Qed.

Lemma keyAction_placed now key w :
  grid_dims (grid w) → placed w →
  ∃ w1, keyAction now key w = Some w1 ∧ afterKey w w1.
Proof.
  intros Hd [Hw [Hi Hc] Hbs Hes].
  assert (Hstay : afterKey w w) by (unfold afterKey; split_and!; auto).
  assert (Hmove : ∀ dx dy, -1 ≤ dx ≤ 1 → -1 ≤ dy ≤ 1 →
            ∃ w1, movePlayer dx dy w = Some w1 ∧ afterKey w w1).
  { intros dx dy Hdx Hdy.
    destruct (movePlayer_placed dx dy w Hd Hw Hi Hdx Hdy) as (c & Hr & -> & Hok).
    eexists. split; [done|]. destruct (isNull c || symbolIs c TRAP); [|done].
    destruct Hok as [Hint Hcase]; [done|].
    unfold afterKey. simpl. split_and!; try done.
    rewrite Hr. destruct Hcase as [-> | ->]; auto. }
  destruct key; simpl; try (apply Hmove; lia); try by eexists.
  eexists. split; [done|]. unfold plantBomb.
  destruct (canPlantBomb (player w)); [|done].
  destruct (bombCount w >=? NUM_BOMBS); [done|].
  unfold afterKey. simpl. split_and!; auto.
  apply Forall_app. split; [done|]. by constructor.
Qed.

(** *** [update] *)

Lemma update_checks rnd k now w w' k' :
  update rnd k now w = Some (Running w' k') →
  playerCaught w = false ∧
  ∃ c, grid_read (grid w) (p_y (player w)) (p_x (player w)) = Some c ∧
       symbolIs c TRAP = false.
Proof.
  unfold update. intros H.
  destruct (playerCaught w); [done|]. split; [done|].
  apply bind_Some in H as (c & Hc & H). exists c. split; [done|].
  by destruct (symbolIs c TRAP).
Qed.

Lemma update_frame rnd k now w w' k' :
  update rnd k now w = Some (Running w' k') →
  ∃ es, moveEnemies rnd k (grid w) (enemies w) = Some (es, k') ∧
        blastFrame (mkGame (grid w) (player w) es (bombs w) (exitDoor w) (bombsPlanted w)) w'.
Proof.
  intros H. apply update_Running in H as (es & Hm & Hb).
  exists es. split; [done|]. by eapply bombLoop_frame.
Qed.

Lemma Forall_submseteq {A} (P : A → Prop) (l l' : list A) :
  l' ⊆+ l → Forall P l → Forall P l'.
Proof.
  intros Hsub Hall. apply Forall_forall. intros x Hx.
  rewrite Forall_forall in Hall. apply Hall. by eapply elem_of_submseteq.
Qed.

Lemma update_defined rnd k now w w1 :
  grid_dims (grid w) → placed w → afterKey w w1 →
  ∃ o, update rnd k now w1 = Some o.
Proof.
  intros Hd [Hw _ _ Hes] (Hg & He & _ & Hi & Hc & _).
  unfold update. destruct (playerCaught w1); [by eexists|].
  rewrite Hg, He.
  assert (∃ c, grid_read (grid w) (p_y (player w1)) (p_x (player w1)) = Some c)
    as [c ->] by (destruct Hc; eauto).
  simpl. destruct (symbolIs c TRAP); [by eexists|].
  destruct (moveEnemies_fits rnd k (grid w) (enemies w) Hd Hw Hes) as (es & k' & -> & _).
  simpl. destruct (bombLoop _ _ _ _) as [w2|]; [|by eexists].
  destruct (_ && _); by eexists.
Qed.

Lemma update_placed rnd k now w w1 w' k' :
  grid_dims (grid w) → placed w → afterKey w w1 →
  update rnd k now w1 = Some (Running w' k') → placed w'.
Proof.
  intros Hd [Hw _ _ Hes] (Hg & He & _ & Hi & Hc & Hbs) H.
  pose proof (update_checks _ _ _ _ _ _ H) as (_ & c & Hr & Htrap).
  pose proof (update_bombs _ _ _ _ _ _ H) as [Hperm _].
  apply update_frame in H as (es & Hm & Hf).
  destruct Hf as (Her & Hsub & _ & _ & _ & Hx & Hy & _). simpl in *.
  rewrite Hg in *. rewrite He in Hm.
  destruct (moveEnemies_fits rnd k (grid w) (enemies w) Hd Hw Hes)
    as (es0 & k0 & Hm0 & Hfit & _).
  rewrite Hm in Hm0. injection Hm0 as <- <-.
  split.
  - by apply (erodes_walls (grid w)).
  - rewrite Hx, Hy. apply (erodes_emptyAt (grid w)); [done|]. split; [done|].
    destruct Hc as [Hc|Hc]; [done|]. rewrite Hc in Hr. injection Hr as <-. done.
  - rewrite Hperm. apply Forall_forall. intros b Hb.
    apply list_elem_of_filter in Hb as [_ Hb].
    rewrite Forall_forall in Hbs. apply (erodes_emptyAt (grid w)); auto.
  - apply (Forall_submseteq _ es); [done|].
    eapply Forall_impl; [exact Hfit|]. intros e. by apply erodes_enemyFits.
Qed.

Lemma tick_defined_placed rnd k now key w :
  grid_dims (grid w) → placed w → ∃ o, tick rnd k now key w = Some o.
Proof.
  intros Hd Hp. rewrite tick_keyAction.
  destruct (keyAction_placed now key w Hd Hp) as (w1 & -> & Hk). simpl.
  by eapply update_defined.
Qed.

Lemma tick_placed rnd k now key w w' k' :
  tick rnd k now key w = Some (Running w' k') → grid_dims (grid w) → placed w → placed w'.
Proof.
  intros H Hd Hp. rewrite tick_keyAction in H.
  destruct (keyAction_placed now key w Hd Hp) as (w1 & Hk & Hka).
  rewrite Hk in H. simpl in H. by eapply update_placed.
Qed.

Lemma reachable_placed w : reachable w → placed w.
Proof.
  induction 1 as [rnd fuel w k Hinit | rnd k now key w w' k' Hr IH Htick
                 | now w0 w w' _ _ Hr IH Hload].
  - by eapply initializeGame_placed.
  - eapply tick_placed; [done| |done]. by apply reachable_WF.
  - rewrite loadGame_saveGame in Hload by by apply reachable_WF.
    injection Hload as <-. destruct IH as [Hw Hp Hbs Hes]. split; simpl; try done.
    + clear -Hbs. induction Hbs; constructor; auto.
    + clear -Hes. induction Hes; constructor; auto.
      unfold enemyFits in *. simpl. naive_solver lia.
Qed.

(** ** The bomb counters *)

Lemma plantBomb_stocked now w : stocked w → stocked (plantBomb now w).
Proof.
  unfold stocked, plantBomb, canPlantBomb, bombCount. intros Hs.
  destruct (0 <? hasBombs (player w)) eqn:Hc; [|done].
  destruct (_ >=? NUM_BOMBS) eqn:Hn; [done|].
  simpl. rewrite length_app. simpl. unfold NUM_BOMBS in *. lia.
Qed.

Lemma filter_length_le {A} (P : A → Prop) `{∀ x, Decision (P x)} (l : list A) :
  (length (filter P l) ≤ length l)%nat.
Proof. apply length_filter. Qed.

Lemma update_stocked rnd k now w w' k' :
  update rnd k now w = Some (Running w' k') → stocked w → stocked w'.
Proof.
  intros H Hs.
  pose proof (update_bombs _ _ _ _ _ _ H) as [Hperm Hsum].
  apply update_frame in H as (es & _ & Hf).
  destruct Hf as (_ & _ & _ & _ & _ & _ & _ & Hpl). simpl in Hpl.
  assert (Hlen : bombCount w' ≤ bombCount w).
  { unfold bombCount. rewrite Hperm.
    pose proof (filter_length_le (notDue now) (bombs w)). lia. }
  unfold stocked in *. rewrite Hpl. lia.
Qed.

Lemma tick_stocked rnd k now key w w' k' :
  tick rnd k now key w = Some (Running w' k') → stocked w → stocked w'.
Proof.
  intros H Hs. apply tick_Running in H as (w1 & Hu & _ & _ & _ & Hcase).
  apply (update_stocked _ _ _ _ _ _ Hu).
  destruct Hcase as [-> | (Hb & Hp & Hh)]; [by apply plantBomb_stocked|].
  unfold stocked, bombCount in *. by rewrite Hb, Hp, Hh.
Qed.

Lemma reachable_stocked w : reachable w → stocked w.
Proof.
  induction 1 as [rnd fuel w k Hinit | rnd k now key w w' k' Hr IH Htick
                 | now w0 w w' _ _ Hr IH Hload].
  - apply initializeGame_inv in Hinit as (g1 & es & ex & ey & _ & _ & _ & _ & _ & _ & ->).
    unfold stocked, bombCount, NUM_BOMBS. simpl. lia.
  - by eapply tick_stocked.
  - rewrite loadGame_saveGame in Hload by by apply reachable_WF.
    injection Hload as <-. unfold stocked, bombCount, NUM_BOMBS in *. simpl.
    rewrite length_map. lia.
Qed.

(** ** The number of enemies *)

Lemma tick_enemies rnd k now key w w' k' :
  tick rnd k now key w = Some (Running w' k') →
  ∃ es, moveEnemies rnd k (grid w) (enemies w) = Some (es, k') ∧ enemies w' ⊆+ es.
Proof.
  intros H. apply tick_Running in H as (w1 & Hu & Hg & _ & He & _).
  apply update_frame in Hu as (es & Hm & Hf). rewrite Hg, He in Hm.
  exists es. split; [done|]. apply Hf.
Qed.

Lemma tick_enemyCount rnd k now key w w' k' :
  tick rnd k now key w = Some (Running w' k') → enemyCount w' ≤ enemyCount w.
Proof.
  intros H. apply tick_enemies in H as (es & Hm & Hsub).
  apply moveEnemies_length in Hm. apply submseteq_length in Hsub.
  unfold enemyCount. lia.
Qed.

Lemma reachable_enemyCount w : reachable w → enemyCount w ≤ (HEIGHT + WIDTH) / 10.
Proof.
  induction 1 as [rnd fuel w k Hinit | rnd k now key w w' k' Hr IH Htick
                 | now w0 w w' _ _ Hr IH Hload].
  - apply initializeGame_inv in Hinit as (g1 & es & ex & ey & _ & _ & Hes & _ & _ & _ & ->).
    apply Forall2_length in Hes. rewrite length_seqZ in Hes.
    unfold enemyCount. simpl. change ((HEIGHT + WIDTH) / 10) with 9 in *. lia.
  - apply tick_enemyCount in Htick. lia.
  - rewrite loadGame_saveGame in Hload by by apply reachable_WF.
    injection Hload as <-. unfold enemyCount in *. simpl. by rewrite length_map.
Qed.

(** ** Properties of every world of play *)

(** X1: the wall around the grid is never breached.  In every world of
    play the grid has HEIGHT rows of WIDTH cells and every cell of row 0,
    row HEIGHT-1, column 0 and column WIDTH-1 holds an indestructible
    block: [initializeGame] builds the wall, [explodeBomb] deletes
    destructible blocks only, and [loadGame] reads back what [saveGame]
    wrote. *)
Theorem border_wall_stands w :
  reachable w →
  grid_dims (grid w) ∧
  ∀ x y, isBorder x y → grid_read (grid w) y x = Some (Some IndestructibleBlock).
Proof.
  intros Hr. split.
  - apply reachable_WF in Hr. apply Hr.
  - apply reachable_placed in Hr. apply Hr.
Qed.

(** X2: in every world of play the player stands on an interior cell of
    the grid that holds nothing, and so does every planted bomb.  (A
    player who has stepped on a trap does not survive the pass: [update]
    ends the game before it returns.) *)
Theorem player_and_bombs_on_empty_cells w :
  reachable w →
  (isInterior (p_x (player w)) (p_y (player w)) ∧
   grid_read (grid w) (p_y (player w)) (p_x (player w)) = Some None) ∧
  ∀ b, b ∈ bombs w →
       isInterior (b_x b) (b_y b) ∧ grid_read (grid w) (b_y b) (b_x b) = Some None.
Proof.
  intros Hr. apply reachable_placed in Hr as [_ Hp Hbs _]. split; [exact Hp|].
  intros b Hb. rewrite Forall_forall in Hbs. by apply Hbs.
Qed.

(** X3: in every world of play there are at most (HEIGHT+WIDTH)/10
    enemies; each is strictly inside the wall, has its counter between 0
    and 10 and its pattern between 0 and 2, and stands on a cell that is
    empty, a trap, or the green block that hides the door (which
    [initializeGame] may put on an enemy): no enemy is ever inside
    another block. *)
Theorem enemies_stay_in_the_open w :
  reachable w →
  enemyCount w ≤ (HEIGHT + WIDTH) / 10 ∧
  ∀ e, e ∈ enemies w →
       isInterior (e_x e) (e_y e) ∧ 0 ≤ moveStep e ≤ 10 ∧ 0 ≤ moveType e ≤ 2 ∧
       (grid_read (grid w) (e_y e) (e_x e) = Some None ∨
        grid_read (grid w) (e_y e) (e_x e) = Some (Some Trap) ∨
        grid_read (grid w) (e_y e) (e_x e) = Some (Some (DestructibleBlock true))).
Proof.
  intros Hr. split; [by apply reachable_enemyCount|].
  apply reachable_placed in Hr as [_ _ _ Hes].
  intros e He. rewrite Forall_forall in Hes. by apply Hes.
Qed.

(** X4: a pass of the game loop from a world of play never reads the grid
    outside its arrays and never calls through a null cell: [tick] has a
    result for every key, clock reading and random stream, and so has any
    number of passes.  (The player and the enemies are inside the wall,
    so the cells that [isValidMove] and [update] read are cells of the
    grid, and the border cells, where [isValidMove] calls [getSymbol]
    without a test, hold a block.) *)
Theorem game_loop_reads_in_bounds w :
  reachable w →
  (∀ rnd k now key, ∃ o, tick rnd k now key w = Some o) ∧
  (∀ rnd inputs k, ∃ o, runTicks rnd k inputs w = Some o).
Proof.
  intros Hr.
  assert (Hone : ∀ w, reachable w → ∀ rnd k now key, ∃ o, tick rnd k now key w = Some o).
  { intros w1 Hr1 rnd k now key. apply tick_defined_placed.
    - apply reachable_WF in Hr1. apply Hr1.
    - by apply reachable_placed. }
  split; [by apply Hone|].
  intros rnd inputs. revert w Hr.
  induction inputs as [|[now key] inputs IH]; intros w Hr k; simpl.
  - by eexists.
  - destruct (Hone w Hr rnd k now key) as [o Ho]. rewrite Ho.
    destruct o as [w' k'| |]; [|by eexists..].
    apply IH. by eapply reach_tick.
Qed.

(** X5: [movePlayer] in a world of play, for a step of at most one cell
    each way: the target cell is a cell of the grid; the player moves
    there when it is empty or a trap, and then it is an interior cell;
    otherwise (a block, the wall) the world stays as it is. *)
Theorem movePlayer_steps_or_stays w dx dy :
  reachable w → -1 ≤ dx ≤ 1 → -1 ≤ dy ≤ 1 →
  ∃ c, grid_read (grid w) (p_y (player w) + dy) (p_x (player w) + dx) = Some c ∧
       ((c = None ∨ c = Some Trap) →
          movePlayer dx dy w = Some (withPlayer w (Player_move dx dy (player w))) ∧
          isInterior (p_x (player w) + dx) (p_y (player w) + dy)) ∧
       (c ≠ None → c ≠ Some Trap → movePlayer dx dy w = Some w).
Proof.
  intros Hr Hdx Hdy.
  pose proof (reachable_WF _ Hr) as [Hd _ _ _].
  pose proof (reachable_placed _ Hr) as [Hw [Hi _] _ _].
  destruct (movePlayer_placed dx dy w Hd Hw Hi Hdx Hdy) as (c & Hc & Hm & Hok).
  exists c. split; [done|]. split.
  - intros Hcase.
    assert (Ht : isNull c || symbolIs c TRAP = true) by (by destruct Hcase as [-> | ->]).
    rewrite Ht in Hm. split; [done|]. by apply Hok.
  - intros Hn Ht.
    assert (Hf : isNull c || symbolIs c TRAP = false).
    { destruct (isNull c || symbolIs c TRAP) eqn:E; [|done].
      destruct (Hok eq_refl) as [_ [?|?]]; done. }
    by rewrite Hf in Hm.
Qed.

(** X6: a step onto a trap is accepted and always fatal.  When the cell
    that a movement key leads to holds a trap, [isValidMove] lets the
    player enter it and the [update] of the same pass ends the game:
    caught by an enemy when one stands on that cell, on the trap
    otherwise. *)
Theorem step_on_trap_ends_game rnd k now key dx dy w :
  keyStep key dx dy →
  grid_read (grid w) (p_y (player w) + dy) (p_x (player w) + dx) = Some (Some Trap) →
  movePlayer dx dy w = Some (withPlayer w (Player_move dx dy (player w))) ∧
  tick rnd k now key w =
    Some (GameOver (if playerCaught (withPlayer w (Player_move dx dy (player w)))
                    then "Player was caught by an enemy!"
                    else "Player stepped on a trap!")).
Proof.
  intros Hkey Hc.
  assert (Hv : isValidMove (grid w) (p_x (player w) + dx) (p_y (player w) + dy) = Some true).
  { assert (Hcase : isInterior (p_x (player w) + dx) (p_y (player w) + dy) ∨
                    ¬ isInterior (p_x (player w) + dx) (p_y (player w) + dy))
      by (unfold isInterior; lia).
    destruct Hcase as [Hi|Hi].
    - by rewrite (isValidMove_interior _ _ _ _ Hi Hc).
    - by rewrite (isValidMove_border _ _ _ _ Hi Hc). }
  assert (Hm : movePlayer dx dy w = Some (withPlayer w (Player_move dx dy (player w)))).
  { unfold movePlayer. by rewrite Hv. }
  split; [done|].
  assert (Hk : keyAction now key w = movePlayer dx dy w).
  { by destruct Hkey as [[= -> -> ->]|[[= -> -> ->]|[[= -> -> ->]|[= -> -> ->]]]]. }
  rewrite tick_keyAction, Hk, Hm. simpl. unfold update.
  destruct (playerCaught _); [done|]. simpl. by rewrite Hc.
Qed.

(** ** Passes of the loop *)

Lemma update_GameWin rnd k now w :
  update rnd k now w = Some GameWin →
  playerCaught w = false ∧
  ∃ es k' w2,
    moveEnemies rnd k (grid w) (enemies w) = Some (es, k') ∧
    bombLoop (length (bombs w)) now 0
      (mkGame (grid w) (player w) es (bombs w) (exitDoor w) (bombsPlanted w))
    = Survived w2 ∧
    (p_x (player w2), p_y (player w2)) = (d_x (exitDoor w2), d_y (exitDoor w2)) ∧
    visible (exitDoor w2) = true.
Proof.
  unfold update. intros H.
  destruct (playerCaught w); [done|]. split; [done|].
  apply bind_Some in H as (c & Hc & H).
  destruct (symbolIs c TRAP); [done|].
  apply bind_Some in H as ([es k'] & Hm & H). simpl in H.
  destruct (bombLoop _ _ _ _) as [w2|] eqn:Hb; [|done].
  destruct (_ && _) eqn:Hwin; [|done].
  exists es, k', w2. split; [done|]. split; [done|].
  apply andb_true_iff in Hwin as [Hwin Hv]. apply andb_true_iff in Hwin as [Hx Hy].
  split; [f_equal; lia|done].
Qed.

(** X7: the game is won only through a door that was visible before the
    pass.  When a pass from a world of play ends with [gameWin], the door
    was visible at its start, the player's key has brought (or left) the
    player on the door's cell, and no enemy stood there when [update]
    began: the detonation that uncovers the door never wins the game in
    the same pass, since the player cannot stand on the block that hides
    it. *)
Theorem win_needs_door_visible_before rnd k now key w :
  reachable w →
  tick rnd k now key w = Some GameWin →
  visible (exitDoor w) = true ∧
  ∃ w1, keyAction now key w = Some w1 ∧
        (p_x (player w1), p_y (player w1)) = (d_x (exitDoor w), d_y (exitDoor w)) ∧
        playerCaught w1 = false.
Proof.
  intros Hr H.
  pose proof (reachable_WF _ Hr) as [Hd _ _ Hgreen].
  pose proof (reachable_placed _ Hr) as Hp.
  rewrite tick_keyAction in H.
  destruct (keyAction_placed now key w Hd Hp) as (w1 & Hk & Hka).
  rewrite Hk in H. simpl in H.
  apply update_GameWin in H as (Hnc & es & k' & w2 & _ & Hb & Hpos & Hv).
  apply bombLoop_frame in Hb as (_ & _ & Hx & Hy & _ & Hpx & Hpy & _). simpl in *.
  destruct Hka as (_ & _ & He & _ & Hc & _).
  rewrite Hpx, Hpy, Hx, Hy, He in Hpos.
  assert (Hvis : visible (exitDoor w) = true).
  { destruct (visible (exitDoor w)) eqn:Hvw; [done|]. exfalso.
    injection Hpos as Hpx' Hpy'. rewrite Hpx', Hpy' in Hc.
    assert (Hg : grid_read (grid w) (d_y (exitDoor w)) (d_x (exitDoor w))
                 = Some (Some (DestructibleBlock true))) by by apply Hgreen.
    rewrite Hg in Hc. by destruct Hc. }
  split; [done|]. by exists w1.
Qed.

(** X8: the bounds of the bomb counters in every world of play, a load
    of a saved game included: the capacity is never negative, never more
    than NUM_BOMBS bombs are planted at a time, capacity and planted bombs
    together are at least NUM_BOMBS and at most twice NUM_BOMBS, and the
    counter [bombsPlanted] is at least the number of planted bombs. *)
Theorem bomb_counters_bounded w :
  reachable w →
  0 ≤ hasBombs (player w) ∧
  0 ≤ bombCount w ≤ NUM_BOMBS ∧
  NUM_BOMBS ≤ hasBombs (player w) + bombCount w ≤ 2 * NUM_BOMBS ∧
  bombCount w ≤ bombsPlanted w.
Proof.
  intros Hr. apply reachable_stocked in Hr as (H1 & H2 & H3 & H4).
  unfold bombCount in *. lia.
Qed.

Lemma shouldExplode_fresh now x y : shouldExplode now (mkBomb x y now) = false.
Proof. unfold shouldExplode. simpl. by rewrite Z.sub_diag. Qed.

(** X9: what the space key does in a pass that the player survives.
    With capacity left and fewer than NUM_BOMBS bombs planted, the counter
    [bombsPlanted] grows by one and the world after the pass holds a bomb
    on the player's cell whose fuse starts at the clock reading of the
    pass.  In every other case the counter stays and no bomb is added. *)
Theorem space_key_plants_one_bomb rnd k now key w w' k' :
  tick rnd k now key w = Some (Running w' k') →
  (key = KeySpace ∧ 0 < hasBombs (player w) ∧ bombCount w < NUM_BOMBS →
     bombsPlanted w' = bombsPlanted w + 1 ∧
     mkBomb (p_x (player w)) (p_y (player w)) now ∈ bombs w') ∧
  (¬ (key = KeySpace ∧ 0 < hasBombs (player w) ∧ bombCount w < NUM_BOMBS) →
     bombsPlanted w' = bombsPlanted w ∧ ∀ b, b ∈ bombs w' → b ∈ bombs w).
Proof.
  intros H. rewrite tick_keyAction in H. apply bind_Some in H as (w1 & Hk & H).
  pose proof (update_bombs _ _ _ _ _ _ H) as [Hperm _].
  apply update_frame in H as (es & _ & Hf).
  destruct Hf as (_ & _ & _ & _ & _ & _ & _ & Hpl). simpl in Hpl.
  assert (Hin : ∀ b, b ∈ bombs w' ↔ b ∈ bombs w1 ∧ notDue now b).
  { intros b. rewrite Hperm. by rewrite list_elem_of_filter, (comm and). }
  split.
  - intros (-> & Hcap & Hcount). simpl in Hk. injection Hk as <-.
    unfold plantBomb, canPlantBomb in *.
    assert (Hc : (0 <? hasBombs (player w)) = true) by lia.
    assert (Hn : (bombCount w >=? NUM_BOMBS) = false) by lia.
    rewrite Hc, Hn in *. simpl in *. split; [done|].
    apply Hin. split; [apply elem_of_app; right; by constructor|].
    apply shouldExplode_fresh.
  - intros Hnot.
    assert (Hsame : bombs w1 = bombs w ∧ bombsPlanted w1 = bombsPlanted w).
    { destruct key; simpl in Hk;
        try (by apply movePlayer_same in Hk as (_ & _ & _ & ? & ? & _));
        try (by injection Hk as <-).
      injection Hk as <-. unfold plantBomb, canPlantBomb.
      destruct (0 <? hasBombs (player w)) eqn:Hc; [|done].
      destruct (bombCount w >=? NUM_BOMBS) eqn:Hn; [done|].
      exfalso. apply Hnot. split_and!; [done|lia..]. }
    destruct Hsame as [Hb Hp]. rewrite Hpl, Hp. split; [done|].
    intros b Hbin. apply Hin in Hbin as [? _]. by rewrite <- Hb.
Qed.

(** X10: the slots of the array [bombs].  In a game that
    [initializeGame] began, [plantBomb] stays inside the array: its test
    [bombCount >= NUM_BOMBS] keeps the index below the NUM_BOMBS slots.
    [loadGame] allocates [bombCount] slots only and gives the player the
    full capacity, so the first bomb planted after a load of fewer than
    NUM_BOMBS bombs is written beyond the end of the array (undefined);
    with NUM_BOMBS bombs or more loaded, nothing is planted. *)
Theorem plantBomb_slots now :
  (∀ w, plantBombIn slotsOfNewGame now w = Some (plantBomb now w)) ∧
  (∀ t file w0 w',
     loadGame t (Some file) w0 = Some (true, w') →
     plantBombIn (slotsOfLoad w') now w'
     = if bombCount w' <? NUM_BOMBS then None else Some w').
Proof.
  split.
  - intros w. unfold plantBombIn, plantBomb, slotsOfNewGame.
    destruct (canPlantBomb (player w)); [|done].
    destruct (bombCount w >=? NUM_BOMBS) eqn:Hn; [done|].
    assert (Hlt : (bombCount w <? NUM_BOMBS) = true) by lia. by rewrite Hlt.
  - intros t file w0 w' H.
    assert (Hcap : hasBombs (player w') = NUM_BOMBS).
    { unfold loadGame in H.
      repeat (first
        [ apply bind_Some in H as ([? ?] & _ & H)
        | apply bind_Some in H as (? & _ & H)
        | match type of H with (if ?c then _ else _) = _ => destruct c; [done|] end ]).
      by injection H as <-. }
    unfold plantBombIn, slotsOfLoad, canPlantBomb. rewrite Hcap. simpl.
    destruct (bombCount w' >=? NUM_BOMBS) eqn:Hn.
    + assert (Hlt : (bombCount w' <? NUM_BOMBS) = false) by lia. by rewrite Hlt.
    + assert (Hlt : (bombCount w' <? NUM_BOMBS) = true) by lia. rewrite Hlt.
      by rewrite Z.ltb_irrefl.
Qed.

Lemma symbolIs_DESTRUCTIBLE c :
  symbolIs c DESTRUCTIBLE_BLOCK = true → ∃ green, c = Some (DestructibleBlock green).
Proof. destruct c as [[|green| |]|]; try done. by exists green. Qed.

Lemma tick_frame rnd k now key w w' k' :
  tick rnd k now key w = Some (Running w' k') →
  erodes (grid w) (grid w') ∧
  d_x (exitDoor w') = d_x (exitDoor w) ∧ d_y (exitDoor w') = d_y (exitDoor w) ∧
  (visible (exitDoor w) = true → visible (exitDoor w') = true).
Proof.
  intros H. apply tick_Running in H as (w1 & Hu & Hg & He & _ & _).
  apply update_frame in Hu as (es & _ & Hf).
  destruct Hf as (Her & _ & Hx & Hy & Hv & _). simpl in *.
  by rewrite Hg, He in *.
Qed.

(** X11: what a pass of the game loop can change in the map.  A cell of
    the grid is after the pass what it was before, unless it held a
    destructible block and is empty now: no block, wall or trap is ever
    added, and no trap and no indestructible block is ever removed.  The
    exit door keeps its position, and once visible it stays visible. *)
Theorem pass_only_removes_destructible_blocks rnd k now key w w' k' :
  tick rnd k now key w = Some (Running w' k') →
  (∀ x y,
     grid_read (grid w') y x = grid_read (grid w) y x ∨
     ((∃ green, grid_read (grid w) y x = Some (Some (DestructibleBlock green))) ∧
      grid_read (grid w') y x = Some None)) ∧
  (∀ x y, grid_read (grid w') y x = Some (Some Trap) ↔
          grid_read (grid w) y x = Some (Some Trap)) ∧
  (∀ x y, grid_read (grid w') y x = Some (Some IndestructibleBlock) ↔
          grid_read (grid w) y x = Some (Some IndestructibleBlock)) ∧
  (d_x (exitDoor w'), d_y (exitDoor w')) = (d_x (exitDoor w), d_y (exitDoor w)) ∧
  (visible (exitDoor w) = true → visible (exitDoor w') = true).
Proof.
  intros H. apply tick_frame in H as (Her & Hx & Hy & Hv).
  assert (Hcell : ∀ x y,
     grid_read (grid w') y x = grid_read (grid w) y x ∨
     ((∃ green, grid_read (grid w) y x = Some (Some (DestructibleBlock green))) ∧
      grid_read (grid w') y x = Some None)).
  { intros x y. destruct (Her x y) as [E|[D E]]; [by left|]. right. split; [|done].
    apply symbolIs_DESTRUCTIBLE in D as [green D]. exists green. by apply cellAt_Some. }
  split; [done|].
  split; [|split; [|split; [congruence|done]]].
  - intros x y. destruct (Hcell x y) as [->|[[green E] E']]; [done|].
    rewrite E, E'. split; intros [=].
  - intros x y. destruct (Hcell x y) as [->|[[green E] E']]; [done|].
    rewrite E, E'. split; intros [=].
Qed.

(** X12: every enemy keeps to its line.  In one pass of the loop over the
    enemies an enemy moves by at most one cell each way and keeps its
    pattern; an enemy of pattern 0 keeps its row, one of pattern 1 its
    column, and one of pattern 2 the sum of its coordinates (the same
    random number gives both steps, so it moves up-right or down-left
    only); the counter goes from 10 to 0 and grows by one otherwise; and
    the enemy is on a new cell only when [isValidMove] accepts that cell.
    Every enemy in the world after a pass of the game loop comes from an
    enemy of the world before it in this way. *)
Theorem enemies_keep_to_their_lines rnd k :
  (∀ g es es' k',
     moveEnemies rnd k g es = Some (es', k') →
     Forall2 (λ e e', enemyStep e e' ∧ moveStep e' = nextStep e ∧
                      ((e_x e', e_y e') = (e_x e, e_y e) ∨
                       isValidMove g (e_x e') (e_y e') = Some true)) es es') ∧
  (∀ now key w w' k',
     tick rnd k now key w = Some (Running w' k') →
     ∀ e', e' ∈ enemies w' → ∃ e, e ∈ enemies w ∧ enemyStep e e' ∧ moveStep e' = nextStep e).
Proof.
  split; [intros g es es' k'; apply moveEnemies_steps|].
  intros now key w w' k' H e' He'.
  apply tick_enemies in H as (es & Hm & Hsub).
  apply moveEnemies_steps in Hm.
  apply (elem_of_submseteq _ _ _ He') in Hsub.
  apply list_elem_of_lookup in Hsub as [i Hi].
  destruct (Forall2_lookup_r _ _ _ _ _ Hm Hi) as (e & He & Hstep & Hcount & _).
  exists e. split; [|done]. apply list_elem_of_lookup. by exists i.
Qed.

(** ** The reach of a detonation *)

Lemma rays_apart bx by_ (d d' : Z * Z) i j :
  d ∈ directions → d' ∈ directions → d ≠ d' → 1 ≤ i → 1 ≤ j →
  rayCell bx by_ d.1 d.2 i ≠ rayCell bx by_ d'.1 d'.2 j.
Proof.
  rewrite directions_eq. unfold rayCell. intros Hd Hd' Hne Hi Hj [= Hx Hy].
  set_unfold.
  destruct Hd as [-> | [-> | [-> | [-> | [-> | []]]]]];
    destruct Hd' as [-> | [-> | [-> | [-> | [-> | []]]]]]; simpl in *;
    try done; lia.
Qed.

Lemma onRay_onCross bx by_ (d : Z * Z) x y :
  d ∈ directions → onRay bx by_ d.1 d.2 x y → onCross bx by_ x y.
Proof.
  rewrite directions_eq. unfold onRay, rayCell, onCross.
  intros Hd (i & Hi & Heq). injection Heq as -> ->. set_unfold.
  destruct Hd as [-> | [-> | [-> | [-> | [-> | []]]]]]; simpl; lia.
Qed.

Lemma scanRay_fatal bx by_ dx dy steps w :
  scanRay bx by_ dx dy steps w = BlownUp ↔
  ∃ pre i post,
    steps = pre ++ i :: post ∧
    (p_x (player w), p_y (player w)) = rayCell bx by_ dx dy i ∧
    Forall (λ j, stopsAt (grid w) (bx + dx * j) (by_ + dy * j) = false) (pre ++ [i]).
Proof.
  revert w. induction steps as [|i steps IH]; intros w; simpl.
  - split; [done|]. intros (pre & i & post & Heq & _). by destruct pre.
  - destruct (blastCell (bx + dx * i) (by_ + dy * i) w) as [w1|w1|] eqn:Hb.
    + apply blastCell_break in Hb as (Hstop & _).
      split; [done|]. intros (pre & i' & post & Heq & _ & Hall). exfalso.
      destruct pre as [|j pre]; simpl in *; injection Heq as <- _;
        apply Forall_cons in Hall as [Hall _]; congruence.
    + apply blastCell_next in Hb as (Hstop & -> & Hne). rewrite IH. simpl.
      split.
      * intros (pre & i' & post & -> & Hp & Hall).
        exists (i :: pre), i', post. split_and!; try done. by constructor.
      * intros (pre & i' & post & Heq & Hp & Hall).
        destruct pre as [|j pre]; simpl in *; injection Heq as <- ->.
        -- done.
        -- apply Forall_cons in Hall as [_ Hall]. by exists pre, i', post.
    + apply blastCell_fatal in Hb as [Hstop Hp].
      split; [|done]. intros _. exists [], i, steps. split_and!; try done.
      by constructor.
Qed.

Lemma scanRay3_fatal bx by_ dx dy w :
  scanRay bx by_ dx dy [1; 2; 3] w = BlownUp ↔
  inFire (grid w) bx by_ dx dy (p_x (player w)) (p_y (player w)).
Proof.
  rewrite scanRay_fatal. unfold inFire. split.
  - intros (pre & i & post & Heq & Hp & Hall). exists i.
    rewrite Forall_forall in Hall.
    assert (Hcases : (pre = [] ∧ i = 1) ∨ (pre = [1] ∧ i = 2) ∨ (pre = [1; 2] ∧ i = 3)).
    { destruct pre as [|a [|b [|c pre]]]; simpl in Heq.
      - injection Heq as <- _. by left.
      - injection Heq as <- <- _. right; by left.
      - injection Heq as <- <- <- _. right; by right.
      - injection Heq as _ _ _ Heq. by destruct pre. }
    split; [lia|]. split; [done|]. intros j Hj. apply Hall.
    destruct Hcases as [[-> ->]|[[-> ->]|[-> ->]]]; set_unfold; lia.
  - intros (i & Hi & Hp & Hall).
    assert (Hcases : i = 1 ∨ i = 2 ∨ i = 3) by lia.
    destruct Hcases as [-> | [-> | ->]].
    + exists [], 1, [2; 3]. split_and!; try done.
      repeat constructor; apply Hall; lia.
    + exists [1], 2, [3]. split_and!; try done.
      repeat constructor; apply Hall; lia.
    + exists [1; 2], 3, []. split_and!; try done.
      repeat constructor; apply Hall; lia.
Qed.

(** A ray leaves the cells of the other rays as they are. *)
Lemma scanRay_other_rays bx by_ (d d' : Z * Z) w w' :
  scanRay bx by_ d.1 d.2 [1; 2; 3] w = Survived w' →
  d ∈ directions → d' ∈ directions → d ≠ d' →
  player w' = player w ∧
  ∀ j, 1 ≤ j → unaffected w w' (bx + d'.1 * j) (by_ + d'.2 * j).
Proof.
  intros H Hd Hd' Hne. apply scanRay_touched in H as [(Hp & _ & _ & _ & _ & _ & Hun) _].
  split; [done|]. intros j Hj. apply Hun. intros Hv.
  apply visited_onRay in Hv as (i & Hi & Heq).
  by apply (rays_apart bx by_ d' d j i); [..|lia|].
Qed.

Lemma inFire_unaffected w w' bx by_ dx dy x y :
  (∀ j, 1 ≤ j → unaffected w w' (bx + dx * j) (by_ + dy * j)) →
  inFire (grid w') bx by_ dx dy x y ↔ inFire (grid w) bx by_ dx dy x y.
Proof.
  intros Hun. unfold inFire.
  split; intros (i & Hi & Hp & Hall); exists i; (split; [done|]); (split; [done|]);
    intros j Hj; specialize (Hall j Hj);
    by rewrite (unaffected_stopsAt w w') in * by (apply Hun; lia).
Qed.

Lemma scanDirs_fatal bx by_ ds w :
  ds ⊆ directions → NoDup ds →
  scanDirs bx by_ ds w = BlownUp ↔
  ∃ d, d ∈ ds ∧ inFire (grid w) bx by_ d.1 d.2 (p_x (player w)) (p_y (player w)).
Proof.
  revert w. induction ds as [|[dx dy] ds IH]; intros w Hsub Hnd.
  - simpl. split; [done|]. intros (d & Hd & _). by apply elem_of_nil in Hd.
  - rewrite scanDirs_cons. apply NoDup_cons in Hnd as [Hnotin Hnd].
    assert (Hsub' : ds ⊆ directions) by set_solver.
    assert (Hin : (dx, dy) ∈ directions) by set_solver.
    destruct (scanRay bx by_ dx dy [1; 2; 3] w) as [w1|] eqn:Hr.
    + rewrite (IH w1 Hsub' Hnd).
      assert (Hother : ∀ d, d ∈ ds →
                player w1 = player w ∧
                ∀ j, 1 ≤ j → unaffected w w1 (bx + d.1 * j) (by_ + d.2 * j)).
      { intros d Hd. apply (scanRay_other_rays bx by_ (dx, dy) d); auto.
        intros <-. done. }
      split.
      * intros (d & Hd & Hf). exists d. split; [set_solver|].
        destruct (Hother d Hd) as [Hp Hun]. rewrite Hp in Hf.
        by apply (inFire_unaffected w w1).
      * intros (d & Hd & Hf). apply elem_of_cons in Hd as [->|Hd].
        -- apply scanRay3_fatal in Hf. cbn [fst snd] in Hf. congruence.
        -- exists d. split; [done|].
           destruct (Hother d Hd) as [Hp Hun]. rewrite Hp.
           by apply (inFire_unaffected w w1).
    + split; [|done]. intros _. exists (dx, dy). split; [set_solver|].
      by apply scanRay3_fatal.
Qed.

Lemma directions_NoDup : NoDup directions.
Proof. rewrite directions_eq. repeat constructor; set_unfold; naive_solver. Qed.

(** X13: the line of fire.  The detonation of a bomb kills the player
    exactly when the player stands on a cell that the blast reaches: the
    bomb's own cell, or a cell up to three steps away in its row or its
    column, with no block on the way from the bomb (the bomb's cell
    apart) and none on the cell itself.  Traps, enemies and other bombs
    on the way do not shield the player. *)
Theorem explodeBomb_kills_player_in_line_of_fire b w :
  explodeBomb b w = BlownUp ↔
  ∃ dx dy, (dx, dy) ∈ directions ∧
           inFire (grid w) (b_x b) (b_y b) dx dy (p_x (player w)) (p_y (player w)).
Proof.
  unfold explodeBomb.
  pose proof (scanDirs_fatal (b_x b) (b_y b) directions w (reflexivity _) directions_NoDup)
    as Hiff.
  destruct (scanDirs (b_x b) (b_y b) directions w) as [w'|] eqn:Hs.
  - split; [done|]. intros (dx & dy & Hd & Hf).
    assert (Hblown : Survived w' = BlownUp); [|done].
    apply Hiff. by exists (dx, dy).
  - split; [|done]. intros _. destruct Hiff as [Hiff _].
    destruct (Hiff eq_refl) as ([dx dy] & Hd & Hf). by exists dx, dy.
Qed.

Lemma scanRay_enemy bx by_ dx dy pre i post w w' :
  scanRay bx by_ dx dy (pre ++ i :: post) w = Survived w' →
  cardinal dx dy → NoDup (pre ++ i :: post) →
  Forall (λ j, stopsAt (grid w) (bx + dx * j) (by_ + dy * j) = false) (pre ++ [i]) →
  enemiesOn (bx + dx * i) (by_ + dy * i) (enemies w')
  = pred (enemiesOn (bx + dx * i) (by_ + dy * i) (enemies w)).
Proof.
  intros H Hc. revert w H. induction pre as [|j pre IH]; intros w H Hnd Hall; simpl in *.
  - apply Forall_cons in Hall as [Hstop _]. apply NoDup_cons in Hnd as [Hnotin _].
    destruct (blastCell (bx + dx * i) (by_ + dy * i) w) as [w1|w1|] eqn:Hb; [| |done].
    { apply blastCell_break in Hb as (Hs & _). congruence. }
    apply blastCell_next in Hb as (_ & -> & _).
    apply scanRay_touched in H as [(_ & _ & _ & _ & _ & _ & Hun) _].
    destruct (Hun (bx + dx * i) (by_ + dy * i)) as [_ ->].
    + intros (pre' & j & post' & -> & Heq & _).
      apply (ray_injective _ _ _ _ _ _ Hc) in Heq as <-. set_solver.
    + simpl. apply enemiesOn_eliminate_here.
  - apply Forall_cons in Hall as [Hstop Hall]. apply NoDup_cons in Hnd as [Hnotin Hnd].
    destruct (blastCell (bx + dx * j) (by_ + dy * j) w) as [w1|w1|] eqn:Hb; [| |done].
    { apply blastCell_break in Hb as (Hs & _). congruence. }
    apply blastCell_next in Hb as (_ & -> & _).
    rewrite (IH _ H Hnd Hall). simpl. f_equal.
    apply enemiesOn_eliminate_other. intros Heq.
    apply (ray_injective bx by_ dx dy i j Hc) in Heq as ->. set_solver.
Qed.

(** X14: on a cell of the four rays that the blast reaches, exactly one
    enemy is eliminated when any stand there: the loop over the enemies
    breaks after the first one that it deletes, so a second enemy on the
    same cell survives the detonation.  The cell itself is left as it
    was. *)
Theorem explodeBomb_one_enemy_per_ray_cell b w w' dx dy x y :
  explodeBomb b w = Survived w' →
  cardinal dx dy →
  inFire (grid w) (b_x b) (b_y b) dx dy x y →
  enemiesOn x y (enemies w') = pred (enemiesOn x y (enemies w)) ∧
  grid_read (grid w') y x = grid_read (grid w) y x.
Proof.
  intros H Hc Hf. apply explodeBomb_Survived in H as (w3 & H & ->).
  destruct (scanDirs_around _ _ _ _ _ _ H Hc) as (w1 & w2 & Hr & Hun1 & Hun2 & _).
  apply (inFire_unaffected w w1) in Hf as Hf1; [|done].
  destruct Hf1 as (i & Hi & Heq & Hall). unfold rayCell in Heq. injection Heq as -> ->.
  destruct (Hun1 i) as [Hg1 He1]; [lia|]. destruct (Hun2 i) as [Hg2 He2]; [lia|].
  simpl. rewrite He2, <- He1.
  assert (Hsplit : ∃ pre post, [1; 2; 3] = pre ++ i :: post ∧
                               ∀ j, j ∈ pre ++ [i] → 1 ≤ j ≤ i).
  { assert (Hcases : i = 1 ∨ i = 2 ∨ i = 3) by lia.
    destruct Hcases as [-> | [-> | ->]].
    - exists [], [2; 3]. split; [done|]. set_unfold. lia.
    - exists [1], [3]. split; [done|]. set_unfold. lia.
    - exists [1; 2], []. split; [done|]. set_unfold. lia. }
  destruct Hsplit as (pre & post & Hsteps & Hpre).
  split.
  - rewrite Hsteps in Hr. apply (scanRay_enemy _ _ _ _ _ _ _ _ _ Hr Hc).
    + rewrite <- Hsteps. repeat constructor; set_unfold; lia.
    + apply Forall_forall. intros j Hj. apply Hall. by apply Hpre.
  - rewrite Hg2, <- Hg1.
    apply scanRay_frame in Hr as (Her & _).
    destruct (Her (b_x b + dx * i) (b_y b + dy * i)) as [E|[D _]]; [done|].
    specialize (Hall i). unfold stopsAt in Hall. rewrite D in Hall.
    rewrite orb_true_r in Hall. simpl in Hall. lia.
Qed.

(** X15: a detonation that the player survives leaves everything off the
    cross of the bomb as it was: a cell that is not in the bomb's row or
    column, or more than three cells away, keeps its occupant and its
    enemies.  No bomb is set off by the blast of another, no enemy is
    added, and the door stays where it is. *)
Theorem explodeBomb_spares_cells_off_the_cross b w w' :
  explodeBomb b w = Survived w' →
  (∀ x y, ¬ onCross (b_x b) (b_y b) x y →
          grid_read (grid w') y x = grid_read (grid w) y x ∧
          enemiesOn x y (enemies w') = enemiesOn x y (enemies w)) ∧
  bombs w' = bombs w ∧
  enemies w' ⊆+ enemies w ∧
  (d_x (exitDoor w'), d_y (exitDoor w')) = (d_x (exitDoor w), d_y (exitDoor w)).
Proof.
  intros H.
  pose proof (explodeBomb_frame _ _ _ H) as (_ & Hsub & Hx & Hy & _).
  pose proof (explodeBomb_rest _ _ _ H) as (Hbs & _).
  apply explodeBomb_Survived in H as (w2 & H & ->).
  apply scanDirs_touched in H as [(_ & _ & _ & _ & _ & _ & Hun) _].
  split; [|split; [done|split; [done|congruence]]].
  intros x y Hoff. apply (unaffected_withPlayer w w2). apply Hun.
  intros (d & Hd & Hray). apply Hoff. by apply (onRay_onCross _ _ d).
Qed.

(** ** Saved games *)

Lemma saveGame_reloaded now w :
  saveGame (mkGame (grid w)
              (mkPlayer (p_x (player w)) (p_y (player w)) NUM_BOMBS)
              (map reloadedEnemy (enemies w))
              (map (reloadedBomb now) (bombs w))
              (exitDoor w) (bombsPlanted w))
  = saveGame w.
Proof.
  unfold saveGame, enemyCount, bombCount. simpl.
  rewrite !length_map, !map_map.
  rewrite (map_ext (λ e, showEnemy (reloadedEnemy e)) showEnemy) by done.
  by rewrite (map_ext (λ b, showBomb (reloadedBomb now b)) showBomb) by done.
Qed.

(** X16: a saved game that is loaded and saved again gives the same file,
    character by character, and the file loads to the same world
    whichever world the loading process had before: what [loadGame] does
    not read back (the fuse ages, the enemies' counters, the capacity)
    [saveGame] does not write. *)
Theorem save_load_save_same_file w now w0 w' :
  reachable w →
  loadGame now (Some (saveGame w)) w0 = Some (true, w') →
  saveGame w' = saveGame w ∧
  reachable w' ∧
  ∀ w1, loadGame now (Some (saveGame w')) w1 = Some (true, w').
Proof.
  intros Hr Hload.
  assert (Hsame : saveGame w' = saveGame w).
  { rewrite loadGame_saveGame in Hload by by apply reachable_WF.
    injection Hload as <-. apply saveGame_reloaded. }
  pose proof (reachable_WF _ Hr) as Hwf.
  split; [done|]. split.
  - apply (reach_load now w w w'); [done|done|].
    rewrite loadGame_saveGame in * by done. done.
  - intros w1. rewrite Hsame. rewrite loadGame_saveGame in * by done. done.
Qed.

(** *** Whatever the file holds *)

Lemma loadRows_cells n s g :
  loadRows n s = Some g →
  length g = n ∧
  Forall (λ row, length row = Z.to_nat WIDTH ∧
                 Forall (λ c, ∃ symbol, c = cellOfSymbol symbol) row) g.
Proof.
  revert s g. induction n as [|n IH]; intros s g H; simpl in H.
  - by injection H as <-.
  - destruct (getline s) as [line s'].
    apply bind_Some in H as (row & Hrow & H).
    apply bind_Some in H as (g' & Hg' & [= <-]).
    destruct (IH _ _ Hg') as [Hlen Hall]. split; [simpl; lia|].
    constructor; [|done]. unfold loadRow in Hrow.
    split.
    + apply length_mapM in Hrow. by rewrite length_seq in Hrow.
    + apply mapM_Some in Hrow. apply Forall_forall. intros c Hc.
      apply list_elem_of_lookup in Hc as [j Hj].
      destruct (Forall2_lookup_r _ _ _ _ _ Hrow Hj) as (j' & _ & Hcj).
      apply fmap_Some in Hcj as (symbol & _ & ->). by exists symbol.
Qed.

Lemma cellOfSymbol_not_green symbol : cellOfSymbol symbol ≠ Some (DestructibleBlock true).
Proof. unfold cellOfSymbol. by repeat case_match. Qed.

Lemma loadRows_read n s g x y c :
  loadRows n s = Some g → grid_read g y x = Some c → ∃ symbol, c = cellOfSymbol symbol.
Proof.
  intros H Hc. apply loadRows_cells in H as [_ Hall].
  apply grid_read_Some in Hc as (_ & _ & row & Hrow & Hcell).
  rewrite Forall_forall in Hall.
  destruct (Hall row) as [_ Hcells]; [by eapply list_elem_of_lookup_2|].
  rewrite Forall_forall in Hcells. apply Hcells. by eapply list_elem_of_lookup_2.
Qed.

Lemma readEnemies_fresh n s es r :
  readEnemies n s = Some (es, r) → length es = n ∧ Forall (λ e, moveStep e = 0) es.
Proof.
  revert s es r. induction n as [|n IH]; intros s es r H; simpl in H.
  - by injection H as <- <-.
  - apply bind_Some in H as ([x s1] & _ & H).
    apply bind_Some in H as ([y s2] & _ & H).
    apply bind_Some in H as ([t s3] & _ & H).
    apply bind_Some in H as ([es' r'] & Hes & [= <- <-]).
    destruct (IH _ _ _ Hes) as [Hlen Hall]. split; [simpl; lia|]. by constructor.
Qed.

Lemma readBombs_fresh now n s bs r :
  readBombs now n s = Some (bs, r) → length bs = n ∧ Forall (λ b, plantTime b = now) bs.
Proof.
  revert s bs r. induction n as [|n IH]; intros s bs r H; simpl in H.
  - by injection H as <- <-.
  - apply bind_Some in H as ([x s1] & _ & H).
    apply bind_Some in H as ([y s2] & _ & H).
    apply bind_Some in H as ([bs' r'] & Hbs & [= <- <-]).
    destruct (IH _ _ _ Hbs) as [Hlen Hall]. split; [simpl; lia|]. by constructor.
Qed.

(** X17: what [loadGame] yields whatever the text of the file, when it
    yields a world at all (the file gave a value to every variable that
    is used): the result is true; the grid has HEIGHT rows of WIDTH
    cells; the player has the full capacity of NUM_BOMBS; every enemy's
    counter is 0 and every bomb's fuse starts at the clock reading of the
    load; a hidden door lies inside the grid under a green block, and no
    other cell holds a green block. *)
Theorem loadGame_result_shape now file w0 r :
  loadGame now (Some file) w0 = Some r →
  r.1 = true ∧
  grid_dims (grid r.2) ∧
  hasBombs (player r.2) = NUM_BOMBS ∧
  Forall (λ e, moveStep e = 0) (enemies r.2) ∧
  Forall (λ b, plantTime b = now) (bombs r.2) ∧
  (visible (exitDoor r.2) = false →
     inGrid (d_x (exitDoor r.2)) (d_y (exitDoor r.2)) ∧
     grid_read (grid r.2) (d_y (exitDoor r.2)) (d_x (exitDoor r.2))
     = Some (Some (DestructibleBlock true))) ∧
  (∀ x y, grid_read (grid r.2) y x = Some (Some (DestructibleBlock true)) →
          (x, y) = (d_x (exitDoor r.2), d_y (exitDoor r.2)) ∧
          visible (exitDoor r.2) = false).
Proof.
  unfold loadGame. intros H.
  apply bind_Some in H as ([playerX s1] & _ & H).
  apply bind_Some in H as ([playerY s2] & _ & H).
  apply bind_Some in H as ([planted s3] & _ & H).
  apply bind_Some in H as ([nEnemies s4] & _ & H).
  destruct (nEnemies <? 0); [done|].
  apply bind_Some in H as ([es s5] & Hes & H).
  apply bind_Some in H as ([nBombs s6] & _ & H).
  destruct (nBombs <? 0); [done|].
  apply bind_Some in H as ([bs s7] & Hbs & H).
  apply bind_Some in H as ([exitX s8] & _ & H).
  apply bind_Some in H as ([exitY s9] & _ & H).
  apply bind_Some in H as ([vis s10] & _ & H).
  apply bind_Some in H as (g & Hg & H).
  apply bind_Some in H as (g' & Hg' & [= <-]). simpl.
  apply readEnemies_fresh in Hes as [_ Hes]. apply readBombs_fresh in Hbs as [_ Hbs].
  pose proof (loadRows_cells _ _ _ Hg) as [Hlen Hrows].
  assert (Hd : grid_dims g).
  { split; [done|]. eapply Forall_impl; [exact Hrows|]. by intros row [? _]. }
  assert (Hng : ∀ x y, grid_read g y x ≠ Some (Some (DestructibleBlock true))).
  { intros x y Hc. destruct (loadRows_read _ _ _ _ _ _ Hg Hc) as [symbol Hs].
    by apply (cellOfSymbol_not_green symbol). }
  destruct vis; simpl in Hg'.
  - injection Hg' as <-. split_and!; try done. intros x y Hc. by apply Hng in Hc.
  - destruct (inGridb exitX exitY) eqn:Hin; [|done]. injection Hg' as <-.
    apply inGridb_spec in Hin.
    destruct (grid_dims_read _ _ _ Hd Hin) as [c0 Hc0].
    split_and!; try done.
    + by apply grid_dims_write.
    + intros _. split; [done|]. by rewrite (grid_read_write_eq _ _ _ _ _ Hc0).
    + intros x y Hc. destruct (decide ((x, y) = (exitX, exitY))) as [Heq|Hne]; [done|].
      rewrite grid_read_write_ne in Hc by done. by apply Hng in Hc.
Qed.

(** ** The loops of [initializeGame] *)

Lemma pickFree_spawn fuel rnd k g :
  (∀ j, (k ≤ j)%nat →
        Z.rem (rand rnd j) (WIDTH - 2) = 0 ∧ Z.rem (rand rnd j) (HEIGHT - 2) = 0) →
  pickFree fuel rnd k g = None.
Proof.
  revert k. induction fuel as [|fuel IH]; intros k Hk; simpl; [done|].
  destruct (Hk k) as [-> _]; [lia|]. destruct (Hk (S k)) as [_ ->]; [lia|].
  simpl. rewrite orb_true_r. apply IH. intros j Hj. apply Hk. lia.
Qed.

(** X18: the loops of [initializeGame] that look for a free cell have no
    bound.  When the random generator, from the draw that follows the
    placing of the blocks, keeps proposing the spawn cell (1,1), which
    the loop rejects whatever the grid holds, no number of passes is
    enough: [initializeGame] does not return. *)
Theorem initializeGame_can_loop_forever rnd :
  (∀ j, ((genRows rnd (seqZ 0 HEIGHT) O).2 ≤ j)%nat →
        Z.rem (rand rnd j) (WIDTH - 2) = 0 ∧ Z.rem (rand rnd j) (HEIGHT - 2) = 0) →
  ∀ fuel, initializeGame rnd fuel = None.
Proof.
  intros Hk fuel. unfold initializeGame.
  destruct (genRows rnd (seqZ 0 HEIGHT) O) as [g0 k0]. simpl in Hk.
  change (Z.to_nat ((HEIGHT + WIDTH) / 10)) with 9%nat. simpl.
  by rewrite (pickFree_spawn fuel rnd k0 g0 Hk).
Qed.

(** ** The screen *)

Lemma mvaddch_read lines cols y x gl scr y' x' :
  mvaddch lines cols y x gl scr y' x'
  = if inWindow lines cols y x && (y' =? y) && (x' =? x) then gl else scr y' x'.
Proof. unfold mvaddch. by destruct (inWindow lines cols y x). Qed.

Lemma draw_entities {A} (px py : A → Z) gl lines cols (l : list A) scr y x :
  inWindow lines cols y x = true →
  foldl (λ scr e, mvaddch lines cols (py e) (px e) gl scr) scr l y x
  = if existsb (λ e, (px e =? x) && (py e =? y)) l then gl else scr y x.
Proof.
  intros Hin. revert scr. induction l as [|e l IH]; intros scr; simpl; [done|].
  rewrite IH, mvaddch_read.
  destruct (existsb _ l); [by rewrite orb_true_r|]. rewrite orb_false_r.
  destruct ((px e =? x) && (py e =? y)) eqn:Hpos.
  - assert (px e = x ∧ py e = y) as [-> ->] by lia.
    by rewrite Hin, !Z.eqb_refl.
  - assert (Hne : (y =? py e) && (x =? px e) = false) by lia.
    by rewrite <- andb_assoc, Hne, andb_false_r.
Qed.

Lemma drawRow_read (f : Z → Glyph) lines cols i (js : list Z) scr y x :
  foldl (λ scr j, mvaddch lines cols i j (f j) scr) scr js y x
  = if inWindow lines cols y x && (y =? i) && bool_decide (x ∈ js)
    then f x else scr y x.
Proof.
  revert scr. induction js as [|j js IH]; intros scr; simpl.
  - by rewrite andb_false_r.
  - rewrite IH, mvaddch_read.
    destruct (decide (y = i ∧ x = j)) as [[-> ->]|Hne].
    + rewrite !Z.eqb_refl, !andb_true_r.
      rewrite (bool_decide_eq_true_2 (j ∈ j :: js)) by set_solver.
      destruct (inWindow lines cols i j); simpl; [|done].
      by destruct (bool_decide (j ∈ js)).
    + assert (Hpos : (y =? i) && (x =? j) = false) by lia.
      rewrite <- (andb_assoc (inWindow lines cols i j)), Hpos, andb_false_r.
      destruct (inWindow lines cols y x); simpl; [|done].
      destruct (y =? i) eqn:Hy; simpl; [|done].
      assert (x ≠ j) by lia.
      destruct (decide (x ∈ js)) as [Hxin|Hxin].
      * by rewrite !bool_decide_eq_true_2 by set_solver.
      * by rewrite !bool_decide_eq_false_2 by set_solver.
Qed.

Lemma drawRows_read (f : Z → Z → Glyph) lines cols (is_ js : list Z) scr y x :
  foldl (λ scr i, foldl (λ scr j, mvaddch lines cols i j (f i j) scr) scr js) scr is_ y x
  = if inWindow lines cols y x && bool_decide (y ∈ is_) && bool_decide (x ∈ js)
    then f y x else scr y x.
Proof.
  revert scr. induction is_ as [|i is_ IH]; intros scr; simpl.
  - by rewrite andb_false_r.
  - rewrite IH, (drawRow_read (f i)).
    destruct (inWindow lines cols y x) eqn:Hin; simpl; [|done].
    destruct (bool_decide (x ∈ js)) eqn:Hx; simpl; [|by rewrite !andb_false_r].
    rewrite !andb_true_r.
    destruct (decide (y = i)) as [->|Hne].
    + rewrite Z.eqb_refl. rewrite (bool_decide_eq_true_2 (i ∈ i :: is_)) by set_solver.
      by destruct (bool_decide (i ∈ is_)).
    + assert (Hy : (y =? i) = false) by lia. rewrite Hy.
      destruct (decide (y ∈ is_)) as [Hyin|Hyin].
      * by rewrite !bool_decide_eq_true_2 by set_solver.
      * by rewrite !bool_decide_eq_false_2 by set_solver.
Qed.

Lemma drawGrid_read lines cols g scr y x :
  drawGrid lines cols g scr y x
  = if inWindow lines cols y x && inGridb x y then glyphOf (cellAt g y x) else scr y x.
Proof.
  unfold drawGrid.
  rewrite (drawRows_read (λ i j, glyphOf (cellAt g i j))).
  destruct (inWindow lines cols y x); simpl; [|done].
  destruct (inGridb x y) eqn:Hin.
  - apply inGridb_spec in Hin as [Hx Hy].
    rewrite !bool_decide_eq_true_2; [done|apply elem_of_seqZ; lia..].
  - destruct (bool_decide (y ∈ seqZ 0 HEIGHT)) eqn:Hy; [|done].
    destruct (bool_decide (x ∈ seqZ 0 WIDTH)) eqn:Hx; [|done].
    apply bool_decide_eq_true in Hy, Hx. apply elem_of_seqZ in Hy, Hx.
    unfold inGridb in Hin. lia.
Qed.

Lemma addstr_above lines cols y0 x0 s scr y x :
  y < y0 → addstr lines cols y0 x0 s scr y x = scr y x.
Proof.
  revert y0 x0 scr. induction s as [|c s IH]; intros y0 x0 scr Hy; simpl; [done|].
  assert (Hkeep : mvaddch lines cols y0 x0 (mkGlyph c false) scr y x = scr y x).
  { rewrite mvaddch_read. assert (Hne : (y =? y0) = false) by lia.
    by rewrite Hne, andb_false_r. }
  destruct (x0 + 1 <? cols); [by rewrite IH|].
  destruct (y0 + 1 <? lines); [by rewrite IH by lia|done].
Qed.

Lemma display_read lines cols w x y :
  inGrid x y → inWindow lines cols y x = true →
  display lines cols w y x
  = if doorShownOn x y w then mkGlyph EXIT_DOOR false
    else if bombOn x y w then mkGlyph BOMB false
    else if enemyOn x y w then mkGlyph ENEMY false
    else if playerOn x y w then mkGlyph PLAYER false
    else glyphOf (cellAt (grid w) y x).
Proof.
  intros Hin Hwin. unfold display, mvprintw.
  assert (Hstatus : ∀ scr,
    (if inWindow lines cols HEIGHT 0
     then addstr lines cols HEIGHT 0 (statusLine w) scr else scr) y x = scr y x).
  { intros scr. destruct (inWindow lines cols HEIGHT 0); [|done].
    apply addstr_above. apply Hin. }
  rewrite Hstatus. unfold doorShownOn, bombOn, enemyOn, playerOn.
  assert (Hrest :
    foldl (λ scr b, mvaddch lines cols (b_y b) (b_x b) (mkGlyph BOMB false) scr)
      (foldl (λ scr e, mvaddch lines cols (e_y e) (e_x e) (mkGlyph ENEMY false) scr)
         (mvaddch lines cols (p_y (player w)) (p_x (player w)) (mkGlyph PLAYER false)
            (drawGrid lines cols (grid w) clear)) (enemies w)) (bombs w) y x
    = if existsb (λ b, (b_x b =? x) && (b_y b =? y)) (bombs w) then mkGlyph BOMB false
      else if existsb (λ e, (e_x e =? x) && (e_y e =? y)) (enemies w) then mkGlyph ENEMY false
      else if (p_x (player w) =? x) && (p_y (player w) =? y) then mkGlyph PLAYER false
      else glyphOf (cellAt (grid w) y x)).
  { rewrite (draw_entities b_x b_y) by done.
    rewrite (draw_entities e_x e_y) by done.
    rewrite mvaddch_read, drawGrid_read, Hwin, (inGridb_true _ _ Hin). simpl.
    destruct (existsb _ (bombs w)); [done|]. destruct (existsb _ (enemies w)); [done|].
    destruct ((p_x (player w) =? x) && (p_y (player w) =? y)) eqn:Hp.
    - assert (p_x (player w) = x ∧ p_y (player w) = y) as [<- <-] by lia.
      by rewrite Hwin, !Z.eqb_refl.
    - assert (Hne : (y =? p_y (player w)) && (x =? p_x (player w)) = false) by lia.
      by rewrite <- andb_assoc, Hne, andb_false_r. }
  destruct (visible (exitDoor w)); simpl; [|exact Hrest].
  rewrite mvaddch_read.
  destruct ((d_x (exitDoor w) =? x) && (d_y (exitDoor w) =? y)) eqn:Hd.
  - assert (d_x (exitDoor w) = x ∧ d_y (exitDoor w) = y) as [<- <-] by lia.
    by rewrite Hwin, !Z.eqb_refl.
  - assert (Hne : (y =? d_y (exitDoor w)) && (x =? d_x (exitDoor w)) = false) by lia.
    rewrite <- andb_assoc, Hne, andb_false_r. exact Hrest.
Qed.

Lemma addstr_left lines cols y0 x0 s scr x :
  x < x0 → x0 + Z.of_nat (length s) ≤ cols →
  addstr lines cols y0 x0 s scr y0 x = scr y0 x.
Proof.
  revert x0 scr. induction s as [|c s IH]; intros x0 scr Hx Hfit; simpl; [done|].
  assert (Hkeep : mvaddch lines cols y0 x0 (mkGlyph c false) scr y0 x = scr y0 x).
  { rewrite mvaddch_read. assert (Hne : (x =? x0) = false) by lia.
    by rewrite Hne, andb_false_r. }
  simpl in Hfit. destruct (x0 + 1 <? cols) eqn:Hnext.
  - rewrite IH by lia. done.
  - destruct s; [|simpl in Hfit; lia]. simpl. by destruct (y0 + 1 <? lines).
Qed.

Lemma addstr_row lines cols y0 x0 s scr j c :
  inWindow lines cols y0 x0 = true → x0 + Z.of_nat (length s) ≤ cols →
  s !! j = Some c →
  addstr lines cols y0 x0 s scr y0 (x0 + Z.of_nat j) = mkGlyph c false.
Proof.
  revert x0 scr j. induction s as [|c0 s IH]; intros x0 scr j Hwin Hfit Hj; [done|].
  simpl in Hfit. simpl.
  destruct j as [|j]; simpl in Hj.
  - injection Hj as ->. rewrite Z.add_0_r.
    assert (Hhere : mvaddch lines cols y0 x0 (mkGlyph c false) scr y0 x0 = mkGlyph c false).
    { by rewrite mvaddch_read, Hwin, !Z.eqb_refl. }
    destruct (x0 + 1 <? cols) eqn:Hnext.
    + rewrite addstr_left by lia. done.
    + destruct s; [|simpl in Hfit; lia]. simpl. by destruct (y0 + 1 <? lines).
  - assert (Hnext : (x0 + 1 <? cols) = true).
    { apply lookup_lt_Some in Hj. lia. }
    rewrite Hnext.
    replace (x0 + Z.of_nat (S j)) with (x0 + 1 + Z.of_nat j) by lia.
    apply IH; [|lia|done]. unfold inWindow in *. lia.
Qed.

(** X19: what [display] shows.  On a cell of the grid that the window
    holds, the visible door covers a bomb, a bomb covers an enemy, an
    enemy covers the player, and the player covers what the grid holds on
    the cell: the symbol of the block or trap, in green for the green
    block, or a space.  On a window that has the row HEIGHT and is wide
    enough for it, that row starts with the text of the bomb counter,
    which never reaches a cell of the grid. *)
Theorem display_layers lines cols w :
  (∀ x y, inGrid x y → inWindow lines cols y x = true →
     display lines cols w y x
     = if doorShownOn x y w then mkGlyph EXIT_DOOR false
       else if bombOn x y w then mkGlyph BOMB false
       else if enemyOn x y w then mkGlyph ENEMY false
       else if playerOn x y w then mkGlyph PLAYER false
       else glyphOf (cellAt (grid w) y x)) ∧
  (HEIGHT < lines → Z.of_nat (length (statusLine w)) ≤ cols →
   ∀ j c, statusLine w !! j = Some c →
          display lines cols w HEIGHT (Z.of_nat j) = mkGlyph c false).
Proof.
  split; [intros x y; apply display_read|].
  intros Hlines Hcols j c Hj. unfold display, mvprintw.
  assert (Hwin : inWindow lines cols HEIGHT 0 = true).
  { apply lookup_lt_Some in Hj. unfold inWindow, HEIGHT in *. lia. }
  rewrite Hwin.
  by apply (addstr_row lines cols HEIGHT 0 (statusLine w) _ j c).
Qed.

Lemma existsb_bombOn_false x y w :
  Forall (λ b, emptyAt (grid w) (b_x b) (b_y b)) (bombs w) →
  grid_read (grid w) y x ≠ Some None → bombOn x y w = false.
Proof.
  intros Hall Hc. unfold bombOn. apply not_true_is_false. intros Hex.
  apply existsb_exists in Hex as (b & Hb & Hpos).
  rewrite Forall_forall in Hall. apply list_elem_of_In in Hb.
  destruct (Hall b Hb) as [_ Hempty].
  assert (b_x b = x ∧ b_y b = y) as [<- <-] by lia. done.
Qed.

(** X20: a hidden door is never given away by its symbol, only by the
    colour of its block.  While the door of a world of play is hidden, no
    cell of the grid is shown as D; the cell of the door is shown as a
    green block, or as E when an enemy stands on it; and no other cell is
    shown in green. *)
Theorem display_hides_the_door lines cols w x y :
  reachable w → visible (exitDoor w) = false →
  inGrid x y → inWindow lines cols y x = true →
  glyphChar (display lines cols w y x) ≠ EXIT_DOOR ∧
  (glyphGreen (display lines cols w y x) = true ↔
   (x, y) = (d_x (exitDoor w), d_y (exitDoor w)) ∧ enemyOn x y w = false) ∧
  ((x, y) = (d_x (exitDoor w), d_y (exitDoor w)) →
   display lines cols w y x
   = if enemyOn x y w then mkGlyph ENEMY false else mkGlyph DESTRUCTIBLE_BLOCK true).
Proof.
  intros Hr Hv Hin Hwin.
  pose proof (reachable_WF _ Hr) as [Hd _ Hnoref Hgreen].
  pose proof (reachable_placed _ Hr) as [_ [_ Hp] Hbs _].
  rewrite (display_read _ _ _ _ _ Hin Hwin).
  assert (Hdoor : doorShownOn x y w = false) by (unfold doorShownOn; by rewrite Hv).
  rewrite Hdoor.
  destruct (grid_dims_read _ _ _ Hd Hin) as [c Hc].
  rewrite (cellAt_read _ _ _ _ Hc).
  destruct (decide ((x, y) = (d_x (exitDoor w), d_y (exitDoor w)))) as [Heq|Hne].
  - injection Heq as -> ->.
    assert (Hg : grid_read (grid w) (d_y (exitDoor w)) (d_x (exitDoor w))
                 = Some (Some (DestructibleBlock true))) by by apply Hgreen.
    rewrite Hg in Hc. injection Hc as <-.
    rewrite existsb_bombOn_false by (done || by rewrite Hg).
    assert (Hpl : playerOn (d_x (exitDoor w)) (d_y (exitDoor w)) w = false).
    { unfold playerOn. apply not_true_is_false. intros Hon.
      assert (p_x (player w) = d_x (exitDoor w) ∧ p_y (player w) = d_y (exitDoor w))
        as [Hx Hy] by lia.
      rewrite Hx, Hy, Hg in Hp. done. }
    rewrite Hpl. destruct (enemyOn _ _ w); simpl; split_and!; try done; naive_solver.
  - assert (Hng : c ≠ Some (DestructibleBlock true)).
    { intros ->. apply Hgreen in Hc as (-> & -> & _). done. }
    assert (Hnr : c ≠ Some ExitDoorRef) by (intros ->; by apply Hnoref in Hc).
    split_and!; [| |done].
    + destruct (bombOn x y w), (enemyOn x y w), (playerOn x y w); try done;
        by destruct c as [[|[]| |]|].
    + split; [|by intros [? _]]. intros Hgr. exfalso.
      destruct (bombOn x y w), (enemyOn x y w), (playerOn x y w); try done;
        by destruct c as [[|[]| |]|].
Qed.

(** ** The menu *)

(** X21: the menu hands a world of play to the game loop.  With the world
    of the constructor, and a save file that is missing or was written by
    [saveGame] in play, the loop of [run] is defined for all keys; when
    it enters [playGame], the world is one of play: the constructor's
    world for the key 1, the loaded one for the key 2.  Without a save
    file the key 2 changes nothing, and the menu goes on with the world
    it had. *)
Theorem menu_enters_a_world_of_play now file keys w :
  reachable w →
  (∀ s, file = Some s → ∃ ws, reachable ws ∧ s = saveGame ws) →
  ∃ m, run now file keys w = Some m ∧
       match m with
       | MenuPlay w' => reachable w' ∧ (file = None → w' = w)
       | MenuWaits w' => w' = w
       | MenuExit => True
       end.
Proof.
  intros Hr Hfile.
  assert (Hboth : ∀ n keys, (length keys ≤ n)%nat →
    ∃ m, run now file keys w = Some m ∧
         match m with
         | MenuPlay w' => reachable w' ∧ (file = None → w' = w)
         | MenuWaits w' => w' = w
         | MenuExit => True
         end); [|by apply (Hboth (length keys))].
  clear keys. induction n as [|n IH]; intros keys Hlen.
  - destruct keys; [|simpl in Hlen; lia]. by eexists.
  - destruct keys as [|ch keys]; [by eexists|]. simpl in *.
    destruct (ch - 48 =? 1); [by eexists|].
    destruct (ch - 48 =? 2).
    + destruct file as [s|].
      * destruct (Hfile s eq_refl) as (ws & Hws & ->).
        rewrite loadGame_saveGame by by apply reachable_WF. simpl.
        eexists. split; [done|]. split; [|done].
        apply (reach_load now w ws); [done|done|].
        by rewrite loadGame_saveGame by by apply reachable_WF.
      * simpl. destruct keys as [|ch' keys]; [by eexists|].
        apply IH. simpl in Hlen. lia.
    + destruct (ch - 48 =? 3); [by eexists|]. apply IH. lia.
Qed.

(** ** More of the new game and of a pass *)

(** X22: how a new game starts, besides its layout.  No bomb is planted
    and the counter is 0; the door is hidden under a green block on an
    interior cell that is not the spawn cell; every enemy's counter is 0,
    and every enemy stands on an empty cell or on the cell of the door,
    where the green block was put over it: no enemy starts on a trap or
    in another block. *)
Theorem initializeGame_start rnd fuel w k :
  initializeGame rnd fuel = Some (w, k) →
  bombs w = [] ∧ bombsPlanted w = 0 ∧
  visible (exitDoor w) = false ∧
  isInterior (d_x (exitDoor w)) (d_y (exitDoor w)) ∧
  (d_x (exitDoor w), d_y (exitDoor w)) ≠ (1, 1) ∧
  grid_read (grid w) (d_y (exitDoor w)) (d_x (exitDoor w))
  = Some (Some (DestructibleBlock true)) ∧
  ∀ e, e ∈ enemies w →
       moveStep e = 0 ∧
       (grid_read (grid w) (e_y e) (e_x e) = Some None ∨
        (e_x e, e_y e) = (d_x (exitDoor w), d_y (exitDoor w))).
Proof.
  unfold initializeGame. intros H.
  pose proof (genRows_walled rnd O) as Hw0.
  destruct (genRows rnd (seqZ 0 HEIGHT) O) as [g0 k0]. cbn [fst] in *.
  apply bind_Some in H as ([g1 k1] & Ht & H).
  apply bind_Some in H as ([es k2] & He & H).
  apply bind_Some in H as ([[exitX exitY] k3] & Hx & [= <- <-]).
  apply placeTraps_spec in Ht as [Hw1 _]; [|done].
  apply placeEnemies_free in He; [|apply Forall_forall; intros i Hi; apply elem_of_seqZ in Hi; lia].
  apply pickFree_spec in Hx as (Hint & Hnull & Hns).
  pose proof (clearStart_walled _ Hw1) as (Hd2 & _ & _).
  destruct Hw1 as (Hd1 & _ & _).
  assert (Hexit : grid_read (clearStart g1) exitY exitX = Some None).
  { apply cellAt_None_read; [done|by apply isInterior_inGrid|done]. }
  simpl. split_and!; try done.
  - by rewrite (grid_read_write_eq _ _ _ _ _ Hexit).
  - intros e Hin. rewrite Forall_forall in He.
    destruct (He e Hin) as (Hi & Hc & Hs & _). split; [done|].
    destruct (decide ((e_x e, e_y e) = (exitX, exitY))) as [Heq|Hne]; [by right|].
    left. rewrite grid_read_write_ne by done.
    rewrite clearStart_read; [|done|by apply isInterior_inGrid].
    case_decide; [done|].
    apply cellAt_None_read; [done|by apply isInterior_inGrid|done].
Qed.

(** X23: in a pass of the game loop that the player survives, the player
    stays on the cell or has moved by the one step of the key, to a cell
    that [isValidMove] accepted; nothing else of a pass moves the
    player. *)
Theorem player_moves_one_step_per_pass rnd k now key w w' k' :
  tick rnd k now key w = Some (Running w' k') →
  (p_x (player w'), p_y (player w')) = (p_x (player w), p_y (player w)) ∨
  ∃ dx dy, keyStep key dx dy ∧
           (p_x (player w'), p_y (player w')) = (p_x (player w) + dx, p_y (player w) + dy) ∧
           isValidMove (grid w) (p_x (player w) + dx) (p_y (player w) + dy) = Some true.
Proof.
  intros H. rewrite tick_keyAction in H. apply bind_Some in H as (w1 & Hk & H).
  apply update_frame in H as (es & _ & Hf).
  destruct Hf as (_ & _ & _ & _ & _ & Hx & Hy & _). simpl in Hx, Hy.
  rewrite Hx, Hy.
  assert (Hmove : ∀ dx dy, keyStep key dx dy → movePlayer dx dy w = Some w1 →
    (p_x (player w1), p_y (player w1)) = (p_x (player w), p_y (player w)) ∨
    ∃ dx dy, keyStep key dx dy ∧
      (p_x (player w1), p_y (player w1)) = (p_x (player w) + dx, p_y (player w) + dy) ∧
      isValidMove (grid w) (p_x (player w) + dx) (p_y (player w) + dy) = Some true).
  { intros dx dy Hkey Hm. unfold movePlayer in Hm.
    apply bind_Some in Hm as (ok & Hok & [= <-]).
    destruct ok; [|by left]. right. by exists dx, dy. }
  destruct key; simpl in Hk.
  - apply (Hmove 0 (-1)); [by left|done].
  - apply (Hmove 0 1); [right; by left|done].
  - apply (Hmove (-1) 0); [do 2 right; by left|done].
  - apply (Hmove 1 0); [by do 3 right|done].
  - injection Hk as <-. left. unfold plantBomb.
    destruct (canPlantBomb (player w)); [|done].
    by destruct (bombCount w >=? NUM_BOMBS).
  - injection Hk as <-. by left.
  - injection Hk as <-. by left.
Qed.

Lemma bombLoop_none_due fuel now i w :
  Forall (notDue now) (bombs w) → bombLoop fuel now i w = Survived w.
Proof.
  intros Hall. revert i. induction fuel as [|fuel IH]; intros i; simpl; [done|].
  destruct (bombs w !! i) as [b|] eqn:Hb; [|done].
  rewrite Forall_forall in Hall.
  assert (Hnd : notDue now b) by (apply Hall; by eapply list_elem_of_lookup_2).
  unfold notDue in Hnd. rewrite Hnd. apply IH.
Qed.

Lemma keyAction_bombs now key w w1 :
  keyAction now key w = Some w1 →
  grid w1 = grid w ∧ exitDoor w1 = exitDoor w ∧ enemies w1 = enemies w ∧
  (Forall (notDue now) (bombs w) → Forall (notDue now) (bombs w1)).
Proof.
  intros Hk.
  assert (Hmove : ∀ dx dy, movePlayer dx dy w = Some w1 →
            grid w1 = grid w ∧ exitDoor w1 = exitDoor w ∧ enemies w1 = enemies w ∧
            (Forall (notDue now) (bombs w) → Forall (notDue now) (bombs w1))).
  { intros dx dy Hm. apply movePlayer_same in Hm as (? & ? & ? & Hb & _).
    by rewrite Hb. }
  destruct key; simpl in Hk; eauto; injection Hk as <-; [|done..].
  destruct (plantBomb_same now w) as (? & ? & ?). split_and!; try done.
  intros Hall. unfold plantBomb.
  destruct (canPlantBomb (player w)); [|done].
  destruct (bombCount w >=? NUM_BOMBS); [done|]. simpl.
  apply Forall_app. split; [done|]. constructor; [|done]. apply shouldExplode_fresh.
Qed.

(** X24: without a bomb that is due, a pass of the game loop blows nobody
    up and leaves the map alone.  When no planted bomb has reached its
    three seconds at the clock reading of the pass, the pass does not end
    with the player blown up, and when it goes on, the grid, the exit
    door and the number of enemies are what they were. *)
Theorem pass_without_due_bomb rnd k now key w :
  Forall (notDue now) (bombs w) →
  tick rnd k now key w ≠ Some (GameOver "Player was blown up by a bomb!") ∧
  ∀ w' k', tick rnd k now key w = Some (Running w' k') →
           grid w' = grid w ∧ exitDoor w' = exitDoor w ∧ enemyCount w' = enemyCount w.
Proof.
  intros Hall. rewrite tick_keyAction.
  destruct (keyAction now key w) as [w1|] eqn:Hk; simpl; [|done].
  apply keyAction_bombs in Hk as (Hg & Hd & He & Hb). specialize (Hb Hall).
  unfold update.
  destruct (playerCaught w1); [done|].
  destruct (grid_read (grid w1) (p_y (player w1)) (p_x (player w1))) as [c|]; simpl; [|done].
  destruct (symbolIs c TRAP); [done|].
  destruct (moveEnemies rnd k (grid w1) (enemies w1)) as [[es k1]|] eqn:Hm; simpl; [|done].
  rewrite bombLoop_none_due by done. simpl.
  destruct (_ && _); [done|]. split; [done|].
  intros w' k' [= <- <-]. simpl. split; [done|]. split; [done|].
  apply moveEnemies_length in Hm. unfold enemyCount. simpl. by rewrite Hm, He.
Qed.

(** X25: [isValidMove] on the cells of the grid of a world of play.  For
    every position inside the grid the call returns a value, and it
    returns true exactly when the position is strictly inside the wall
    and the cell is empty or a trap: the reads that are undefined outside
    the grid do not occur inside it, where the border holds the wall. *)
Theorem isValidMove_inside_grid w x y :
  reachable w → inGrid x y →
  ∃ c, grid_read (grid w) y x = Some c ∧
       (isValidMove (grid w) x y = Some true ∨ isValidMove (grid w) x y = Some false) ∧
       (isValidMove (grid w) x y = Some true ↔
        isInterior x y ∧ (c = None ∨ c = Some Trap)).
Proof.
  intros Hr Hin.
  pose proof (reachable_WF _ Hr) as [Hd _ _ _].
  pose proof (reachable_placed _ Hr) as [Hw _ _ _].
  destruct (grid_dims_read _ _ _ Hd Hin) as [c Hc]. exists c. split; [done|].
  assert (Hcase : isInterior x y ∨ ¬ isInterior x y) by (unfold isInterior; lia).
  destruct Hcase as [Hi|Hi].
  - rewrite (isValidMove_interior _ _ _ _ Hi Hc).
    split; [destruct (isNull c || symbolIs c TRAP); auto|].
    split.
    + intros [= Hok]. split; [done|].
      apply orb_true_iff in Hok as [Hn|Ht];
        [left; by apply isNull_true | right; by apply symbolIs_TRAP].
    + by intros [_ [-> | ->]].
  - assert (Hb : isBorder x y) by (split; [done|]; unfold isInterior, inGrid in *; lia).
    rewrite (Hw _ _ Hb) in Hc. injection Hc as <-.
    rewrite (isValidMove_border _ _ _ IndestructibleBlock); [|done|by apply Hw].
    simpl. split; [by right|]. split; [done|]. by intros [? _].
Qed.

(** ** The properties on the game played out *)

(** The corner of the grid opposite the spawn cell, after the detonation. *)
Lemma border_wall_stands_witness :
  grid_read (grid demoEnd.1) 29 59 = Some (Some IndestructibleBlock).
Proof.
  apply (border_wall_stands demoEnd.1 demoEnd_reachable).
  unfold isBorder, inGrid, WIDTH, HEIGHT. lia.
Defined.

(** The player who has just planted a bomb stands on it, on an empty
    cell. *)
Lemma player_and_bombs_on_empty_cells_witness :
  grid_read (grid demoPlanted.1) (p_y (player demoPlanted.1)) (p_x (player demoPlanted.1))
  = Some None ∧
  grid_read (grid demoPlanted.1) 1 1 = Some None.
Proof.
  destruct (player_and_bombs_on_empty_cells demoPlanted.1 demoPlanted_reachable)
    as [[_ Hp] Hbs].
  split; [exact Hp|].
  apply (Hbs (mkBomb 1 1 0)). by_decision.
Defined.

Lemma enemies_stay_in_the_open_witness :
  enemyCount demoEnd.1 ≤ (HEIGHT + WIDTH) / 10 ∧
  isInterior 45 20.
Proof.
  destruct (enemies_stay_in_the_open demoEnd.1 demoEnd_reachable) as [Hn Hall].
  split; [exact Hn|].
  apply (Hall (mkEnemy 45 20 0 6)). by_decision.
Defined.

Lemma game_loop_reads_in_bounds_witness :
  ∃ o, tick demoRnd demoEnd.2 (3050 * MS) KeyLeft demoEnd.1 = Some o.
Proof.
  destruct (game_loop_reads_in_bounds demoEnd.1 demoEnd_reachable) as [Hone _].
  apply Hone.
Defined.

(** From the spawn cell of the new game: to the right the cell is empty,
    and the player moves. *)
Lemma movePlayer_steps_or_stays_witness :
  movePlayer 1 0 demoStart.1
  = Some (withPlayer demoStart.1 (Player_move 1 0 (player demoStart.1))).
Proof.
  destruct (movePlayer_steps_or_stays demoStart.1 1 0 demoStart_reachable)
    as (c & Hc & Hmove & _); [lia..|].
  apply Hmove. left.
  assert (Hread : grid_read (grid demoStart.1) (p_y (player demoStart.1) + 0)
                    (p_x (player demoStart.1) + 1) = Some None) by by_computation.
  rewrite Hread in Hc. by injection Hc as <-.
Defined.

(** The player of the new game put next to the trap of (10,10). *)
Lemma step_on_trap_ends_game_witness :
  tick demoRnd 0 0 KeyRight (withPlayer demoStart.1 (mkPlayer 9 10 3))
  = Some (GameOver "Player stepped on a trap!").
Proof.
  destruct (step_on_trap_ends_game demoRnd 0 0 KeyRight 1 0
              (withPlayer demoStart.1 (mkPlayer 9 10 3))) as [_ Htick].
  - do 3 right. reflexivity.
  - by_computation.
  - rewrite Htick. by_computation.
Defined.

(** After the detonation has uncovered the door on (1,2), the player
    steps on it from (2,2). *)
Lemma win_needs_door_visible_before_witness :
  tick demoRnd demoEnd.2 (3050 * MS) KeyLeft demoEnd.1 = Some GameWin ∧
  visible (exitDoor demoEnd.1) = true.
Proof.
  assert (Hwin : tick demoRnd demoEnd.2 (3050 * MS) KeyLeft demoEnd.1 = Some GameWin)
    by by_computation.
  split; [exact Hwin|].
  apply (win_needs_door_visible_before demoRnd demoEnd.2 (3050 * MS) KeyLeft demoEnd.1
           demoEnd_reachable Hwin).
Defined.

(** The world loaded with one bomb: capacity 3 and one bomb. *)
Lemma bomb_counters_bounded_witness :
  NUM_BOMBS ≤ hasBombs (player demoReloaded.1) + bombCount demoReloaded.1 ≤ 2 * NUM_BOMBS.
Proof.
  destruct (bomb_counters_bounded demoReloaded.1 demoReloaded_reachable)
    as (_ & _ & Hsum & _).
  exact Hsum.
Defined.

Lemma space_key_plants_one_bomb_witness :
  bombsPlanted demoPlanted.1 = bombsPlanted demoStart.1 + 1 ∧
  mkBomb (p_x (player demoStart.1)) (p_y (player demoStart.1)) 0 ∈ bombs demoPlanted.1.
Proof.
  assert (Htick : tick demoRnd demoStart.2 0 KeySpace demoStart.1
                  = Some (Running demoPlanted.1 demoPlanted.2)) by by_computation.
  destruct (space_key_plants_one_bomb _ _ _ _ _ _ _ Htick) as [Hplant _].
  apply Hplant. split; [reflexivity|]. split; by_decision.
Defined.

(** The pass of the detonation: the door stays on (1,2). *)
Lemma pass_only_removes_destructible_blocks_witness :
  (d_x (exitDoor demoEnd.1), d_y (exitDoor demoEnd.1))
  = (d_x (exitDoor demoBefore.1), d_y (exitDoor demoBefore.1)).
Proof.
  assert (Htick : tick demoRnd demoBefore.2 (3000 * MS) KeyNone demoBefore.1
                  = Some (Running demoEnd.1 demoEnd.2)) by by_computation.
  destruct (pass_only_removes_destructible_blocks _ _ _ _ _ _ _ Htick)
    as (_ & _ & _ & Hdoor & _).
  exact Hdoor.
Defined.

(** The cell to the right of the bomb of (1,1): the blast reaches it. *)
Lemma explodeBomb_one_enemy_per_ray_cell_witness :
  enemiesOn 2 1 (enemies demoBlast) = pred (enemiesOn 2 1 (enemies demoBefore.1)).
Proof.
  assert (H1 : explodeBomb demoBomb demoBefore.1 = Survived demoBlast) by by_computation.
  assert (H2 : cardinal 1 0) by (do 3 right; reflexivity).
  assert (H3 : inFire (grid demoBefore.1) (b_x demoBomb) (b_y demoBomb) 1 0 2 1).
  { exists 1. split; [lia|]. split; [reflexivity|].
    intros j Hj. assert (j = 1) as -> by lia. by_computation. }
  destruct (explodeBomb_one_enemy_per_ray_cell _ _ _ _ _ _ _ H1 H2 H3) as [Hen _].
  exact Hen.
Defined.

Lemma explodeBomb_spares_cells_off_the_cross_witness :
  grid_read (grid demoBlast) 5 5 = grid_read (grid demoBefore.1) 5 5 ∧
  bombs demoBlast = bombs demoBefore.1.
Proof.
  assert (H1 : explodeBomb demoBomb demoBefore.1 = Survived demoBlast) by by_computation.
  destruct (explodeBomb_spares_cells_off_the_cross _ _ _ H1) as (Hoff & Hbs & _).
  split; [|exact Hbs].
  apply Hoff. unfold onCross. simpl. lia.
Defined.

Lemma save_load_save_same_file_witness :
  saveGame (afterLoad (50 * MS) (saveGame demoWaited.1) demoStart).1
  = saveGame demoWaited.1.
Proof.
  assert (Hload : loadGame (50 * MS) (Some (saveGame demoWaited.1)) demoStart.1
                  = Some (true, (afterLoad (50 * MS) (saveGame demoWaited.1) demoStart).1))
    by by_computation.
  destruct (save_load_save_same_file _ _ _ _ demoWaited_reachable Hload) as [Hsame _].
  exact Hsame.
Defined.

(** The file without its end loads to a world of the same shape. *)
Lemma loadGame_result_shape_witness :
  hasBombs (player (afterLoad 0 demoTruncated demoWaited).1) = NUM_BOMBS ∧
  grid_dims (grid (afterLoad 0 demoTruncated demoWaited).1).
Proof.
  assert (Hload : loadGame 0 (Some demoTruncated) demoWaited.1
                  = Some (true, (afterLoad 0 demoTruncated demoWaited).1))
    by by_computation.
  destruct (loadGame_result_shape _ _ _ _ Hload) as (_ & Hd & Hcap & _).
  split; [exact Hcap | exact Hd].
Defined.

(** A generator that always returns 0. *)
Lemma initializeGame_can_loop_forever_witness :
  initializeGame (λ _, 0%nat) 1000 = None.
Proof.
  apply (initializeGame_can_loop_forever (λ _, 0%nat)).
  intros j _. split; reflexivity.
Defined.

(** The bomb that the player has just planted covers the player. *)
Lemma display_layers_witness :
  display 31 60 demoPlanted.1 1 1 = mkGlyph BOMB false.
Proof.
  destruct (display_layers 31 60 demoPlanted.1) as [Hcell _].
  rewrite (Hcell 1 1).
  - by_computation.
  - unfold inGrid, WIDTH, HEIGHT. lia.
  - by_computation.
Defined.

(** The door of the new game, on (1,2). *)
Lemma display_hides_the_door_witness :
  display 31 60 demoStart.1 2 1 = mkGlyph DESTRUCTIBLE_BLOCK true.
Proof.
  destruct (display_hides_the_door 31 60 demoStart.1 1 2 demoStart_reachable)
    as (_ & _ & Hdoor).
  - by_computation.
  - unfold inGrid, WIDTH, HEIGHT. lia.
  - by_computation.
  - rewrite Hdoor; by_computation.
Defined.

(** The keys 2, x and 1 without a save file. *)
Lemma menu_enters_a_world_of_play_witness :
  ∃ m, run 0 None [50; 120; 49] demoStart.1 = Some m ∧
       match m with
       | MenuPlay w' => reachable w' ∧ ((None : option (list ascii)) = None → w' = demoStart.1)
       | MenuWaits w' => w' = demoStart.1
       | MenuExit => True
       end.
Proof.
  apply (menu_enters_a_world_of_play 0 None [50; 120; 49] demoStart.1 demoStart_reachable).
  intros s Hs. discriminate Hs.
Defined.

(** The new game: the door on (1,2), hidden. *)
Lemma initializeGame_start_witness :
  visible (exitDoor demoStart.1) = false ∧ bombs demoStart.1 = [].
Proof.
  destruct (initializeGame_start demoRnd 1 demoStart.1 demoStart.2) as (Hb & _ & Hv & _).
  - rewrite demoStart_new. by destruct demoStart.
  - split; [exact Hv | exact Hb].
Defined.

(** The first step of the game played out: from (1,1) to (2,1). *)
Lemma player_moves_one_step_per_pass_witness :
  (p_x (player (afterTicks (take 2 demoInputs) demoStart).1),
   p_y (player (afterTicks (take 2 demoInputs) demoStart).1))
  = (p_x (player demoPlanted.1), p_y (player demoPlanted.1)) ∨
  ∃ dx dy, keyStep KeyRight dx dy ∧
    (p_x (player (afterTicks (take 2 demoInputs) demoStart).1),
     p_y (player (afterTicks (take 2 demoInputs) demoStart).1))
    = (p_x (player demoPlanted.1) + dx, p_y (player demoPlanted.1) + dy) ∧
    isValidMove (grid demoPlanted.1) (p_x (player demoPlanted.1) + dx)
      (p_y (player demoPlanted.1) + dy) = Some true.
Proof.
  apply (player_moves_one_step_per_pass demoRnd demoPlanted.2 (50 * MS) KeyRight
           demoPlanted.1 _ (afterTicks (take 2 demoInputs) demoStart).2).
  by_computation.
Defined.

(** The pass after the bomb was planted, 50 ms later. *)
Lemma pass_without_due_bomb_witness :
  tick demoRnd demoPlanted.2 (50 * MS) KeyRight demoPlanted.1
  ≠ Some (GameOver "Player was blown up by a bomb!").
Proof.
  destruct (pass_without_due_bomb demoRnd demoPlanted.2 (50 * MS) KeyRight demoPlanted.1)
    as [Hsafe _]; [by_decision|exact Hsafe].
Defined.

(** The corner of the wall and the cell next to the spawn cell. *)
Lemma isValidMove_inside_grid_witness :
  isValidMove (grid demoStart.1) 0 0 = Some false.
Proof.
  destruct (isValidMove_inside_grid demoStart.1 0 0 demoStart_reachable)
    as (c & _ & [Ht|Hf] & Hiff).
  - unfold inGrid, WIDTH, HEIGHT. lia.
  - apply Hiff in Ht as [Hi _]. unfold isInterior in Hi. lia.
  - exact Hf.
Defined.
